(** * TextCNN sentiment pipeline (mlmodels/model_tch/textcnn.py)

    A shallow embedding of the text normaliser, the dataset splitter, the
    configuration reader, and the training / evaluation / driver loops of
    [textcnn.py], with the properties of its specification stated and
    settled against the embedding.

    Conventions.
    - A Python [str] is a list of Unicode code points ([list N]).
    - In the module [Torch] the scalars of the loops are real numbers:
      the loops only add, divide and compare what the framework returns,
      and the statements there are about that arithmetic.  The module
      [Machine] gives the same additions and divisions as the machine
      makes them, in binary32 and binary64, for the statements that
      depend on the rounding.
    - A Python exception is the [None] of an [option], or the [Raise] of
      a result type where its kind matters. *)

From Stdlib Require Import Ascii String.
From Stdlib Require Import List Bool Arith NArith ZArith Lia.
From Stdlib Require Import QArith Qpower.
From Stdlib Require Qcanon Lqa SpecFloat.
From Stdlib Require Import Reals Lra.
From Stdlib Require Import Permutation.
Import ListNotations.

(* ====================================================================== *)
(** * Text normaliser: [clean_str] *)
(* ====================================================================== *)

Module Text.

Local Open Scope N_scope.
Local Open Scope list_scope.

(** A character is a code point; a string is a list of them. *)
Definition char := N.
Definition text := list char.

(** Reading of a literal of this development as a Python string. *)
Definition str (s : string) : text :=
  List.map N_of_ascii (list_ascii_of_string s).

Definition space : char := 32.
Definition backslash : char := 92.

Definition between (lo hi c : char) : bool := (lo <=? c) && (c <=? hi).

Definition is_upper (c : char) : bool := between 65 90 c.
Definition is_lower (c : char) : bool := between 97 122 c.
Definition is_digit (c : char) : bool := between 48 57 c.
Definition is_ascii_letter (c : char) : bool := is_upper c || is_lower c.

(** Membership in a set of characters given by a literal. *)
Definition one_of (cs : text) (c : char) : bool :=
  existsb (N.eqb c) cs.

(** The character class [A-Za-z0-9(),!?'`] of the first substitution. *)
Definition kept (c : char) : bool :=
  is_upper c || is_lower c || is_digit c
  || one_of (str "(),!?'`") c.

(** [\s] of a [str] pattern, and the characters removed by [str.strip()]. *)
Definition is_space (c : char) : bool :=
  between 9 13 c || between 28 32 c
  || (c =? 133) || (c =? 160) || (c =? 5760)
  || between 8192 8202 c || (c =? 8232) || (c =? 8233)
  || (c =? 8239) || (c =? 8287) || (c =? 12288).

(** ** [re.sub] for the three shapes of pattern that the source uses *)

(** A pattern that is a one-character class: every matching character is
    replaced. *)
Definition re_sub_class (cls : char -> bool) (repl s : text) : text :=
  flat_map (fun c => if cls c then repl else [c]) s.

Fixpoint starts_with (p s : text) : bool :=
  match p, s with
  | [], _ => true
  | _ :: _, [] => false
  | a :: p', b :: s' => (a =? b) && starts_with p' s'
  end.

(** A pattern that is a non-empty literal: leftmost non-overlapping
    occurrences, scanning from the left.  [skip] counts the characters of a
    match that are still to be consumed. *)
Fixpoint sub_from (skip : nat) (pat repl s : text) : text :=
  match s with
  | [] => []
  | c :: s' =>
      match skip with
      | S k => sub_from k pat repl s'
      | O =>
          if starts_with pat s
          then repl ++ sub_from (length pat - 1) pat repl s'
          else c :: sub_from 0 pat repl s'
      end
  end.

Definition re_sub_lit (pat repl s : text) : text := sub_from 0 pat repl s.

(** The pattern [\s{2,}]: a maximal run of at least two whitespace
    characters is replaced; a lone whitespace character is kept as it is.
    [in_run] says that the scan is inside a run already replaced. *)
Fixpoint spaces_from (in_run : bool) (repl s : text) : text :=
  match s with
  | [] => []
  | c :: s' =>
      if is_space c then
        if in_run then spaces_from true repl s'
        else
          match s' with
          | d :: _ =>
              if is_space d then repl ++ spaces_from true repl s'
              else c :: spaces_from false repl s'
          | [] => [c]
          end
      else c :: spaces_from false repl s'
  end.

Definition re_sub_spaces2 (repl s : text) : text := spaces_from false repl s.

(** ** Replacement templates

    [re.sub] expands backslash escapes of the replacement.  A backslash
    followed by one of [abfnrtv\] is that control character; followed by
    another ASCII letter it is an error; followed by a digit or [g] it is a
    group reference (none occurs in the source: [None] here); followed by
    any other character, {e both} the backslash and the character are
    kept. *)
Definition escape_char (c : char) : option char :=
  if c =? 97 then Some 7 else if c =? 98 then Some 8
  else if c =? 102 then Some 12 else if c =? 110 then Some 10
  else if c =? 114 then Some 13 else if c =? 116 then Some 9
  else if c =? 118 then Some 11 else if c =? 92 then Some 92
  else None.

Fixpoint expand_template (t : text) : option text :=
  match t with
  | [] => Some []
  | c :: t' =>
      if c =? backslash then
        match t' with
        | [] => None
        | d :: t'' =>
            match escape_char d with
            | Some e => option_map (cons e) (expand_template t'')
            | None =>
                if is_ascii_letter d || is_digit d then None
                else option_map (fun r => c :: d :: r) (expand_template t'')
            end
        end
      else option_map (cons c) (expand_template t')
  end.

Definition template (t : string) : text :=
  match expand_template (str t) with
  | Some r => r
  | None => []
  end.

(** ** [str.strip()] *)

Fixpoint lstrip (s : text) : text :=
  match s with
  | [] => []
  | c :: s' => if is_space c then lstrip s' else s
  end.

Definition rstrip (s : text) : text := rev (lstrip (rev s)).

Definition strip (s : text) : text := rstrip (lstrip s).

(** ** [clean_str]

    The patterns are the source's raw strings with the regular-expression
    escapes read ([\'] is the quote, [\(] the parenthesis, ...); the
    templates are the source's string literals as Python reads them (the
    literal [" \( "] is space, backslash, parenthesis, space). *)
Definition clean_str (string : text) : text :=
  let string := re_sub_class (fun c => negb (kept c)) (template " ") string in
  let string := re_sub_lit (str "'s") (template " 's") string in
  let string := re_sub_lit (str "'ve") (template " 've") string in
  let string := re_sub_lit (str "n't") (template " n't") string in
  let string := re_sub_lit (str "'re") (template " 're") string in
  let string := re_sub_lit (str "'d") (template " 'd") string in
  let string := re_sub_lit (str "'ll") (template " 'll") string in
  let string := re_sub_lit (str ",") (template " , ") string in
  let string := re_sub_lit (str "!") (template " ! ") string in
  let string := re_sub_lit (str "(") (template " \( ") string in
  let string := re_sub_lit (str ")") (template " \) ") string in
  let string := re_sub_lit (str "?") (template " \? ") string in
  let string := re_sub_spaces2 (template " ") string in
  strip string.

(** ** Vocabulary of the statements about [clean_str] *)

(** The words of a string: the maximal runs of characters other than the
    space, as [s.split()] gives them on a string whose only whitespace is
    the space. *)
Definition nonempty (w : text) : bool :=
  match w with [] => false | _ :: _ => true end.

Fixpoint split_sp (s : text) : list text :=
  match s with
  | [] => [[]]
  | c :: s' =>
      if c =? space then [] :: split_sp s'
      else match split_sp s' with
           | w :: ws => (c :: w) :: ws
           | [] => [[c]]
           end
  end.

Definition tokens (s : text) : list text := filter nonempty (split_sp s).

Fixpoint unwords (ws : list text) : text :=
  match ws with
  | [] => []
  | w :: ws' =>
      match ws' with
      | [] => w
      | _ :: _ => w ++ space :: unwords ws'
      end
  end.

(** [t] is [s] with spaces inserted. *)
Inductive Ins : text -> text -> Prop :=
| Ins_nil : Ins [] []
| Ins_keep c s t : Ins s t -> Ins (c :: s) (c :: t)
| Ins_add s t : Ins s t -> Ins s (space :: t).

Definition ends_sp (a : text) : Prop := exists a', a = a' ++ [space].

(** Every occurrence of [p] in [s] comes right after a space. *)
Definition Good (p s : text) : Prop :=
  forall a b, s = a ++ p ++ b -> ends_sp a.

Definition occurs (p s : text) : Prop := exists a b, s = a ++ p ++ b.

(** No proper non-empty suffix of [p] is a prefix of [p]. *)
Definition border_free (p : text) : Prop :=
  forall a l l', p = a ++ l -> p = l ++ l' -> a = [] \/ l = [].

Definition no_space (p : text) : Prop := Forall (fun c => c <> space) p.

(** The stages of [clean_str]. *)
Definition step1 (s : text) : text :=
  re_sub_class (fun c => negb (kept c)) (template " ") s.

Definition contr (s : text) : text :=
  let s := re_sub_lit (str "'s") (template " 's") s in
  let s := re_sub_lit (str "'ve") (template " 've") s in
  let s := re_sub_lit (str "n't") (template " n't") s in
  let s := re_sub_lit (str "'re") (template " 're") s in
  let s := re_sub_lit (str "'d") (template " 'd") s in
  re_sub_lit (str "'ll") (template " 'll") s.

Definition punct (s : text) : text :=
  let s := re_sub_lit (str ",") (template " , ") s in
  let s := re_sub_lit (str "!") (template " ! ") s in
  let s := re_sub_lit (str "(") (template " \( ") s in
  let s := re_sub_lit (str ")") (template " \) ") s in
  re_sub_lit (str "?") (template " \? ") s.

Definition squash (s : text) : text :=
  strip (re_sub_spaces2 (template " ") s).

(** The contraction suffixes, in the order of the source, and the
    punctuation marks with what replaces each of them. *)
Definition contractions : list text :=
  [str "'s"; str "'ve"; str "n't"; str "'re"; str "'d"; str "'ll"].

Definition space_before (s p : text) : text := re_sub_lit p (space :: p) s.

Definition is_punct (c : char) : bool := one_of (str ",!()?") c.

Definition punct_char (c : char) : text :=
  if c =? 44 then template " , "
  else if c =? 33 then template " ! "
  else if c =? 40 then template " \( "
  else if c =? 41 then template " \) "
  else if c =? 63 then template " \? "
  else [c].

Definition punct_tokens : list text :=
  [str ","; str "!"; backslash :: str "("; backslash :: str ")";
   backslash :: str "?"].

(** The string before the whitespace is squashed, and its words. *)
Definition spaced (s : text) : text := punct (contr (step1 s)).
Definition words_of (s : text) : list text := tokens (spaced s).

Definition no_punct (v : text) : Prop :=
  Forall (fun c => is_punct c = false) v.

(** What the argument about a pattern needs of it. *)
Definition pattern_ok (p : text) : Prop :=
  p <> [] /\ no_space p /\ border_free p.

(** [p] occurs in [v] at the start only. *)
Definition head_only (p v : text) : Prop :=
  forall a b, v = a ++ p ++ b -> a = [].

(** The only whitespace of [s] is the space. *)
Definition only_sp (s : text) : Prop :=
  Forall (fun c => is_space c = true -> c = space) s.

(** What follows a character that is not a space, once [s] is squashed. *)
Definition after_word (s : text) : text :=
  match s with
  | [] => []
  | c :: _ =>
      if c =? space then
        match unwords (tokens s) with
        | [] => []
        | u => space :: u
        end
      else unwords (tokens s)
  end.

End Text.

(* ====================================================================== *)
(** * Configuration reader: [get_params] *)
(* ====================================================================== *)

Module Config.

Local Open Scope string_scope.

(** What [json.load] returns. An object is the list of its members; a key
    is looked up from the left. *)
#[local] Unset Elimination Schemes.
Inductive json : Type :=
| JNull
| JBool (b : bool)
| JNum (q : Q)
| JStr (s : string)
| JArr (items : list json)
| JObj (members : list (string * json)).
#[local] Set Elimination Schemes.

Inductive exn : Type :=
| OSError             (* the file cannot be opened *)
| ValueError          (* the path holds a null character *)
| UnicodeDecodeError  (* the bytes of the file are no text *)
| JSONDecodeError     (* the text of the file is no JSON document *)
| RecursionError      (* the document is nested too deeply for the decoder *)
| AttributeError      (* [.get] on a value that is not a dict *)
| KeyError.

Inductive result (A : Type) : Type :=
| Ok (a : A)
| Raise (e : exn).
Arguments Ok {A} a.
Arguments Raise {A} e.

Definition bind {A B} (r : result A) (k : A -> result B) : result B :=
  match r with
  | Ok a => k a
  | Raise e => Raise e
  end.

Notation "x <- r ;; k" := (bind r (fun x => k))
  (at level 61, r at next level, right associativity).

Fixpoint lookup (k : string) (members : list (string * json)) : option json :=
  match members with
  | [] => None
  | (k', v) :: rest => if String.eqb k k' then Some v else lookup k rest
  end.

(** [d.get(k, default)]: only a dict has the method. *)
Definition get (d : json) (k : string) (default : json) : result json :=
  match d with
  | JObj members =>
      match lookup k members with
      | Some v => Ok v
      | None => Ok default
      end
  | _ => Raise AttributeError
  end.

(** The empty dictionary, [dict()]. *)
Definition dict : json := JObj [].

(** What the reading of a path gives: the exception that [open] or
    [json.load] raises, or the document that [json.load] returns. *)
Inductive file : Type :=
| Raises (e : exn)
| Document (d : json).

(** [with open(path, 'r') as f: config = json.load(f)]. *)
Definition load (fs : string -> file) (path : string) : result json :=
  match fs path with
  | Raises e => Raise e
  | Document d => Ok d
  end.

Section GetParams.
(** The value of [get_config_file()], which depends on where the module
    is installed. *)
Variable config_file : string.
Variable fs : string -> file.

Definition get_params (path : option string) (test : bool)
  : result (json * json * json * json) :=
  let path := match path with None => config_file | Some p => p end in
  config <- load fs path ;;
  config <- (if test then get config "test" JNull
             else get config "prod" JNull) ;;
  model_pars <- get config "model_pars" dict ;;
  data_pars <- get config "data_pars" dict ;;
  compute_pars <- get config "compute_pars" dict ;;
  out_pars <- get config "out_pars" dict ;;
  Ok (model_pars, data_pars, compute_pars, out_pars).
End GetParams.

(** The profile that [get_params] selects, and an option group of a
    profile with its default. *)
Definition profile (test : bool) : string := if test then "test" else "prod".

Definition group (prof : list (string * json)) (name : string) : json :=
  match lookup name prof with
  | Some v => v
  | None => dict
  end.

End Config.

(* ====================================================================== *)
(** * Dataset splitter: [split_train_valid] *)
(* ====================================================================== *)

Module Split.

Local Open Scope Z_scope.

(** Python's [round] on a non-negative rational: to the nearest integer,
    a tie to the even one. *)
Definition round_half_even (q : Q) : Z :=
  let n := Qnum q in
  let d := Z.pos (Qden q) in
  let fl := n / d in
  let r2 := 2 * (n mod d) in
  if r2 <? d then fl
  else if d <? r2 then fl + 1
  else if Z.even fl then fl else fl + 1.

Section Frame.
(** A row of the data frame (text and label). *)
Variable Row : Type.

(** [df.sample(frac=f, random_state=rng)]: [round(f * len(df))] rows,
    those at the first positions of the order that the generator draws.
    [order] is that order, a rearrangement of the positions of [df].
    The product is taken exactly here; the machine rounds it to binary64
    before [round] sees it, which makes a difference only where the
    exact product lies halfway between two integers (0.7 * 45 is
    31.499999999999996 on the machine), or beyond some 10^14 rows. *)
Definition sample (df : list (nat * Row)) (f : Q) (order : list nat)
  : list (nat * Row) :=
  let n := round_half_even (f * inject_Z (Z.of_nat (length df))) in
  flat_map (fun i => firstn 1 (skipn i df)) (firstn (Z.to_nat n) order).

(** [df.index.isin(tr.index)] at one row. *)
Definition isin (tr : list (nat * Row)) (row : nat * Row) : bool :=
  existsb (Nat.eqb (fst row)) (map fst tr).

(** [pd.read_csv]: the rows with the default index 0, 1, 2, ... *)
Definition read_csv (rows : list Row) : list (nat * Row) :=
  combine (seq 0 (length rows)) rows.

(** [to_csv(path, index=False)]: the rows without the index. *)
Definition to_csv (df : list (nat * Row)) : list Row := map snd df.

(** The two files written, as (train, valid). The parameter [frac] is
    not read: the fraction sampled is the literal 0.7. *)
Definition split_train_valid (data : list Row) (order : list nat)
    (frac : Q) : list Row * list Row :=
  let df := read_csv data in
  let tr := sample df (7 # 10) order in
  let tst := filter (fun row => negb (isin tr row)) df in
  (to_csv tr, to_csv tst).

(** The split that the specification describes: the fraction [frac] of
    the rows for training, the other rows for validation. *)
Definition split_by_frac (data : list Row) (order : list nat)
    (frac : Q) : list Row * list Row :=
  let df := read_csv data in
  let tr := sample df frac order in
  let tst := filter (fun row => negb (isin tr row)) df in
  (to_csv tr, to_csv tst).
End Frame.

Arguments sample {Row} df f order.
Arguments isin {Row} tr row.
Arguments read_csv {Row} rows.
Arguments to_csv {Row} df.
Arguments split_train_valid {Row} data order frac.
Arguments split_by_frac {Row} data order frac.

End Split.

(* ====================================================================== *)
(** * Training loop, evaluation loop and driver *)
(* ====================================================================== *)

Module Torch.

Local Open Scope R_scope.

Definition obind {A B} (o : option A) (k : A -> option B) : option B :=
  match o with
  | Some a => k a
  | None => None
  end.

Notation "x <- o ;; k" := (obind o (fun x => k))
  (at level 61, o at next level, right associativity).
Notation "' p <- o ;; k" := (obind o (fun x => let p := x in k))
  (at level 61, p pattern, o at next level, right associativity).

Fixpoint mapM {A B} (f : A -> option B) (l : list A) : option (list B) :=
  match l with
  | [] => Some []
  | x :: l' => y <- f x ;; ys <- mapM f l' ;; Some (y :: ys)
  end.

Fixpoint foldM {A S} (f : S -> A -> option S) (l : list A) (s : S)
  : option S :=
  match l with
  | [] => Some s
  | x :: l' => s' <- f s x ;; foldM f l' s'
  end.

(** ** Devices *)

Inductive Device : Type := cpu | cuda.

(** [torch.device("cuda" if torch.cuda.is_available() else "cpu")]. *)
Definition torch_device (cuda_is_available : bool) : Device :=
  if cuda_is_available then cuda else cpu.

(** [_get_device] binds a local variable and has no [return] statement:
    the call evaluates to [None]. *)
Definition _get_device (cuda_is_available : bool) : option Device :=
  let device := torch_device cuda_is_available in
  None.

(** A tensor: where it is placed and what it holds. *)
Record Tensor (A : Type) : Type := tensor { place : Device; data : A }.
Arguments tensor {A} place data.
Arguments place {A} t.
Arguments data {A} t.

(** [t.to(device)]; with [None] the tensor stays where it is. *)
Definition to {A} (t : Tensor A) (device : option Device) : Tensor A :=
  match device with
  | None => t
  | Some d => tensor d (data t)
  end.

(** ** Batches and iterators *)

(** A batch of a [torchtext] iterator: [text] is sequence-major (one row
    per position, one column per example), [label] holds the indices of
    the label vocabulary, where 0 is the unknown label. *)
Record Batch : Type := {
  text : Tensor (list (list nat));
  label : Tensor (list nat)
}.

(** An iterator over a dataset: [len(itr.dataset)], the batches of each
    pass (a pass builds fresh batches, in an order the iterator draws),
    and the number of passes made. *)
Record Iterator : Type := {
  dataset_len : nat;
  pass : nat -> list Batch;
  passes : nat
}.

Definition iterate (itr : Iterator) : list Batch * Iterator :=
  (pass itr (passes itr),
   {| dataset_len := dataset_len itr; pass := pass itr;
      passes := S (passes itr) |}).

Fixpoint zip_cons {A} (row : list A) (cols : list (list A))
  : list (list A) :=
  match row with
  | [] => []
  | x :: row' =>
      match cols with
      | [] => [x] :: zip_cons row' []
      | c :: cols' => (x :: c) :: zip_cons row' cols'
      end
  end.

(** [torch.transpose(t, 0, 1)] of a matrix. *)
Definition transpose {A} (t : Tensor (list (list A)))
  : Tensor (list (list A)) :=
  tensor (place t) (fold_right zip_cons [] (data t)).

(** [target.data.sub_(k)]. *)
Definition sub_ (t : Tensor (list nat)) (k : Z) : Tensor (list Z) :=
  tensor (place t) (map (fun l => (Z.of_nat l - k)%Z) (data t)).

(** [os.path.join(a, b)] on a POSIX system. *)
Definition ends_with_slash (a : string) : bool :=
  match String.get (String.length a - 1) a with
  | Some c => Ascii.eqb c "/"
  | None => false
  end.

Definition os_path_join (a b : string) : string :=
  if String.prefix "/" b then b
  else if (String.eqb a "" || ends_with_slash a)%bool then (a ++ b)%string
  else (a ++ "/" ++ b)%string.

(** ** Dictionaries of parameters and exceptions *)

(** The values that the two dictionaries of parameters can hold, as far
    as [fit] tells them apart: an integer (a [bool] is the integer it
    stands for), a float, a string, or anything else ([None], a list, a
    dictionary). *)
Inductive value : Type :=
| Int (n : Z)
| Float (x : R)
| Str (s : string)
| Other.

(** A dictionary with strings for keys. *)
Definition dict : Type := string -> option value.

Inductive exn : Type :=
| KeyError    (* a key that the dictionary does not hold *)
| TypeError   (* a value of a type that the operation does not take *)
| ValueError  (* a learning rate below zero *)
| OSError     (* a file that cannot be opened for writing *)
| LoopError.  (* whatever [_train] or [_valid] raised *)

Inductive result (A : Type) : Type :=
| Ok (a : A)
| Raise (e : exn).
Arguments Ok {A} a.
Arguments Raise {A} e.

Definition rbind {A B} (r : result A) (k : A -> result B) : result B :=
  match r with
  | Ok a => k a
  | Raise e => Raise e
  end.

Notation "x <~ r ;; k" := (rbind r (fun x => k))
  (at level 61, r at next level, right associativity).
Notation "' p <~ r ;; k" := (rbind r (fun x => let p := x in k))
  (at level 61, p pattern, r at next level, right associativity).

(** A call of one of the loops inside [fit]: its exception ends [fit]. *)
Definition raising {A} (o : option A) : result A :=
  match o with
  | Some a => Ok a
  | None => Raise LoopError
  end.

(** [d[k]]. *)
Definition getitem (d : dict) (k : string) : result value :=
  match d k with
  | Some v => Ok v
  | None => Raise KeyError
  end.

(** [os.path.join(a, b)] with whatever the dictionary holds for [a]. *)
Definition join (a : value) (b : string) : result string :=
  match a with
  | Str a => Ok (os_path_join a b)
  | _ => Raise TypeError
  end.

(** ** Loss and predictions *)

Definition sum_exp (z : list R) : R :=
  fold_right (fun x a => exp x + a) 0 z.

(** The cross-entropy of one example: minus the logarithm of the softmax
    probability of the target class; an error when the target is not a
    class. *)
Definition nll (z : list R) (t : Z) : option R :=
  if ((0 <=? t)%Z && (t <? Z.of_nat (length z))%Z)%bool
  then Some (ln (sum_exp z) - nth (Z.to_nat t) z 0)
  else None.

Fixpoint nlls (logit : list (list R)) (target : list Z) : option (list R) :=
  match logit, target with
  | [], [] => Some []
  | z :: logit', t :: target' =>
      l <- nll z t ;; ls <- nlls logit' target' ;; Some (l :: ls)
  | _, _ => None
  end.

Definition Rsum (l : list R) : R := fold_right Rplus 0 l.

(** [F.cross_entropy(logit, target)] with its default reduction, the mean
    over the batch.  A batch without examples has no mean: the framework
    answers with a NaN, which is no real number, and there is no value
    here.  An iterator of [torchtext] with a batch size of one or more
    yields no such batch. *)
Definition cross_entropy (logit : list (list R)) (target : list Z)
  : option R :=
  match logit with
  | [] => None
  | _ :: _ => ls <- nlls logit target ;; Some (Rsum ls / INR (length ls))
  end.

Fixpoint argmax_from (best_i : nat) (best : R) (i : nat) (z : list R)
  : nat :=
  match z with
  | [] => best_i
  | x :: z' =>
      if Rlt_dec best x then argmax_from i x (S i) z'
      else argmax_from best_i best (S i) z'
  end.

(** [torch.max(logit, 1)[1]] on one row: the first index of the largest
    score. *)
Definition argmax (z : list R) : nat :=
  match z with
  | [] => O
  | x :: z' => argmax_from 0 x 1 z'
  end.

(** [(result.view(target.size()).data == target.data).sum()]. *)
Definition count_equal (result : list nat) (target : list Z) : nat :=
  length (filter (fun rt => (Z.of_nat (fst rt) =? snd rt)%Z)
            (combine result target)).

(** ** The framework

    The layers, the automatic differentiation and the optimiser belong to
    the framework; the loops below only call them. *)
Record Framework : Type := {
  Params : Type;       (* embedding table, convolution and linear weights *)
  Grads : Type;        (* the [.grad] buffers of the parameters *)
  OptState : Type;     (* the state of the optimiser *)
  Rng : Type;          (* the state of the random generator *)
  Feat : Type;         (* tensors between the layers *)
  embed : Params -> list (list nat) -> option Feat;
  convs : Params -> list (Feat -> option Feat);
  max_pool1d : Feat -> option Feat;
  cat : list Feat -> option Feat;
  (* [nn.Dropout] on a module in training mode *)
  dropout_train : Rng -> Feat -> Feat * Rng;
  fc : Params -> Feat -> option (list (list R));
  zero_grad : Grads -> Grads;
  (* [loss.backward()] for the loss of a forward pass in training mode
     that started from the given generator state *)
  backward : Grads -> Params -> Rng -> list (list nat) -> list Z -> Grads;
  Adam : Params -> R -> OptState;
  step : OptState -> Params -> Grads -> OptState * Params
}.

Section Loops.
Context {F : Framework}.

(** ** The classifier *)

Record Module : Type := {
  state_dict : Params F;
  grad : Grads F;
  training : bool
}.

Definition set_training (m : Module) (b : bool) : Module :=
  {| state_dict := state_dict m; grad := grad m; training := b |}.
Definition set_grad (m : Module) (g : Grads F) : Module :=
  {| state_dict := state_dict m; grad := g; training := training m |}.
Definition set_state_dict (m : Module) (w : Params F) : Module :=
  {| state_dict := w; grad := grad m; training := training m |}.

(** [m.train()] and [m.eval()]. *)
Definition train (m : Module) : Module := set_training m true.
Definition eval (m : Module) : Module := set_training m false.

(** [self.dropout(x)]: the identity unless the module is in training
    mode. *)
Definition dropout (m : Module) (gen : Rng F) (x : Feat F)
  : Feat F * Rng F :=
  if training m then dropout_train F gen x else (x, gen).

(** [TextCNN.forward]. *)
Definition forward (m : Module) (gen : Rng F) (x : list (list nat))
  : option (list (list R) * Rng F) :=
  emb_x <- embed F (state_dict m) x ;;
  con_x <- mapM (fun conv => conv emb_x) (convs F (state_dict m)) ;;
  pool_x <- mapM (max_pool1d F) con_x ;;
  fc_x <- cat F pool_x ;;
  let '(fc_x, gen) := dropout m gen fc_x in
  logit <- fc F (state_dict m) fc_x ;;
  Some (logit, gen).

(** ** [_valid] *)

(** The body of the loop over the batches; the state is [corrects],
    [test_loss] and the generator. *)
Definition valid_batch (m : Module) (device : option Device)
    (st : R * R * Rng F) (batch : Batch) : option (R * R * Rng F) :=
  let '(corrects, test_loss, gen) := st in
  let '(text, target) := (text batch, label batch) in
  let text := transpose text in
  let target := sub_ target 1 in
  let '(text, target) := (to text device, to target device) in
  '(logit, gen) <- forward m gen (data text) ;;
  loss <- cross_entropy logit (data target) ;;
  let test_loss := test_loss + loss in
  let result := map argmax logit in
  let corrects := corrects + INR (count_equal result (data target)) in
  Some (corrects, test_loss, gen).

(** The value returned, [(test_loss, accuracy)], with the module, the
    iterator and the generator as the call leaves them.  The division by
    the size of an empty dataset is an error. *)
Definition _valid (m : Module) (device : option Device)
    (test_itr : Iterator) (gen : Rng F)
  : option (R * R * (Module * Iterator * Rng F)) :=
  let m := eval m in
  let '(batches, test_itr) := iterate test_itr in
  '(corrects, test_loss, gen) <-
    foldM (valid_batch m device) batches (0, 0, gen) ;;
  let size := dataset_len test_itr in
  if Nat.eqb size 0 then None
  else
    let test_loss := test_loss / INR size in
    let accuracy := 100 * corrects / INR size in
    Some (test_loss, accuracy, (m, test_itr, gen)).

(** ** [_train] *)

Definition train_batch (device : option Device)
    (st : R * R * (Module * OptState F * Rng F)) (batch : Batch)
  : option (R * R * (Module * OptState F * Rng F)) :=
  let '(corrects, train_loss, (m, optimizer, gen0)) := st in
  let '(text, target) := (text batch, label batch) in
  let text := transpose text in
  let target := sub_ target 1 in
  let '(text, target) := (to text device, to target device) in
  let m := set_grad m (zero_grad F (grad m)) in
  '(logit, gen) <- forward m gen0 (data text) ;;
  loss <- cross_entropy logit (data target) ;;
  let m :=
    set_grad m
      (backward F (grad m) (state_dict m) gen0 (data text) (data target)) in
  let '(optimizer, w) := step F optimizer (state_dict m) (grad m) in
  let m := set_state_dict m w in
  let train_loss := train_loss + loss in
  let result := map argmax logit in
  let corrects := corrects + INR (count_equal result (data target)) in
  Some (corrects, train_loss, (m, optimizer, gen)).

Definition _train (m : Module) (device : option Device)
    (train_itr : Iterator) (optimizer : OptState F)
    (epoch max_epoch : nat) (gen : Rng F)
  : option (R * R * (Module * OptState F * Iterator * Rng F)) :=
  let m := train m in
  let '(batches, train_itr) := iterate train_itr in
  '(corrects, train_loss, (m, optimizer, gen)) <-
    foldM (train_batch device) batches (0, 0, (m, optimizer, gen)) ;;
  let size := dataset_len train_itr in
  if Nat.eqb size 0 then None
  else
    let train_loss := train_loss / INR size in
    let accuracy := 100 * corrects / INR size in
    Some (train_loss, accuracy, (m, optimizer, train_itr, gen)).

(** The forward pass without dropout, as a function of the parameters
and the batch. *)
Definition logits (w : Params F) (x : list (list nat))
  : option (list (list R)) :=
  emb_x <- embed F w x ;;
  con_x <- mapM (fun conv => conv emb_x) (convs F w) ;;
  pool_x <- mapM (max_pool1d F) con_x ;;
  fc_x <- cat F pool_x ;;
  fc F w fc_x.

(** What one batch adds to [corrects] and to the running loss, given the
logits of the batch. *)
Definition score (logit : list (list R)) (label : list nat)
  : option (nat * R) :=
  let target := map (fun l => (Z.of_nat l - 1)%Z) label in
  loss <- cross_entropy logit target ;;
  Some (count_equal (map argmax logit) target, loss).

(** The evaluation of a list of batches with fixed parameters. *)
Definition measure_batch (w : Params F) (st : R * R) (batch : Batch)
  : option (R * R) :=
  logit <- logits w (data (transpose (text batch))) ;;
  '(k, loss) <- score logit (data (label batch)) ;;
  Some (fst st + INR k, snd st + loss).

(** The number of examples in a list of batches; an iterator covers its
dataset when the batches of the coming pass hold as many examples as the
dataset. *)
Definition examples (bs : list Batch) : nat :=
  fold_right (fun b n => (length (data (label b)) + n)%nat) O bs.

Definition covers (itr : Iterator) : Prop :=
  examples (pass itr (passes itr)) = dataset_len itr.

(** The average that the specification describes: the total of the
losses of the examples divided by the number of examples. *)
Definition mean_example_loss (losses : list R) : R :=
  Rsum losses / INR (length losses).

(** ** [metric] *)

(** [cuda_is_available] is what [torch.cuda.is_available()] answers on
    the machine; [vocab] and the extra arguments are not used. *)
Definition metric {V : Type} (cuda_is_available : bool) (model : Module)
    (test_iter : Iterator) (vocab : V) (gen : Rng F)
  : option (R * R * (Module * Iterator * Rng F)) :=
  let device := _get_device cuda_is_available in
  _valid model device test_iter gen.

(** ** [fit] *)

(** [optim.Adam(params, lr=lr)]: the constructor compares [lr] with 0.0
    and refuses a negative one. *)
Definition optim_Adam (params : Params F) (lr : value)
  : result (OptState F) :=
  match lr with
  | Int n => if (n <? 0)%Z then Raise ValueError
             else Ok (Adam F params (IZR n))
  | Float x => if Rlt_dec x 0 then Raise ValueError
               else Ok (Adam F params x)
  | Str _ | Other => Raise TypeError
  end.

(** The files: whether [open(path, 'wb')] succeeds at a path (the
    directory of the path is there and can be written to), what the file
    at a path holds, and the writes made, the last one first. *)
Record Files : Type := {
  can_open : string -> bool;
  file : string -> option (Params F);
  saved : list (string * Params F)
}.

Definition write (fs : Files) (obj : Params F) (path : string) : Files :=
  {| can_open := can_open fs;
     file := fun p => if String.eqb p path then Some obj else file fs p;
     saved := (path, obj) :: saved fs |}.

(** [torch.save(obj, path)]: the file at [path] is replaced; when the
    path cannot be opened the call raises and nothing is written.  (A
    write that fails half-way, as on a full disk, is left out.) *)
Definition torch_save (fs : Files) (obj : Params F) (path : string)
  : result Files :=
  if can_open fs path then Ok (write fs obj path) else Raise OSError.

(** The variables of [fit] that live across the epochs, the objects it
    mutates, and the files. *)
Record FitState : Type := {
  model : Module;
  optimizer : OptState F;
  train_iter : Iterator;
  valid_iter : Iterator;
  gen : Rng F;
  best_test_acc : R;
  files : Files
}.

(** A turn of the loop of [fit] that reached its end: the four numbers
    printed and appended to the lists, and the state that the turn
    leaves. *)
Record Epoch : Type := {
  epoch : nat;
  tr_loss : R;
  tr_acc : R;
  ts_loss : R;
  ts_acc : R;
  after : FitState
}.

(** One turn of the loop.  The exceptions come before the write or from
    the write itself: a turn that raises has written nothing. *)
Definition one_epoch (device : option Device) (out_pars : dict)
    (max_epoch : nat) (st : FitState) (epoch : nat) : result Epoch :=
  '(tr_loss, tr_acc, (model, optimizer, train_iter, gen)) <~
    raising (_train (model st) device (train_iter st) (optimizer st)
               epoch max_epoch (gen st)) ;;
  '(ts_loss, ts_acc, (model, valid_iter, gen)) <~
    raising (_valid model device (valid_iter st) gen) ;;
  '(best_test_acc, files) <~
    (if Rlt_dec (best_test_acc st) ts_acc then
       let best_test_acc := ts_acc in
       dir <~ getitem out_pars "checkpointdir" ;;
       path <~ join dir "best_accuracy" ;;
       files <~ torch_save (files st) (state_dict model) path ;;
       Ok (best_test_acc, files)
     else Ok (best_test_acc st, files st)) ;;
  Ok {| epoch := epoch; tr_loss := tr_loss; tr_acc := tr_acc;
        ts_loss := ts_loss; ts_acc := ts_acc;
        after := {| model := model; optimizer := optimizer;
                    train_iter := train_iter; valid_iter := valid_iter;
                    gen := gen; best_test_acc := best_test_acc;
                    files := files |} |}.

(** A run of [fit]: the turns of the loop that reached their end, the
    files as the run leaves them, and the exception that ended the run,
    if one did.  (What an exception leaves of the model, the optimiser
    and the iterators is not kept.) *)
Record Run : Type := {
  history : list Epoch;
  files_left : Files;
  raised : option exn
}.

(** The loop over [range(1, epochs + 1)]. *)
Fixpoint epochs_loop (device : option Device) (out_pars : dict)
    (max_epoch : nat) (todo : list nat) (st : FitState) : Run :=
  match todo with
  | [] => {| history := []; files_left := files st; raised := None |}
  | epoch :: todo' =>
      match one_epoch device out_pars max_epoch st epoch with
      | Raise e =>
          {| history := []; files_left := files st; raised := Some e |}
      | Ok ep =>
          let run := epochs_loop device out_pars max_epoch todo' (after ep) in
          {| history := ep :: history run; files_left := files_left run;
             raised := raised run |}
      end
  end.

Definition fit {V : Type} (cuda_is_available : bool) (model : Module)
    (train_iter valid_iter : Iterator) (vocab : V)
    (compute_pars out_pars : dict) (gen : Rng F) (files : Files) : Run :=
  let stop e := {| history := []; files_left := files; raised := Some e |} in
  match getitem compute_pars "learning_rate" with
  | Raise e => stop e
  | Ok lr =>
  match getitem compute_pars "epochs" with
  | Raise e => stop e
  | Ok epochs =>
  let device := _get_device cuda_is_available in
  let best_test_acc := -1 in
  match optim_Adam (state_dict model) lr with
  | Raise e => stop e
  | Ok optimizer =>
  match epochs with
  | Int n =>
      (* range(1, epochs + 1) *)
      epochs_loop device out_pars (Z.to_nat n) (seq 1 (Z.to_nat n))
        {| model := model; optimizer := optimizer; train_iter := train_iter;
           valid_iter := valid_iter; gen := gen;
           best_test_acc := best_test_acc; files := files |}
  | Float _ | Str _ | Other => stop TypeError
  end end end end.

End Loops.

Arguments Module F : clear implicits.
Arguments Files F : clear implicits.
Arguments Epoch F : clear implicits.
Arguments FitState F : clear implicits.
Arguments Run F : clear implicits.

End Torch.

(* ====================================================================== *)
(** * The arithmetic of the machine *)
(* ====================================================================== *)

(** The two loops report a loss and an accuracy that the machine computes
    in floating point: the running loss is a Python [float] (binary64),
    the count of correct predictions and the accuracy are scalars of the
    default tensor type (binary32).  This module gives that arithmetic,
    rounding included, and the two loops over it.  The scores of the
    classifier and the cross-entropy are left to the framework. *)

Module Machine.

Local Open Scope Q_scope.

(** A value of a binary floating-point format: a NaN, an infinity, or a
    rational number.  The sign of a zero is not kept; no divisor below is
    a zero. *)
Inductive float : Type :=
| NaN
| Inf (negative : bool)
| Num (q : Q).

(** A format: the bits of the significand and the bound of the
    exponent. *)
Record format : Type := { prec : Z; emax : Z }.

Definition binary32 : format := {| prec := 24; emax := 128 |}.
Definition binary64 : format := {| prec := 53; emax := 1024 |}.

(** The exponent of the smallest subnormal number. *)
Definition emin (fmt : format) : Z := (3 - emax fmt - prec fmt)%Z.

Definition pow2 (e : Z) : Q := 2 ^ e.

(** The integer part of the binary logarithm of a positive rational. *)
Definition ilog2 (q : Q) : Z :=
  let l := (Z.log2 (Qnum q) - Z.log2 (Z.pos (Qden q)))%Z in
  if Qle_bool (pow2 l) q then l else (l - 1)%Z.

(** A positive rational rounded to the nearest number of the format, a
    tie to the one with an even significand; beyond the largest number
    of the format the result is the infinity. *)
Definition round_pos (fmt : format) (q : Q) : float :=
  let e := Z.max (ilog2 q - prec fmt + 1) (emin fmt) in
  let m := Split.round_half_even (q / pow2 e) in
  let r := inject_Z m * pow2 e in
  if Qle_bool (pow2 (emax fmt)) r then Inf false else Num (Qred r).

Definition opp (x : float) : float :=
  match x with
  | NaN => NaN
  | Inf s => Inf (negb s)
  | Num q => Num (- q)
  end.

Definition round (fmt : format) (q : Q) : float :=
  match q ?= 0 with
  | Eq => Num 0
  | Gt => round_pos fmt q
  | Lt => opp (round_pos fmt (- q))
  end.

Definition negative (q : Q) : bool := negb (Qle_bool 0 q).

(** The operations of IEEE 754: the exact result, rounded. *)
Definition add (fmt : format) (x y : float) : float :=
  match x, y with
  | NaN, _ | _, NaN => NaN
  | Inf a, Inf b => if Bool.eqb a b then Inf a else NaN
  | Inf a, Num _ | Num _, Inf a => Inf a
  | Num a, Num b => round fmt (a + b)
  end.

Definition mul (fmt : format) (x y : float) : float :=
  match x, y with
  | NaN, _ | _, NaN => NaN
  | Inf a, Inf b => Inf (xorb a b)
  | Inf a, Num q | Num q, Inf a =>
      if Qeq_bool q 0 then NaN else Inf (xorb a (negative q))
  | Num a, Num b => round fmt (a * b)
  end.

Definition div (fmt : format) (x y : float) : float :=
  match x, y with
  | NaN, _ | _, NaN => NaN
  | Inf _, Inf _ => NaN
  | Inf a, Num q => Inf (xorb a (negative q))
  | Num _, Inf _ => Num 0
  | Num a, Num b =>
      if Qeq_bool b 0 then (if Qeq_bool a 0 then NaN else Inf (negative a))
      else round fmt (a / b)
  end.

(** An integer converted to the format. *)
Definition of_Z (fmt : format) (z : Z) : float := round fmt (inject_Z z).

(** The classifier, the loss and the optimiser as the loops call them.
    The scores of a batch are a binary32 tensor that the loops hand
    back to the framework without reading it. *)
Record Net : Type := {
  (* the parameters, their gradients, the optimiser and the generator *)
  State : Type;
  (* the scores of a batch, with the graph that [backward] walks *)
  Logit : Type;
  (* [m(text)], on a module in training mode or not *)
  forward : State -> bool -> list (list nat) -> option (Logit * State);
  (* [F.cross_entropy(logit, target)]: a binary32 number or a NaN *)
  cross_entropy : Logit -> list Z -> option float;
  (* [torch.max(logit, 1)[1]] *)
  torch_max : Logit -> list nat;
  zero_grad : State -> State;
  (* [loss.backward()] *)
  backward : State -> Logit -> list Z -> State;
  (* [optimizer.step()] *)
  step : State -> State
}.

Section Loops.
Context {N : Net}.

(** The body of the loop of [_valid]; the state is [corrects],
    [test_loss] and the module.  [loss.item()] is a Python float, and so
    is the running loss; the count of a batch, an integer tensor, is
    added to [corrects], which the first addition makes a binary32
    tensor.  [result.view(target.size())] raises when the sizes
    differ. *)
Definition valid_batch (device : option Torch.Device)
    (st : float * float * State N) (batch : Torch.Batch)
  : option (float * float * State N) :=
  let '(corrects, test_loss, m) := st in
  let '(text, target) := (Torch.text batch, Torch.label batch) in
  let text := Torch.transpose text in
  let target := Torch.sub_ target 1 in
  let '(text, target) := (Torch.to text device, Torch.to target device) in
  match forward N m false (Torch.data text) with
  | None => None
  | Some (logit, m) =>
      match cross_entropy N logit (Torch.data target) with
      | None => None
      | Some loss =>
          let test_loss := add binary64 test_loss loss in
          let result := torch_max N logit in
          if Nat.eqb (length result) (length (Torch.data target)) then
            let corrects :=
              add binary32 corrects
                (of_Z binary32
                   (Z.of_nat (Torch.count_equal result (Torch.data target))))
            in
            Some (corrects, test_loss, m)
          else None
      end
  end.

(** [_valid]: the value returned, [(test_loss, accuracy)], with the
    module and the iterator as the call leaves them.  [m.eval()] is the
    [false] that [forward] is given.  The division of a Python number by
    the integer 0 raises. *)
Definition _valid (m : State N) (device : option Torch.Device)
    (test_itr : Torch.Iterator)
  : option (float * float * (State N * Torch.Iterator)) :=
  let '(batches, test_itr) := Torch.iterate test_itr in
  match Torch.foldM (valid_batch device) batches (Num 0, Num 0, m) with
  | None => None
  | Some (corrects, test_loss, m) =>
      let size := Torch.dataset_len test_itr in
      if Nat.eqb size 0 then None
      else
        let test_loss :=
          div binary64 test_loss (of_Z binary64 (Z.of_nat size)) in
        let accuracy :=
          div binary32 (mul binary32 (Num 100) corrects)
            (of_Z binary32 (Z.of_nat size)) in
        Some (test_loss, accuracy, (m, test_itr))
  end.

(** The body of the loop of [_train]. *)
Definition train_batch (device : option Torch.Device)
    (st : float * float * State N) (batch : Torch.Batch)
  : option (float * float * State N) :=
  let '(corrects, train_loss, m) := st in
  let '(text, target) := (Torch.text batch, Torch.label batch) in
  let text := Torch.transpose text in
  let target := Torch.sub_ target 1 in
  let '(text, target) := (Torch.to text device, Torch.to target device) in
  let m := zero_grad N m in
  match forward N m true (Torch.data text) with
  | None => None
  | Some (logit, m) =>
      match cross_entropy N logit (Torch.data target) with
      | None => None
      | Some loss =>
          let m := backward N m logit (Torch.data target) in
          let m := step N m in
          let train_loss := add binary64 train_loss loss in
          let result := torch_max N logit in
          if Nat.eqb (length result) (length (Torch.data target)) then
            let corrects :=
              add binary32 corrects
                (of_Z binary32
                   (Z.of_nat (Torch.count_equal result (Torch.data target))))
            in
            Some (corrects, train_loss, m)
          else None
      end
  end.

(** [_train]; [m.train()] is the [true] that [forward] is given. *)
Definition _train (m : State N) (device : option Torch.Device)
    (train_itr : Torch.Iterator) (epoch max_epoch : nat)
  : option (float * float * (State N * Torch.Iterator)) :=
  let '(batches, train_itr) := Torch.iterate train_itr in
  match Torch.foldM (train_batch device) batches (Num 0, Num 0, m) with
  | None => None
  | Some (corrects, train_loss, m) =>
      let size := Torch.dataset_len train_itr in
      if Nat.eqb size 0 then None
      else
        let train_loss :=
          div binary64 train_loss (of_Z binary64 (Z.of_nat size)) in
        let accuracy :=
          div binary32 (mul binary32 (Num 100) corrects)
            (of_Z binary32 (Z.of_nat size)) in
        Some (train_loss, accuracy, (m, train_itr))
  end.

End Loops.

(** A value that is a number not below zero or the positive infinity,
    and one that may also be a NaN. *)
Definition nonneg (x : float) : Prop :=
  match x with
  | NaN => False
  | Inf s => s = false
  | Num q => 0 <= q
  end.

Definition nan_or_nonneg (x : float) : Prop :=
  match x with
  | NaN => True
  | Inf s => s = false
  | Num q => 0 <= q
  end.

(** The cross-entropy of the framework is the mean of logarithms of
    probabilities, negated: whatever it returns is not below zero, or it
    is a NaN. *)
Definition loss_not_negative (N : Net) : Prop :=
  forall logit target l,
    cross_entropy N logit target = Some l -> nan_or_nonneg l.

(** The formats whose numbers include the integers below [2 ^ prec]. *)
Definition fits (fmt : format) : Prop :=
  (0 < prec fmt)%Z /\ (emin fmt <= 0)%Z /\ (prec fmt <= emax fmt)%Z.

(** A value of the specification of IEEE 754 arithmetic in the Standard
    Library, as a value of this module. *)
Definition of_spec (x : SpecFloat.spec_float) : float :=
  match x with
  | SpecFloat.S754_zero _ => Num 0
  | SpecFloat.S754_infinity s => Inf s
  | SpecFloat.S754_nan => NaN
  | SpecFloat.S754_finite s m e =>
      Num (Qred ((if s then -1 else 1) * inject_Z (Z.pos m) * pow2 e))
  end.

Definition spec_of_Z (fmt : format) (z : Z) : SpecFloat.spec_float :=
  SpecFloat.binary_normalize (prec fmt) (emax fmt) z 0 false.

Definition eqb (x y : float) : bool :=
  match x, y with
  | NaN, NaN => true
  | Inf a, Inf b => Bool.eqb a b
  | Num a, Num b => Qeq_bool a b
  | _, _ => false
  end.

(** Whether, at the integers [a] and [b] scaled by powers of two, the
    conversion, the sum, the product and the quotient above are those of
    the Standard Library. *)
Definition agrees (fmt : format) (operands : (Z * Z) * (Z * Z)) : bool :=
  let '((a, i), (b, j)) := operands in
  let p := prec fmt in
  let e := emax fmt in
  let x := SpecFloat.SFldexp p e (spec_of_Z fmt a) i in
  let y := SpecFloat.SFldexp p e (spec_of_Z fmt b) j in
  let x' := of_spec x in
  let y' := of_spec y in
  (eqb (of_spec (spec_of_Z fmt a)) (of_Z fmt a)
   && eqb (of_spec (SpecFloat.SFadd p e x y)) (add fmt x' y')
   && eqb (of_spec (SpecFloat.SFmul p e x y)) (mul fmt x' y')
   && eqb (of_spec (SpecFloat.SFdiv p e x y)) (div fmt x' y'))%bool.

End Machine.

(* ====================================================================== *)
(** * Properties of the text normaliser *)
(* ====================================================================== *)

Module TextFacts.
Import Text.
Local Open Scope N_scope.
Local Open Scope list_scope.

Lemma clean_str_stages s : clean_str s = squash (punct (contr (step1 s))).
Proof. reflexivity. Qed.

(** *** Characters *)

Lemma is_space_bound c : is_space c = true -> (9 <= c <= 32) \/ 133 <= c.
Proof.
  unfold is_space, between. intros H.
  rewrite ?orb_true_iff, ?andb_true_iff, ?N.leb_le, ?N.eqb_eq in H. lia.
Qed.

Lemma kept_bound c : kept c = true -> 33 <= c <= 122.
Proof.
  unfold kept, is_upper, is_lower, is_digit, between, one_of. simpl.
  intros H.
  rewrite ?orb_true_iff, ?andb_true_iff, ?N.leb_le, ?N.eqb_eq in H. lia.
Qed.

Lemma is_space_space : is_space space = true.
Proof. reflexivity. Qed.

(** *** [starts_with] *)

Lemma starts_with_app p t : starts_with p (p ++ t) = true.
Proof.
  induction p as [|a p IH]; simpl; [reflexivity|].
  now rewrite N.eqb_refl.
Qed.

Lemma starts_with_inv p s :
  starts_with p s = true -> exists t, s = p ++ t.
Proof.
  revert s. induction p as [|a p IH]; intros s H.
  - now exists s.
  - destruct s as [|b s]; simpl in H; [discriminate|].
    apply andb_true_iff in H. destruct H as [Hab H].
    apply N.eqb_eq in Hab. subst b.
    destruct (IH _ H) as [t ->]. now exists t.
Qed.

(** *** Unfolding [re_sub_lit] *)

Lemma sub_from_skipn k p r s : sub_from k p r s = re_sub_lit p r (skipn k s).
Proof.
  revert k. induction s as [|c s IH]; intros k.
  - now destruct k.
  - destruct k as [|k]; [reflexivity|]. simpl. apply IH.
Qed.

Lemma re_sub_lit_match p r t :
  p <> [] -> re_sub_lit p r (p ++ t) = r ++ re_sub_lit p r t.
Proof.
  destruct p as [|a p]; [congruence|]. intros _.
  unfold re_sub_lit at 1.
  change ((a :: p) ++ t) with (a :: (p ++ t)).
  cbn [sub_from].
  change (a :: p ++ t) with ((a :: p) ++ t).
  rewrite starts_with_app. rewrite sub_from_skipn.
  cbn [length]. rewrite Nat.sub_succ, Nat.sub_0_r.
  now rewrite skipn_app, skipn_all, Nat.sub_diag.
Qed.

Lemma re_sub_lit_skip p r c s :
  starts_with p (c :: s) = false ->
  re_sub_lit p r (c :: s) = c :: re_sub_lit p r s.
Proof.
  intros H. unfold re_sub_lit. cbn [sub_from]. now rewrite H.
Qed.

(** Induction along the scan of [re_sub_lit]. *)
Lemma scan_ind (p : text) (P : text -> Prop) :
  p <> [] ->
  P [] ->
  (forall t, P t -> P (p ++ t)) ->
  (forall c s, starts_with p (c :: s) = false -> P s -> P (c :: s)) ->
  forall s, P s.
Proof.
  intros Hp Hnil Hm Hs s.
  remember (length s) as n eqn:Hn.
  revert s Hn. induction n as [n IH] using lt_wf_ind. intros s Hn.
  destruct s as [|c s]; [exact Hnil|].
  destruct (starts_with p (c :: s)) eqn:E.
  - destruct (starts_with_inv _ _ E) as [t Ht]. rewrite Ht.
    apply Hm. apply (IH (length t)); [|reflexivity].
    subst n. rewrite Ht, length_app.
    destruct p; [congruence|simpl; lia].
  - apply Hs; [exact E|]. apply (IH (length s)); [|reflexivity].
    subst n. simpl. lia.
Qed.

(** *** Inserting spaces *)

Lemma Ins_refl s : Ins s s.
Proof. induction s; constructor; assumption. Qed.

Lemma Ins_app_l p s t : Ins s t -> Ins (p ++ s) (p ++ t).
Proof. intros H. induction p; simpl; [assumption|now constructor]. Qed.

Lemma Ins_sub p s : p <> [] -> Ins s (re_sub_lit p (space :: p) s).
Proof.
  intros Hp. pattern s. apply (scan_ind p); [exact Hp|constructor| |].
  - intros t IH. rewrite re_sub_lit_match by exact Hp.
    simpl. apply Ins_add. now apply Ins_app_l.
  - intros c t E IH. rewrite re_sub_lit_skip by exact E. now constructor.
Qed.

Lemma Ins_cons_inv c t s :
  Ins s (c :: t) ->
  (exists s', s = c :: s' /\ Ins s' t) \/ (c = space /\ Ins s t).
Proof.
  intros H. remember (c :: t) as u eqn:Hu.
  destruct H as [|d s t' H|s t' H]; inversion Hu; subst.
  - left. now exists s.
  - now right.
Qed.

Lemma Ins_app_inv a x s :
  Ins s (a ++ x) -> exists s1 s2, s = s1 ++ s2 /\ Ins s1 a /\ Ins s2 x.
Proof.
  revert s. induction a as [|c a IH]; intros s H.
  - exists [], s. repeat split; [constructor|exact H].
  - simpl in H. apply Ins_cons_inv in H.
    destruct H as [(s' & -> & H)|[-> H]].
    + destruct (IH _ H) as (s1 & s2 & -> & H1 & H2).
      exists (c :: s1), s2. repeat split; [now constructor|exact H2].
    + destruct (IH _ H) as (s1 & s2 & -> & H1 & H2).
      exists s1, s2. repeat split; [now constructor|exact H2].
Qed.

Lemma Ins_prefix x b s :
  no_space x -> Ins s (x ++ b) -> exists b0, s = x ++ b0 /\ Ins b0 b.
Proof.
  intros Hx. revert s. induction Hx as [|d x Hd Hx IH]; intros s H.
  - now exists s.
  - simpl in H. apply Ins_cons_inv in H.
    destruct H as [(s' & -> & H)|[-> H]]; [|congruence].
    destruct (IH _ H) as (b0 & -> & Hb). now exists b0.
Qed.

Lemma ends_sp_cons c a : ends_sp a -> ends_sp (c :: a).
Proof. intros [a' ->]. now exists (c :: a'). Qed.

Lemma Ins_nil_ends t : Ins [] t -> ends_sp (space :: t).
Proof.
  remember [] as s eqn:Hs. intros H.
  induction H; try discriminate.
  - now exists [].
  - now apply ends_sp_cons, IHIns.
Qed.

Lemma Ins_ends_sp s a : Ins s a -> ends_sp s -> ends_sp a.
Proof.
  intros H. induction H as [|c s t H IH|s t H IH]; intros [s1 Hs].
  - now destruct s1.
  - destruct s1 as [|c1 s1]; simpl in Hs; inversion Hs; subst.
    + now apply Ins_nil_ends.
    + apply ends_sp_cons, IH. now exists s1.
  - apply ends_sp_cons, IH. now exists s1.
Qed.

Lemma Ins_Good p s t : no_space p -> Ins s t -> Good p s -> Good p t.
Proof.
  intros Hp H HG a b ->.
  destruct (Ins_app_inv _ _ _ H) as (s1 & s2 & -> & H1 & H2).
  destruct (Ins_prefix _ _ _ Hp H2) as (b0 & -> & _).
  apply (Ins_ends_sp _ _ H1). now apply (HG s1 b0).
Qed.

Lemma Ins_chars s t : Ins s t -> forall c, In c t -> In c s \/ c = space.
Proof.
  intros H. induction H as [|d s t H IH|s t H IH]; intros c Hc.
  - destruct Hc.
  - destruct Hc as [->|Hc]; [left; now left|].
    destruct (IH _ Hc); [left; now right|now right].
  - destruct Hc as [<-|Hc]; [now right|now apply IH].
Qed.

(** *** Occurrences *)

Lemma starts_with_space p b :
  p <> [] -> no_space p -> starts_with p (space :: b) = false.
Proof.
  intros Hp Hn. destruct (starts_with p (space :: b)) eqn:E; [|reflexivity].
  destruct (starts_with_inv _ _ E) as [t Ht].
  destruct p as [|c p]; [congruence|]. inversion Hn; subst.
  simpl in Ht. congruence.
Qed.

Lemma starts_with_before_space p a b :
  no_space p -> starts_with p (a ++ space :: b) = true ->
  starts_with p a = true.
Proof.
  intros Hp. revert a. induction Hp as [|c p Hc Hp IH]; intros a H.
  - reflexivity.
  - destruct a as [|d a]; simpl in H |- *.
    + apply andb_true_iff in H. destruct H as [H _].
      apply N.eqb_eq in H. congruence.
    + apply andb_true_iff in H. destruct H as [H1 H2].
      rewrite H1. simpl. now apply IH.
Qed.

(** A substitution with a pattern free of spaces works word by word. *)
Lemma re_sub_lit_local p r a b :
  p <> [] -> no_space p ->
  re_sub_lit p r (a ++ space :: b)
  = re_sub_lit p r a ++ space :: re_sub_lit p r b.
Proof.
  intros Hp Hn. pattern a. apply (scan_ind p); [exact Hp| | |].
  - simpl. rewrite re_sub_lit_skip; [reflexivity|].
    now apply starts_with_space.
  - intros t IH. rewrite <- app_assoc.
    rewrite !re_sub_lit_match by exact Hp. rewrite IH.
    now rewrite app_assoc.
  - intros c t E IH. simpl.
    rewrite (re_sub_lit_skip _ _ _ _ E). rewrite re_sub_lit_skip.
    + now rewrite IH.
    + destruct (starts_with p (c :: t ++ space :: b)) eqn:E'; [|reflexivity].
      apply (starts_with_before_space p (c :: t) b Hn) in E'. congruence.
Qed.

Lemma re_sub_lit_absent p r s :
  p <> [] -> ~ occurs p s -> re_sub_lit p r s = s.
Proof.
  intros Hp. pattern s. apply (scan_ind p); [exact Hp|reflexivity| |].
  - intros t _ H. exfalso. apply H. now exists [], t.
  - intros c t E IH H. rewrite re_sub_lit_skip by exact E.
    f_equal. apply IH. intros (a & b & ->). apply H.
    now exists (c :: a), b.
Qed.

(** After the substitution that puts a space before [p], every occurrence of
    [p] follows a space. *)
Lemma Good_sub p s :
  p <> [] -> no_space p -> border_free p ->
  Good p (re_sub_lit p (space :: p) s).
Proof.
  intros Hp Hn Hb. pattern s. apply (scan_ind p); [exact Hp| | |].
  - intros a b H. simpl in H. symmetry in H.
    apply app_eq_nil in H. destruct H as [_ H].
    apply app_eq_nil in H. destruct H as [H _]. congruence.
  - intros t IH a b H. rewrite re_sub_lit_match in H by exact Hp.
    destruct a as [|c a].
    + simpl in H. destruct p as [|c p]; [congruence|].
      simpl in H. symmetry in H. inversion H; subst.
      inversion Hn; subst. congruence.
    + simpl in H. injection H as Hc H. subst c.
      destruct a as [|c a]; [now exists []|]. apply ends_sp_cons.
      apply app_eq_app in H. destruct H as [l [[H1 H2]|[H1 H2]]].
      * (* [p = (c :: a) ++ l] *)
        exfalso. destruct l as [|d l].
        -- rewrite app_nil_r in H1. simpl in H2.
           destruct (IH [] b (eq_sym H2)) as [a' Ha']. now destruct a'.
        -- symmetry in H2. apply app_eq_app in H2.
           destruct H2 as [l2 [[E1 E2]|[E1 E2]]].
           ++ apply (f_equal (@length _)) in E1.
              apply (f_equal (@length _)) in H1.
              rewrite !length_app in *. simpl in *. lia.
           ++ destruct (Hb (c :: a) (d :: l) l2 H1 E1); discriminate.
      * rewrite H1. apply (IH l b) in H2. destruct H2 as [a' ->].
        exists (p ++ a'). now rewrite app_assoc.
  - intros c t E IH a b H. rewrite re_sub_lit_skip in H by exact E.
    destruct a as [|d a].
    + exfalso. simpl in H.
      assert (HI : Ins (c :: t) (p ++ b)).
      { rewrite <- H. constructor. now apply Ins_sub. }
      destruct (Ins_prefix _ _ _ Hn HI) as (b0 & Hb0 & _).
      rewrite Hb0, starts_with_app in E. discriminate.
    + simpl in H. inversion H; subst d.
      apply ends_sp_cons. now apply (IH a b).
Qed.

(** *** Words *)

Lemma split_sp_nonnil s : split_sp s <> [].
Proof.
  destruct s as [|c s]; simpl; [discriminate|].
  destruct (c =? space); [discriminate|].
  destruct (split_sp s); discriminate.
Qed.

Lemma split_sp_app a b :
  split_sp (a ++ space :: b) = split_sp a ++ split_sp b.
Proof.
  induction a as [|c a IH]; simpl; [reflexivity|].
  destruct (c =? space); rewrite IH; [reflexivity|].
  destruct (split_sp a) eqn:E; [|reflexivity].
  now destruct (split_sp_nonnil a).
Qed.

Lemma tokens_app a b : tokens (a ++ space :: b) = tokens a ++ tokens b.
Proof. unfold tokens. now rewrite split_sp_app, filter_app. Qed.

Lemma tokens_space s : tokens (space :: s) = tokens s.
Proof. reflexivity. Qed.

Lemma split_sp_word w : no_space w -> split_sp w = [w].
Proof.
  induction 1 as [|c w Hc Hw IH]; simpl; [reflexivity|].
  destruct (N.eqb_spec c space); [contradiction|]. now rewrite IH.
Qed.

Lemma tokens_word w : w <> [] -> no_space w -> tokens w = [w].
Proof.
  intros Hne Hw. unfold tokens. rewrite split_sp_word by exact Hw.
  destruct w; [congruence|reflexivity].
Qed.

Lemma tokens_unwords ws : tokens (unwords ws) = flat_map tokens ws.
Proof.
  induction ws as [|w ws IH]; [reflexivity|].
  destruct ws as [|w' ws].
  - simpl. now rewrite app_nil_r.
  - change (unwords (w :: w' :: ws)) with (w ++ space :: unwords (w' :: ws)).
    rewrite tokens_app, IH. reflexivity.
Qed.

Lemma split_sp_no_space s : Forall no_space (split_sp s).
Proof.
  induction s as [|c s IH]; simpl.
  - repeat constructor.
  - destruct (N.eqb_spec c space) as [->|Hc].
    + constructor; [constructor|exact IH].
    + destruct (split_sp s) as [|w ws].
      * repeat constructor. exact Hc.
      * inversion IH; subst. constructor; [now constructor|assumption].
Qed.

Lemma tokens_spec s w : In w (tokens s) -> w <> [] /\ no_space w.
Proof.
  unfold tokens. intros H. apply filter_In in H. destruct H as [H Hne].
  split; [now destruct w|].
  exact (proj1 (Forall_forall _ _) (split_sp_no_space s) _ H).
Qed.

Lemma split_sp_sub s :
  (forall w ws, split_sp s = w :: ws -> exists b, s = w ++ b)
  /\ (forall w, In w (split_sp s) -> exists a b, s = a ++ w ++ b).
Proof.
  induction s as [|c s [IH1 IH2]]; simpl.
  - split.
    + intros w ws H. injection H as <- _. now exists [].
    + intros w [<-|[]]. now exists [], [].
  - destruct (c =? space).
    + split.
      * intros w ws H. injection H as <- _. now exists (c :: s).
      * intros w [<-|H]; [now exists [], (c :: s)|].
        destruct (IH2 _ H) as (a & b & ->). now exists (c :: a), b.
    + destruct (split_sp s) as [|w0 ws0] eqn:E.
      * now destruct (split_sp_nonnil s).
      * destruct (IH1 _ _ eq_refl) as [b0 Hb0]. split.
        -- intros w ws H. injection H as <- _. exists b0. now rewrite Hb0.
        -- intros w [<-|H].
           ++ exists [], b0. now rewrite Hb0.
           ++ destruct (IH2 w (or_intror H)) as (a & b & ->).
              now exists (c :: a), b.
Qed.

Lemma tokens_sub s w : In w (tokens s) -> exists a b, s = a ++ w ++ b.
Proof.
  unfold tokens. intros H. apply filter_In in H.
  now apply (proj2 (split_sp_sub s)).
Qed.

Lemma unwords_cons w ws :
  unwords (w :: ws) = w ++ match ws with [] => [] | _ => space :: unwords ws end.
Proof. destruct ws; simpl; [now rewrite app_nil_r|reflexivity]. Qed.

Lemma unwords_tokens_cons c s :
  c <> space -> unwords (tokens (c :: s)) = c :: after_word s.
Proof.
  intros Hc. unfold tokens at 1. simpl split_sp.
  destruct (N.eqb_spec c space) as [|_]; [contradiction|].
  destruct s as [|d s]; [reflexivity|].
  unfold after_word, tokens.
  destruct (split_sp (d :: s)) as [|w ws] eqn:E.
  { now destruct (split_sp_nonnil (d :: s)). }
  simpl in E. destruct (N.eqb_spec d space) as [->|Hd].
  - injection E as <- <-. simpl filter.
    destruct (filter nonempty (split_sp s)) as [|w1 T] eqn:ET; [reflexivity|].
    assert (Hw1 : w1 <> []).
    { assert (Hin : In w1 (tokens s)) by (unfold tokens; rewrite ET; now left).
      now apply tokens_spec in Hin. }
    rewrite unwords_cons. simpl.
    destruct w1 as [|x w1]; [congruence|]. now destruct T.
  - destruct (split_sp s) as [|w0 ws0]; injection E as <- <-; simpl;
      [reflexivity|now destruct (filter nonempty ws0)].
Qed.

(** *** [strip] *)

Lemma lstrip_snoc y c :
  lstrip (y ++ [c])
  = match lstrip y with [] => lstrip [c] | _ :: _ => lstrip y ++ [c] end.
Proof.
  induction y as [|d y IH]; [reflexivity|].
  simpl. destruct (is_space d); [exact IH|reflexivity].
Qed.

Lemma rstrip_cons c x :
  rstrip (c :: x)
  = match rstrip x with
    | [] => if is_space c then [] else [c]
    | _ :: _ => c :: rstrip x
    end.
Proof.
  unfold rstrip. simpl rev. rewrite lstrip_snoc.
  destruct (lstrip (rev x)) as [|d l].
  - simpl. now destruct (is_space c).
  - rewrite rev_app_distr. simpl.
    destruct (rev l ++ [d]) eqn:E; [|reflexivity].
    now destruct (rev l).
Qed.

Lemma strip_comm x : rstrip (lstrip x) = lstrip (rstrip x).
Proof.
  induction x as [|c x IH]; [reflexivity|].
  rewrite rstrip_cons. simpl. destruct (is_space c) eqn:E.
  - rewrite IH. destruct (rstrip x) as [|d r]; [reflexivity|].
    simpl. now rewrite E.
  - rewrite rstrip_cons, E.
    destruct (rstrip x); simpl; now rewrite E.
Qed.

(** *** The last two stages give the words joined by single spaces *)

Lemma only_sp_not_space c : 
  (is_space c = true -> c = space) -> c <> space -> is_space c = false.
Proof. intros H Hc. destruct (is_space c); [now destruct Hc; apply H|reflexivity]. Qed.

Lemma squash_inv s :
  only_sp s ->
  rstrip (spaces_from true [space] s) = unwords (tokens s)
  /\ rstrip (spaces_from false [space] s) = after_word s.
Proof.
  induction s as [|c s IH]; intros Hs; [split; reflexivity|].
  inversion Hs as [|c' s' Hc Hs']; subst.
  destruct (IH Hs') as [IHt IHf].
  destruct (N.eqb_spec c space) as [->|Hne].
  - split.
    + cbn [spaces_from]. rewrite is_space_space, tokens_space. exact IHt.
    + cbn [spaces_from]. rewrite is_space_space.
      destruct s as [|d s]; [reflexivity|].
      unfold after_word. rewrite N.eqb_refl, tokens_space.
      destruct (is_space d) eqn:Ed.
      * change ([space] ++ spaces_from true [space] (d :: s))
          with (space :: spaces_from true [space] (d :: s)).
        rewrite rstrip_cons, IHt, is_space_space.
        now destruct (unwords (tokens (d :: s))).
      * rewrite rstrip_cons, IHf, is_space_space.
        assert (Hd : d <> space) by (intros ->; discriminate).
        unfold after_word.
        destruct (N.eqb_spec d space); [contradiction|].
        now destruct (unwords (tokens (d :: s))).
  - pose proof (only_sp_not_space c Hc Hne) as Ec.
    assert (E : forall b, rstrip (spaces_from b [space] (c :: s))
                          = c :: after_word s).
    { intros b. cbn [spaces_from]. rewrite Ec.
      rewrite rstrip_cons, IHf, Ec. now destruct (after_word s). }
    split.
    + rewrite E. now rewrite unwords_tokens_cons.
    + rewrite E. unfold after_word at 2.
      destruct (N.eqb_spec c space); [contradiction|].
      now rewrite unwords_tokens_cons.
Qed.

Lemma lstrip_unwords s :
  only_sp s -> lstrip (unwords (tokens s)) = unwords (tokens s).
Proof.
  intros Hs. destruct (tokens s) as [|w T] eqn:E; [reflexivity|].
  assert (Hin : In w (tokens s)) by (rewrite E; now left).
  destruct (tokens_spec _ _ Hin) as [Hne Hw].
  destruct (tokens_sub _ _ Hin) as (a & b & Hab).
  destruct w as [|c w]; [congruence|].
  rewrite unwords_cons. simpl.
  assert (Ec : is_space c = false).
  { apply only_sp_not_space.
    - apply (proj1 (Forall_forall _ _) Hs). rewrite Hab.
      apply in_or_app. right. now left.
    - now inversion Hw. }
  now rewrite Ec.
Qed.

Lemma squash_words s : only_sp s -> squash s = unwords (tokens s).
Proof.
  intros Hs. unfold squash, strip, re_sub_spaces2.
  change (template " ") with [space].
  rewrite strip_comm, (proj2 (squash_inv s Hs)).
  unfold after_word. destruct s as [|c s]; [reflexivity|].
  destruct (c =? space).
  - destruct (unwords (tokens (c :: s))) as [|c0 t] eqn:E; [reflexivity|].
    change (lstrip (space :: c0 :: t)) with (lstrip (c0 :: t)).
    rewrite <- E. now apply lstrip_unwords.
  - now apply lstrip_unwords.
Qed.

(** *** The stages as maps and folds *)

Lemma step1_map s :
  step1 s = map (fun c => if kept c then c else space) s.
Proof.
  unfold step1, re_sub_class. induction s as [|c s IH]; [reflexivity|].
  simpl. rewrite IH. now destruct (kept c).
Qed.

Lemma contr_fold s : contr s = fold_left space_before contractions s.
Proof. reflexivity. Qed.

Lemma flat_map_flat_map {A B C} (f : A -> list B) (g : B -> list C) l :
  flat_map g (flat_map f l) = flat_map (fun x => flat_map g (f x)) l.
Proof.
  induction l as [|x l IH]; [reflexivity|].
  simpl. now rewrite flat_map_app, IH.
Qed.

Lemma re_sub_lit_single c r s :
  re_sub_lit [c] r s = flat_map (fun x => if x =? c then r else [x]) s.
Proof.
  unfold re_sub_lit. induction s as [|x s IH]; [reflexivity|].
  cbn [sub_from starts_with length Nat.sub flat_map].
  rewrite N.eqb_sym, andb_true_r.
  destruct (x =? c); now rewrite IH.
Qed.

Lemma punct_flat_map s : punct s = flat_map punct_char s.
Proof.
  unfold punct.
  change (str ",") with [44]. change (str "!") with [33].
  change (str "(") with [40]. change (str ")") with [41].
  change (str "?") with [63].
  rewrite !re_sub_lit_single, !flat_map_flat_map.
  apply flat_map_ext. intros c. unfold punct_char.
  destruct (N.eqb_spec c 44) as [->|H1]; [reflexivity|].
  destruct (N.eqb_spec c 33) as [->|H2]; [reflexivity|].
  destruct (N.eqb_spec c 40) as [->|H3]; [reflexivity|].
  destruct (N.eqb_spec c 41) as [->|H4]; [reflexivity|].
  destruct (N.eqb_spec c 63) as [->|H5]; [reflexivity|].
  simpl.
  repeat match goal with
         | H : c <> ?k |- context [c =? ?k] =>
             destruct (N.eqb_spec c k); [contradiction|]; simpl
         end.
  reflexivity.
Qed.

(** *** The contraction patterns *)

Lemma border_free_head c p : ~ In c p -> border_free (c :: p).
Proof.
  intros Hc a l l' H1 H2.
  destruct a as [|a0 a]; [now left|]. destruct l as [|l0 l]; [now right|].
  exfalso. simpl in H1, H2. injection H2 as -> _. injection H1 as _ H1.
  apply Hc. rewrite H1. apply in_or_app. right. now left.
Qed.

Lemma contractions_ok : Forall pattern_ok contractions.
Proof.
  unfold contractions.
  repeat (apply Forall_cons; [|]); [..|apply Forall_nil];
    (split; [discriminate|split];
     [repeat constructor; discriminate
     |apply border_free_head; simpl; intuition discriminate]).
Qed.

Lemma Ins_trans a b c : Ins a b -> Ins b c -> Ins a c.
Proof.
  intros Hab Hbc. revert a Hab.
  induction Hbc as [|d b c Hbc IH|b c Hbc IH]; intros a Hab.
  - exact Hab.
  - apply Ins_cons_inv in Hab. destruct Hab as [(a' & -> & H)|[-> H]].
    + constructor. now apply IH.
    + apply Ins_add. now apply IH.
  - apply Ins_add. now apply IH.
Qed.

Lemma fold_Ins pats s :
  Forall pattern_ok pats -> Ins s (fold_left space_before pats s).
Proof.
  intros Hok. revert s. induction Hok as [|p ps [Hp _] _ IH]; intros s; simpl.
  - apply Ins_refl.
  - eapply Ins_trans; [|apply IH]. now apply Ins_sub.
Qed.

Lemma fold_local pats a b :
  Forall pattern_ok pats ->
  fold_left space_before pats (a ++ space :: b)
  = fold_left space_before pats a ++ space :: fold_left space_before pats b.
Proof.
  intros Hok. revert a b.
  induction Hok as [|p ps (Hp & Hn & _) _ IH]; intros a b.
  - reflexivity.
  - simpl. unfold space_before at 2.
    rewrite re_sub_lit_local by assumption. apply IH.
Qed.

Lemma fold_Good pats s p :
  Forall pattern_ok pats -> In p pats ->
  Good p (fold_left space_before pats s).
Proof.
  intros Hok. revert s. induction Hok as [|q ps Hq Hps IH]; intros s Hin.
  - destruct Hin.
  - simpl. destruct Hin as [->|Hin]; [|now apply IH].
    destruct Hq as (Hp & Hn & Hb).
    apply (Ins_Good p (space_before s p)); [exact Hn|now apply fold_Ins|].
    now apply Good_sub.
Qed.

Lemma space_before_spaces p k v :
  p <> [] -> no_space p ->
  space_before (repeat space k ++ v) p = repeat space k ++ space_before v p.
Proof.
  intros Hp Hn. unfold space_before. induction k as [|k IH]; [reflexivity|].
  simpl. rewrite re_sub_lit_skip by now apply starts_with_space.
  now rewrite IH.
Qed.

Lemma space_before_head_only p v :
  p <> [] -> head_only p v ->
  space_before v p = v \/ space_before v p = space :: v.
Proof.
  intros Hp Hv. unfold space_before.
  destruct (starts_with p v) eqn:E.
  - right. destruct (starts_with_inv _ _ E) as [t ->].
    rewrite re_sub_lit_match by exact Hp.
    rewrite re_sub_lit_absent; [reflexivity|exact Hp|].
    intros (a & b & ->).
    assert (H : p ++ a = []) by (apply (Hv (p ++ a) b); now rewrite app_assoc).
    apply app_eq_nil in H. now destruct H.
  - left. apply re_sub_lit_absent; [exact Hp|].
    intros (a & b & ->). rewrite (Hv a b eq_refl) in E.
    simpl in E. now rewrite starts_with_app in E.
Qed.

Lemma fold_head_only pats v :
  Forall pattern_ok pats -> (forall p, In p pats -> head_only p v) ->
  exists k, fold_left space_before pats v = repeat space k ++ v.
Proof.
  intros Hok Hv.
  assert (G : forall k, exists k',
             fold_left space_before pats (repeat space k ++ v)
             = repeat space k' ++ v); [|exact (G 0%nat)].
  induction Hok as [|p ps (Hp & Hn & _) _ IH]; intros k.
  - now exists k.
  - simpl. rewrite space_before_spaces by assumption.
    destruct (space_before_head_only p v Hp (Hv p (or_introl eq_refl)))
      as [->| ->].
    + apply IH. intros q Hq. apply Hv. now right.
    + change (repeat space k ++ space :: v)
        with (repeat space k ++ [space] ++ v).
      rewrite app_assoc, <- repeat_cons.
      apply (IH (fun q Hq => Hv q (or_intror Hq)) (S k)).
Qed.

(** *** The words after the punctuation stage *)

Lemma punct_char_punct c :
  is_punct c = true ->
  exists X, In X punct_tokens /\ tokens X = [X]
            /\ punct_char c = space :: X ++ [space].
Proof.
  unfold is_punct, one_of, punct_char. simpl. intros H.
  destruct (N.eqb_spec c 44) as [E|_].
  { exists (str ","). simpl. auto. }
  destruct (N.eqb_spec c 33) as [E|_].
  { exists (str "!"). simpl. auto. }
  destruct (N.eqb_spec c 40) as [E|_].
  { exists (backslash :: str "("). simpl. auto 6. }
  destruct (N.eqb_spec c 41) as [E|_].
  { exists (backslash :: str ")"). simpl. auto 7. }
  destruct (N.eqb_spec c 63) as [E|_].
  { exists (backslash :: str "?"). simpl. auto 8. }
  discriminate.
Qed.

Lemma punct_char_other c : is_punct c = false -> punct_char c = [c].
Proof.
  unfold is_punct, one_of, punct_char. simpl. intros H.
  repeat match goal with
         | |- context [c =? ?k] => destruct (c =? k); [discriminate|]
         end.
  reflexivity.
Qed.

Lemma no_punct_sub u a v b : no_punct u -> u = a ++ v ++ b -> no_punct v.
Proof.
  intros Hu ->. apply Forall_app in Hu. destruct Hu as [_ Hu].
  apply Forall_app in Hu. now destruct Hu.
Qed.

Lemma flat_map_no_punct v : no_punct v -> flat_map punct_char v = v.
Proof.
  induction 1 as [|c v Hc Hv IH]; [reflexivity|].
  simpl. now rewrite (punct_char_other c Hc), IH.
Qed.

Lemma tokens_punct B : forall u v,
  no_punct u -> In v (tokens (u ++ flat_map punct_char B)) ->
  In v punct_tokens \/ (no_punct v /\ exists a b, u ++ B = a ++ v ++ b).
Proof.
  induction B as [|x B IH]; intros u v Hu Hv.
  - simpl in Hv. rewrite app_nil_r in Hv |- *. right.
    destruct (tokens_sub _ _ Hv) as (a & b & E).
    split; [exact (no_punct_sub u a v b Hu E)|now exists a, b].
  - simpl flat_map in Hv. destruct (is_punct x) eqn:Ex.
    + destruct (punct_char_punct x Ex) as (X & HX & HtX & EX).
      rewrite EX in Hv. simpl in Hv.
      rewrite <- app_assoc in Hv. simpl in Hv.
      rewrite !tokens_app, HtX in Hv.
      apply in_app_or in Hv. destruct Hv as [Hv|Hv].
      * right. destruct (tokens_sub _ _ Hv) as (a & b & E).
        split; [exact (no_punct_sub u a v b Hu E)|].
        exists a, (b ++ x :: B). rewrite E. now rewrite <- !app_assoc.
      * destruct Hv as [<-|Hv]; [now left|].
        destruct (IH [] v (Forall_nil _) Hv) as [H|[Hn (a & b & E)]];
          [now left|right].
        split; [exact Hn|]. exists (u ++ x :: a), b.
        simpl in E. rewrite E. now rewrite <- app_assoc.
    + rewrite (punct_char_other x Ex) in Hv.
      change (u ++ [x] ++ flat_map punct_char B)
        with (u ++ [x] ++ flat_map punct_char B) in Hv.
      rewrite app_assoc in Hv.
      destruct (IH (u ++ [x]) v) as [H|[Hn (a & b & E)]];
        [apply Forall_app; split; [exact Hu|now repeat constructor]
        |exact Hv|now left|right].
      split; [exact Hn|]. exists a, b. rewrite <- E.
      now rewrite <- app_assoc.
Qed.

(** *** Characters of the intermediate strings *)

Lemma step1_chars s c : In c (step1 s) -> kept c = true \/ c = space.
Proof.
  rewrite step1_map. intros H. apply in_map_iff in H.
  destruct H as (x & <- & _). destruct (kept x) eqn:E; auto.
Qed.

Lemma contr_Ins s : Ins s (contr s).
Proof. rewrite contr_fold. apply fold_Ins, contractions_ok. Qed.

Lemma contr_chars s c :
  In c (contr (step1 s)) -> kept c = true \/ c = space.
Proof.
  intros H. destruct (Ins_chars _ _ (contr_Ins (step1 s)) c H) as [H'|H'].
  - now apply step1_chars in H'.
  - now right.
Qed.

Lemma spaced_chars s c :
  In c (spaced s) -> kept c = true \/ c = space \/ c = backslash.
Proof.
  unfold spaced. rewrite punct_flat_map. intros H.
  apply in_flat_map in H. destruct H as (x & Hx & Hc).
  apply contr_chars in Hx. unfold punct_char in Hc.
  repeat match type of Hc with
         | context [x =? ?k] =>
             destruct (N.eqb_spec x k) as [->|_];
               [simpl in Hc; intuition (subst; auto)|]
         end.
  destruct Hc as [<-|[]]. destruct Hx; auto.
Qed.

Lemma spaced_only_sp s : only_sp (spaced s).
Proof.
  apply Forall_forall. intros c Hc Hsp.
  destruct (spaced_chars s c Hc) as [K|[->| ->]];
    [|reflexivity|discriminate].
  apply kept_bound in K. apply is_space_bound in Hsp. lia.
Qed.

Theorem clean_str_words s : clean_str s = unwords (words_of s).
Proof.
  rewrite clean_str_stages. apply squash_words, spaced_only_sp.
Qed.

(** *** The stages work word by word *)

Lemma spaced_local a b :
  spaced (a ++ space :: b) = spaced a ++ space :: spaced b.
Proof.
  unfold spaced. rewrite !step1_map, map_app. simpl map.
  change (if kept space then space else space) with space.
  rewrite <- !step1_map, !contr_fold.
  rewrite fold_local by apply contractions_ok.
  rewrite !punct_flat_map, flat_map_app. reflexivity.
Qed.

Lemma words_of_unwords ws : words_of (unwords ws) = flat_map words_of ws.
Proof.
  induction ws as [|w ws IH]; [reflexivity|].
  destruct ws as [|w' ws].
  - simpl. now rewrite app_nil_r.
  - change (unwords (w :: w' :: ws)) with (w ++ space :: unwords (w' :: ws)).
    unfold words_of at 1. rewrite spaced_local, tokens_app.
    fold (words_of w). fold (words_of (unwords (w' :: ws))).
    now rewrite IH.
Qed.

(** *** Every word of the result is a fixed point *)

Lemma ends_sp_no_space a x : ends_sp (a ++ x) -> no_space x -> x = [].
Proof.
  intros [a' E] Hx. destruct x as [|c x]; [reflexivity|exfalso].
  destruct (@exists_last _ (c :: x)) as (x0 & z & Hz); [discriminate|].
  rewrite Hz in E, Hx. rewrite app_assoc in E.
  apply app_inj_tail in E. destruct E as [_ ->].
  apply Forall_app in Hx. destruct Hx as [_ Hx].
  inversion Hx; congruence.
Qed.

Lemma kept_step1 v : Forall (fun c => kept c = true) v -> step1 v = v.
Proof.
  rewrite step1_map. induction 1 as [|c v Hc Hv IH]; [reflexivity|].
  simpl. now rewrite Hc, IH.
Qed.

Lemma flat_map_spaces k :
  flat_map punct_char (repeat space k) = repeat space k.
Proof. induction k as [|k IH]; [reflexivity|]. simpl. now rewrite IH. Qed.

Lemma tokens_spaces k v : tokens (repeat space k ++ v) = tokens v.
Proof. induction k as [|k IH]; [reflexivity|]. simpl. now rewrite tokens_space. Qed.

Lemma words_of_plain v :
  v <> [] -> no_space v -> no_punct v ->
  Forall (fun c => kept c = true) v ->
  (forall p, In p contractions -> head_only p v) ->
  words_of v = [v].
Proof.
  intros Hne Hsp Hpu Hk Hh. unfold words_of, spaced.
  rewrite (kept_step1 v Hk), contr_fold.
  destruct (fold_head_only contractions v contractions_ok Hh) as [k ->].
  rewrite punct_flat_map, flat_map_app, flat_map_spaces.
  rewrite (flat_map_no_punct v Hpu), tokens_spaces.
  now apply tokens_word.
Qed.

Lemma words_of_fixed s v : In v (words_of s) -> words_of v = [v].
Proof.
  intros Hv. destruct (tokens_spec _ _ Hv) as [Hne Hsp].
  unfold words_of, spaced in Hv. rewrite punct_flat_map in Hv.
  destruct (tokens_punct (contr (step1 s)) [] v (Forall_nil _) Hv)
    as [H|[Hpu (a & b & E)]].
  - simpl in H.
    destruct H as [<-|[<-|[<-|[<-|[<-|[]]]]]]; vm_compute; reflexivity.
  - simpl in E. apply words_of_plain; try assumption.
    + apply Forall_forall. intros c Hc.
      assert (Hin : In c (contr (step1 s))).
      { rewrite E. apply in_or_app. right. apply in_or_app. now left. }
      destruct (contr_chars s c Hin) as [K| ->]; [exact K|].
      exfalso. exact (proj1 (Forall_forall _ _) Hsp _ Hc eq_refl).
    + intros p Hp x y Hxy.
      assert (HG : Good p (contr (step1 s))).
      { rewrite contr_fold. apply fold_Good; [apply contractions_ok|exact Hp]. }
      apply (ends_sp_no_space a x).
      * apply (HG (a ++ x) (y ++ b)). rewrite E, Hxy.
        now rewrite <- !app_assoc.
      * rewrite Hxy in Hsp. apply Forall_app in Hsp. now destruct Hsp.
Qed.

Lemma flat_map_fixed {A} (g : A -> list A) l :
  (forall v, In v l -> g v = [v]) -> flat_map g l = l.
Proof.
  induction l as [|x l IH]; intros H; [reflexivity|].
  simpl. rewrite (H x (or_introl eq_refl)), IH; [reflexivity|].
  intros v Hv. apply H. now right.
Qed.

(** C5. [clean_str] is idempotent: cleaning a cleaned string gives it
    back. *)
Theorem clean_str_idempotent (s : text) :
  clean_str (clean_str s) = clean_str s.
Proof.
  rewrite !clean_str_words, words_of_unwords.
  f_equal. apply flat_map_fixed. intros v Hv.
  exact (words_of_fixed s v Hv).
Qed.

(** The shape of every result: the words of the spaced string joined by
    single spaces; a word is not empty, holds no space, and either is one
    of the punctuation tokens or holds no punctuation mark; every
    character is one that the first substitution keeps, a space or a
    backslash. *)
Lemma clean_str_shape s :
  clean_str s = unwords (words_of s)
  /\ Forall (fun w => w <> [] /\ no_space w
                      /\ (In w punct_tokens \/ no_punct w)) (words_of s)
  /\ Forall (fun c => kept c = true \/ c = space \/ c = backslash)
       (spaced s).
Proof.
  split; [apply clean_str_words|]. split.
  - apply Forall_forall. intros w Hw.
    destruct (tokens_spec _ _ Hw) as [Hne Hsp].
    split; [exact Hne|]. split; [exact Hsp|].
    unfold words_of, spaced in Hw. rewrite punct_flat_map in Hw.
    destruct (tokens_punct _ [] w (Forall_nil _) Hw) as [H|[H _]]; auto.
  - apply Forall_forall. intros c Hc. now apply spaced_chars in Hc.
Qed.

(** C1. At the input [a(b] the result holds a backslash, which is
    neither in the input nor one of the characters that the first
    substitution keeps, and the parenthesis follows that backslash instead
    of a space: the source's replacement [" \( "] is a template in which
    the backslash stays. *)
Theorem clean_str_paren_backslash :
  clean_str (str "a(b") = str "a \( b"
  /\ In backslash (clean_str (str "a(b"))
  /\ ~ In backslash (str "a(b")
  /\ kept backslash = false
  /\ is_space backslash = false.
Proof.
  repeat split; try reflexivity.
  - vm_compute. auto 6.
  - vm_compute. intuition discriminate.
Qed.

End TextFacts.

(* ====================================================================== *)
(** * Properties of the configuration reader *)
(* ====================================================================== *)

Module ConfigFacts.
Import Config.
Local Open Scope string_scope.

(** What [get_params] makes of a document that was read. *)
Lemma get_params_shape (config_file : string) (fs : string -> file)
    (path : option string) (test : bool) (config : json) :
  fs (match path with None => config_file | Some p => p end)
    = Document config ->
  get_params config_file fs path test
  = match config with
    | JObj members =>
        match lookup (profile test) members with
        | None => Raise AttributeError
        | Some (JObj prof) =>
            Ok (group prof "model_pars", group prof "data_pars",
                group prof "compute_pars", group prof "out_pars")
        | Some _ => Raise AttributeError
        end
    | _ => Raise AttributeError
    end.
Proof.
  intros Hfs. unfold get_params, load. rewrite Hfs. simpl.
  unfold profile, group.
  destruct config as [| | | | |members]; try (now destruct test).
  destruct test; simpl;
    (match goal with
     | |- context [lookup ?k members] => destruct (lookup k members) as [v|]
     end; [|reflexivity];
     destruct v as [| | | | |prof]; try reflexivity; simpl;
     repeat match goal with
       | |- context [lookup ?k prof] => destruct (lookup k prof)
       end; reflexivity).
Qed.

(** C10. On a document whose selected profile key is absent,
    [get_params] raises (the second [.get] acts on [None]); when the
    profile is an object it returns the four option groups, a group that
    is absent being the empty dictionary.  A document or a profile that is
    no object raises as well. *)
Theorem get_params_profile (config_file : string) (fs : string -> file)
    (path : option string) (test : bool) (config : json) :
  fs (match path with None => config_file | Some p => p end)
    = Document config ->
  get_params config_file fs path test
  = match config with
    | JObj members =>
        match lookup (profile test) members with
        | None => Raise AttributeError
        | Some (JObj prof) =>
            Ok (group prof "model_pars", group prof "data_pars",
                group prof "compute_pars", group prof "out_pars")
        | Some _ => Raise AttributeError
        end
    | _ => Raise AttributeError
    end
  /\ (forall prof name, lookup name prof = None -> group prof name = dict).
Proof.
  intros Hfs. split.
  - unfold get_params, load. rewrite Hfs. simpl.
    unfold profile, group.
    destruct config as [| | | | |members]; try (now destruct test).
    destruct test; simpl;
      (match goal with
       | |- context [lookup ?k members] => destruct (lookup k members) as [v|]
       end; [|reflexivity];
       destruct v as [| | | | |prof]; try reflexivity; simpl;
       repeat match goal with
         | |- context [lookup ?k prof] => destruct (lookup k prof)
         end; reflexivity).
  - intros prof name H. unfold group. now rewrite H.
Qed.

Definition sample_fs (p : string) : file :=
  if String.eqb p "textcnn.json"
  then Document
         (JObj [("test", JObj [("model_pars", JObj [("num_class", JNum 2)])])])
  else Raises OSError.

Lemma get_params_profile_witness :
  get_params "textcnn.json" sample_fs None true
  = Ok (JObj [("num_class", JNum 2)], dict, dict, dict)
  /\ get_params "textcnn.json" sample_fs None false = Raise AttributeError.
Proof.
  split.
  - exact (proj1 (get_params_profile "textcnn.json" sample_fs None true
                    _ eq_refl)).
  - exact (proj1 (get_params_profile "textcnn.json" sample_fs None false
                    _ eq_refl)).
Defined.

End ConfigFacts.

(* ====================================================================== *)
(** * Properties of the dataset splitter *)
(* ====================================================================== *)

Module SplitFacts.
Import Split.

(** The fraction passed to [split_train_valid] has no effect. *)
Lemma split_train_valid_frac {Row} (data : list Row) order (f f' : Q) :
  split_train_valid data order f = split_train_valid data order f'.
Proof. reflexivity. Qed.

(** C3. Ten rows split with the fraction one half: the training file gets
    seven rows and the validation file three, where the fraction asked for
    gives five and five. *)
Theorem split_train_valid_ten_rows :
  split_train_valid (seq 0 10) (seq 0 10) (1 # 2)
  = ([0; 1; 2; 3; 4; 5; 6]%nat, [7; 8; 9]%nat)
  /\ split_by_frac (seq 0 10) (seq 0 10) (1 # 2)
     = ([0; 1; 2; 3; 4]%nat, [5; 6; 7; 8; 9]%nat).
Proof. split; vm_compute; reflexivity. Qed.

End SplitFacts.

(* ====================================================================== *)
(** * Properties of the loops *)
(* ====================================================================== *)

Module TorchFacts.
Import Torch.
Local Open Scope R_scope.

Lemma obind_Some {A B} (o : option A) (k : A -> option B) b :
  obind o k = Some b -> exists a, o = Some a /\ k a = Some b.
Proof. destruct o as [a|]; simpl; [now exists a|discriminate]. Qed.

Ltac inv_bind H :=
  let a := fresh "a" in
  let E := fresh "E" in
  apply obind_Some in H; destruct H as (a & E & H).

Lemma data_to {A} (t : Tensor A) d : data (to t d) = data t.
Proof. now destruct d. Qed.

(** *** The device *)

(** C9. [_get_device] evaluates to [None] whatever the machine offers, so
    [metric] and [fit] run their loops with the device [None], under which
    [to] leaves every tensor where it is. *)
Theorem _get_device_None (F : Framework) (V : Type) (cuda_is_available : bool)
    (m : Module F) (train_iter valid_iter : Iterator) (vocab : V)
    (compute_pars out_pars : dict)
    (gen : Rng F) (files : Files F) :
  _get_device cuda_is_available = None
  /\ metric cuda_is_available m valid_iter vocab gen
     = _valid m None valid_iter gen
  /\ fit cuda_is_available m train_iter valid_iter vocab
         compute_pars out_pars gen files
     = fit (negb cuda_is_available) m train_iter valid_iter vocab
         compute_pars out_pars gen files
  /\ (forall A (t : Tensor A), to t (_get_device cuda_is_available) = t).
Proof. repeat split. Qed.

Section Evaluation.
Context {F : Framework}.

(** *** The forward pass in evaluation mode *)

Lemma forward_eval (m : Module F) (gen : Rng F) x :
  training m = false ->
  forward m gen x
  = match logits (state_dict m) x with
    | Some logit => Some (logit, gen)
    | None => None
    end.
Proof.
  intros Hm. unfold forward, logits, dropout. rewrite Hm.
  destruct (embed F (state_dict m) x) as [emb|]; [simpl|reflexivity].
  destruct (mapM _ (convs F (state_dict m))) as [con|]; [simpl|reflexivity].
  destruct (mapM (max_pool1d F) con) as [pool|]; [simpl|reflexivity].
  destruct (cat F pool) as [fc_x|]; [simpl|reflexivity].
  now destruct (fc F (state_dict m) fc_x).
Qed.

Lemma valid_batch_eval (m : Module F) device c l gen batch :
  training m = false ->
  valid_batch m device (c, l, gen) batch
  = match measure_batch (state_dict m) (c, l) batch with
    | Some (c', l') => Some (c', l', gen)
    | None => None
    end.
Proof.
  intros Hm. unfold valid_batch, measure_batch, score. cbn [fst snd].
  rewrite !data_to, forward_eval by exact Hm.
  destruct (logits _ _) as [logit|]; [simpl|reflexivity].
  now destruct (cross_entropy _ _).
Qed.

Lemma valid_loop_eval (m : Module F) device gen batches : forall c l,
  training m = false ->
  foldM (valid_batch m device) batches (c, l, gen)
  = match foldM (measure_batch (state_dict m)) batches (c, l) with
    | Some (c', l') => Some (c', l', gen)
    | None => None
    end.
Proof.
  induction batches as [|b bs IH]; intros c l Hm; [reflexivity|].
  cbn [foldM]. rewrite valid_batch_eval by exact Hm.
  destruct (measure_batch (state_dict m) (c, l) b) as [[c' l']|];
    [simpl|reflexivity].
  now apply IH.
Qed.

(** [_valid] in terms of the parameters, the batches of the pass and the
    size of the dataset alone. *)
Lemma _valid_eq (m : Module F) device (itr : Iterator) gen :
  _valid m device itr gen
  = match foldM (measure_batch (state_dict m)) (pass itr (passes itr)) (0, 0)
    with
    | Some (corrects, test_loss) =>
        if Nat.eqb (dataset_len itr) 0 then None
        else Some (test_loss / INR (dataset_len itr),
                   100 * corrects / INR (dataset_len itr),
                   (eval m, snd (iterate itr), gen))
    | None => None
    end.
Proof.
  unfold _valid. cbn [iterate fst snd].
  rewrite (valid_loop_eval (eval m)) by reflexivity.
  cbn [eval set_training state_dict].
  now destruct (foldM _ _ _) as [[c l]|].
Qed.

(** C7. A call of [_valid] that returns leaves the parameters of the
    module and their gradient buffers as they were: only the mode of the
    module is set. *)
Theorem _valid_keeps_parameters (m : Module F) device (itr : Iterator) gen
    test_loss accuracy (m' : Module F) itr' gen' :
  _valid m device itr gen = Some (test_loss, accuracy, (m', itr', gen')) ->
  state_dict m' = state_dict m /\ grad m' = grad m /\ training m' = false.
Proof.
  rewrite _valid_eq.
  destruct (foldM _ _ _) as [[c l]|]; [|discriminate].
  destruct (Nat.eqb _ _); [discriminate|].
  intros H. injection H as _ _ <- _ _. now repeat split.
Qed.

(** C6. Two evaluations with the same parameters over the same batches of
    a dataset of the same size return the same loss and accuracy (or both
    raise), whatever the mode of the module, its gradient buffers and the
    state of the random generator are at the two calls. *)
Theorem _valid_deterministic (V : Type) (m1 m2 : Module F) device
    (itr1 itr2 : Iterator) (gen1 gen2 : Rng F) (cuda1 cuda2 : bool)
    (vocab : V) :
  state_dict m1 = state_dict m2 ->
  pass itr1 (passes itr1) = pass itr2 (passes itr2) ->
  dataset_len itr1 = dataset_len itr2 ->
  option_map fst (_valid m1 device itr1 gen1)
  = option_map fst (_valid m2 device itr2 gen2)
  /\ option_map fst (metric cuda1 m1 itr1 vocab gen1)
     = option_map fst (metric cuda2 m2 itr2 vocab gen2).
Proof.
  intros Hw Hb Hn. unfold metric. rewrite !_valid_eq, Hw, Hb, Hn.
  destruct (foldM _ _ _) as [[c l]|]; [|now split].
  now destruct (Nat.eqb _ _).
Qed.

(** *** Bounds on the loss and on the count of correct predictions *)

Lemma sum_exp_nonneg z : 0 <= sum_exp z.
Proof.
  induction z as [|x z IH]; simpl; [lra|].
  pose proof (exp_pos x). lra.
Qed.

Lemma sum_exp_ge z : forall t,
  (t < length z)%nat -> exp (nth t z 0) <= sum_exp z.
Proof.
  induction z as [|x z IH]; intros t Ht; simpl in Ht; [lia|].
  destruct t as [|t]; simpl.
  - pose proof (sum_exp_nonneg z). lra.
  - pose proof (exp_pos x). specialize (IH t ltac:(lia)). lra.
Qed.

Lemma ln_le x y : 0 < x -> x <= y -> ln x <= ln y.
Proof.
  intros Hx [Hlt| ->]; [|lra].
  left. now apply ln_increasing.
Qed.

Lemma nll_nonneg z t l : nll z t = Some l -> 0 <= l.
Proof.
  unfold nll. destruct (_ && _)%bool eqn:E; [|discriminate].
  intros H. injection H as <-.
  apply andb_true_iff in E. destruct E as [E1 E2].
  apply Z.leb_le in E1. apply Z.ltb_lt in E2.
  assert (Ht : (Z.to_nat t < length z)%nat) by lia.
  pose proof (sum_exp_ge z _ Ht) as Hge.
  pose proof (ln_le _ _ (exp_pos _) Hge) as Hln.
  rewrite ln_exp in Hln. lra.
Qed.

Lemma nlls_nonneg logit : forall target ls,
  nlls logit target = Some ls -> Forall (fun l => 0 <= l) ls.
Proof.
  induction logit as [|z logit IH]; intros [|t target] ls H;
    simpl in H; try discriminate.
  - injection H as <-. constructor.
  - inv_bind H. inv_bind H. injection H as <-.
    constructor; [now apply (nll_nonneg z t)|now apply (IH target)].
Qed.

Lemma Rsum_nonneg ls : Forall (fun l => 0 <= l) ls -> 0 <= Rsum ls.
Proof. induction 1 as [|l ls Hl _ IH]; simpl; lra. Qed.

Lemma cross_entropy_nonneg logit target l :
  cross_entropy logit target = Some l -> 0 <= l.
Proof.
  unfold cross_entropy. destruct logit as [|z logit]; [discriminate|].
  intros H. inv_bind H. injection H as <-.
  pose proof (Rsum_nonneg _ (nlls_nonneg _ _ _ E)) as Hs.
  destruct a as [|l0 ls].
  - simpl. lra.
  - apply Rmult_le_pos; [exact Hs|].
    left. apply Rinv_0_lt_compat. apply lt_0_INR. simpl. lia.
Qed.

Lemma count_equal_le result target :
  (count_equal result target <= length target)%nat.
Proof.
  unfold count_equal.
  etransitivity; [apply filter_length_le|].
  rewrite length_combine. lia.
Qed.

(** One turn of a loop adds a count of at most the size of the batch and
    a loss that is not negative. *)
Definition step_ok (cl cl' : R * R) (b : Batch) : Prop :=
  exists k loss,
    fst cl' = fst cl + INR k /\ snd cl' = snd cl + loss
    /\ (k <= length (data (label b)))%nat /\ 0 <= loss.

Lemma target_length (b : Batch) device :
  length (data (to (sub_ (label b) 1) device)) = length (data (label b)).
Proof. rewrite data_to. unfold sub_. simpl. apply length_map. Qed.

Lemma valid_batch_ok (m : Module F) device st b st' :
  valid_batch m device st b = Some st' -> step_ok (fst st) (fst st') b.
Proof.
  destruct st as [[c l] g]. unfold valid_batch. intros H.
  inv_bind H. destruct a as [logit g']. inv_bind H. injection H as <-.
  exists (count_equal (map argmax logit)
            (data (to (sub_ (label b) 1) device))), a.
  repeat split.
  - rewrite <- (target_length b device). apply count_equal_le.
  - now apply cross_entropy_nonneg in E0.
Qed.

Lemma train_batch_ok device st b st' :
  train_batch (F := F) device st b = Some st' ->
  step_ok (fst st) (fst st') b.
Proof.
  destruct st as [[c l] [[m o] g]]. unfold train_batch. intros H.
  inv_bind H. destruct a as [logit g']. inv_bind H.
  destruct (step F o _ _) as [o' w]. injection H as <-.
  exists (count_equal (map argmax logit)
            (data (to (sub_ (label b) 1) device))), a.
  repeat split.
  - rewrite <- (target_length b device). apply count_equal_le.
  - now apply cross_entropy_nonneg in E0.
Qed.

Lemma foldM_bounds {S} (f : S -> Batch -> option S) (proj : S -> R * R) :
  (forall s b s', f s b = Some s' -> step_ok (proj s) (proj s') b) ->
  forall bs s s', foldM f bs s = Some s' ->
    fst (proj s) <= fst (proj s') <= fst (proj s) + INR (examples bs)
    /\ snd (proj s) <= snd (proj s').
Proof.
  intros Hf. induction bs as [|b bs IH]; intros s s' H; simpl in H.
  - injection H as <-. simpl. lra.
  - inv_bind H. destruct (Hf _ _ _ E) as (k & loss & Hc & Hl & Hk & Hloss).
    destruct (IH _ _ H) as [[IH1 IH2] IH3].
    cbn [examples fold_right]. fold (examples bs).
    rewrite plus_INR. apply le_INR in Hk.
    pose proof (pos_INR k). lra.
Qed.

Lemma percentage c n :
  n <> O -> 0 <= c <= INR n -> 0 <= 100 * c / INR n <= 100.
Proof.
  intros Hn [H0 H1].
  assert (Hpos : 0 < INR n) by (apply lt_0_INR; lia).
  split.
  - apply Rmult_le_pos; [lra|]. left. now apply Rinv_0_lt_compat.
  - apply (Rmult_le_reg_r (INR n)); [exact Hpos|].
    unfold Rdiv. rewrite Rmult_assoc, Rinv_l by lra. lra.
Qed.

Lemma mean_nonneg l n : n <> O -> 0 <= l -> 0 <= l / INR n.
Proof.
  intros Hn Hl. apply Rmult_le_pos; [exact Hl|].
  left. apply Rinv_0_lt_compat, lt_0_INR. lia.
Qed.

(** In the arithmetic of the real numbers, when the iterator covers its
    dataset, the accuracy of [_valid] and of [_train] lies between 0 and
    100 and the loss is not negative.  (A call that returns has a dataset
    that is not empty: the division by its size was made.)  The values
    that the machine returns are the roundings of these: see
    [MachineFacts]. *)
Lemma exact_loss_accuracy_bounds (m : Module F) device (itr : Iterator)
    (optimizer : OptState F) (epoch max_epoch : nat) (gen : Rng F) :
  covers itr ->
  (forall test_loss accuracy st,
      _valid m device itr gen = Some (test_loss, accuracy, st) ->
      0 <= accuracy <= 100 /\ 0 <= test_loss)
  /\ (forall train_loss accuracy st,
      _train m device itr optimizer epoch max_epoch gen
        = Some (train_loss, accuracy, st) ->
      0 <= accuracy <= 100 /\ 0 <= train_loss).
Proof.
  unfold covers. intros Hcov. split.
  - intros test_loss accuracy st. unfold _valid. cbn [iterate dataset_len].
    intros H. inv_bind H. destruct a as [[c l] g].
    destruct (Nat.eqb_spec (dataset_len itr) 0) as [|Hn]; [discriminate|].
    injection H as <- <- _.
    pose proof (foldM_bounds (valid_batch (eval m) device) fst
                  (valid_batch_ok (eval m) device) _ _ _ E) as [[B1 B2] B3].
    cbn [fst snd] in B1, B2, B3. rewrite Hcov in B2.
    split; [apply percentage; [exact Hn|lra]|apply mean_nonneg; [exact Hn|lra]].
  - intros train_loss accuracy st. unfold _train. cbn [iterate dataset_len].
    intros H. inv_bind H. destruct a as [[c l] [[m' o'] g']].
    destruct (Nat.eqb_spec (dataset_len itr) 0) as [|Hn]; [discriminate|].
    injection H as <- <- _.
    pose proof (foldM_bounds (train_batch device) fst
                  (train_batch_ok device) _ _ _ E) as [[B1 B2] B3].
    cbn [fst snd] in B1, B2, B3. rewrite Hcov in B2.
    split; [apply percentage; [exact Hn|lra]|apply mean_nonneg; [exact Hn|lra]].
Qed.

(** *** The driver *)

Lemma _valid_accuracy_nonneg (m : Module F) device itr gen l a st :
  _valid m device itr gen = Some (l, a, st) -> 0 <= a.
Proof.
  unfold _valid. cbn [iterate dataset_len]. intros H.
  inv_bind H. destruct a0 as [[c l'] g].
  destruct (Nat.eqb_spec (dataset_len itr) 0) as [|Hn]; [discriminate|].
  injection H as _ <- _.
  pose proof (foldM_bounds (valid_batch (eval m) device) fst
                (valid_batch_ok (eval m) device) _ _ _ E) as [[B1 _] _].
  cbn [fst] in B1.
  apply Rmult_le_pos; [lra|].
  left. apply Rinv_0_lt_compat, lt_0_INR. lia.
Qed.

Lemma _valid_mode (m : Module F) device itr gen l a m' itr' gen' :
  _valid m device itr gen = Some (l, a, (m', itr', gen')) ->
  training m' = false.
Proof.
  rewrite _valid_eq.
  destruct (foldM _ _ _) as [[c l0]|]; [|discriminate].
  destruct (Nat.eqb _ _); [discriminate|].
  intros H. now injection H as _ _ <- _ _.
Qed.

Lemma rbind_Ok {A B} (r : result A) (k : A -> result B) b :
  rbind r k = Ok b -> exists a, r = Ok a /\ k a = Ok b.
Proof. destruct r as [a|e]; simpl; [now exists a|discriminate]. Qed.

Lemma raising_Ok {A} (o : option A) a : raising o = Ok a -> o = Some a.
Proof. destruct o; simpl; [now intros [= ->]|discriminate]. Qed.

(** The write of a turn that found a better accuracy: the checkpoint
    directory is read from the dictionary, the path can be opened, and
    the file holds the parameters that the turn leaves. *)
Definition checkpoint_written (out_pars : dict) (before : Files F)
    (e : Epoch F) : Prop :=
  exists dir,
    out_pars "checkpointdir"%string = Some (Str dir)
    /\ can_open before (os_path_join dir "best_accuracy") = true
    /\ files (after e)
       = write before (state_dict (model (after e)))
           (os_path_join dir "best_accuracy").

(** What a turn of the loop that reaches its end has done. *)
Lemma one_epoch_spec device out_pars max_epoch (st : FitState F) n e :
  one_epoch device out_pars max_epoch st n = Ok e ->
  epoch e = n
  /\ training (model (after e)) = false
  /\ 0 <= ts_acc e
  /\ ((best_test_acc st < ts_acc e
       /\ checkpoint_written out_pars (files st) e
       /\ best_test_acc (after e) = ts_acc e)
      \/ (~ best_test_acc st < ts_acc e
          /\ files (after e) = files st
          /\ best_test_acc (after e) = best_test_acc st)).
Proof.
  unfold one_epoch. intros H.
  apply rbind_Ok in H. destruct H as ([[trl tra] [[[m1 o1] ti1] g1]] & Htr & H).
  apply rbind_Ok in H. destruct H as ([[tsl tsa] [[m2 vi2] g2]] & Hts & H).
  apply raising_Ok in Hts.
  pose proof (_valid_accuracy_nonneg _ _ _ _ _ _ _ Hts) as Hacc.
  pose proof (_valid_mode _ _ _ _ _ _ _ _ _ Hts) as Hmode.
  apply rbind_Ok in H. destruct H as ([best fs] & Hsave & H).
  injection H as <-. cbn [epoch ts_acc after model files best_test_acc].
  split; [reflexivity|]. split; [exact Hmode|]. split; [exact Hacc|].
  destruct (Rlt_dec (best_test_acc st) tsa) as [Hlt|Hge].
  - left. split; [exact Hlt|].
    apply rbind_Ok in Hsave. destruct Hsave as (dir & Hdir & Hsave).
    apply rbind_Ok in Hsave. destruct Hsave as (path & Hpath & Hsave).
    apply rbind_Ok in Hsave. destruct Hsave as (fs' & Hfs & Hsave).
    injection Hsave as <- <-.
    unfold getitem in Hdir.
    destruct (out_pars "checkpointdir"%string) as [v|] eqn:Hv; [|discriminate].
    injection Hdir as ->.
    destruct dir as [| |d|]; try discriminate. injection Hpath as <-.
    unfold torch_save in Hfs.
    destruct (can_open (files st) _) eqn:Hopen; [|discriminate].
    injection Hfs as <-.
    split; [|reflexivity]. exists d. now repeat split.
  - right. injection Hsave as <- <-. now repeat split.
Qed.

(** A turn that raises leaves the files as they were. *)
Lemma loop_step device out_pars max_epoch n todo (st : FitState F) :
  epochs_loop device out_pars max_epoch (n :: todo) st
  = match one_epoch device out_pars max_epoch st n with
    | Raise x =>
        {| history := []; files_left := files st; raised := Some x |}
    | Ok e =>
        {| history :=
             e :: history (epochs_loop device out_pars max_epoch todo (after e));
           files_left :=
             files_left (epochs_loop device out_pars max_epoch todo (after e));
           raised :=
             raised (epochs_loop device out_pars max_epoch todo (after e)) |}
    end.
Proof. reflexivity. Qed.

(** The validation accuracies of the turns before, and the running best:
    the best bounds them all and is one of them, or still -1. *)
Definition best_of (prior : list R) (best : R) : Prop :=
  (forall a, In a prior -> a <= best)
  /\ (best = -1 \/ In best prior)
  /\ (forall a, In a prior -> 0 <= a).

Definition exceeds (prior : list R) (a : R) : Prop :=
  forall a', In a' prior -> a' < a.

Lemma best_of_nil : best_of [] (-1).
Proof. repeat split; [intros a []|now left|intros a []]. Qed.

Lemma exceeds_best prior best a :
  best_of prior best -> 0 <= a -> (best < a <-> exceeds prior a).
Proof.
  intros (Hle & Hin & Hpos) Ha. split.
  - intros Hlt a' Ha'. specialize (Hle a' Ha'). lra.
  - intros H. destruct Hin as [->|Hin]; [lra|now apply H].
Qed.

Lemma best_of_step prior best a :
  best_of prior best -> 0 <= a ->
  best_of (prior ++ [a]) (if Rlt_dec best a then a else best).
Proof.
  intros (Hle & Hin & Hpos) Ha. destruct (Rlt_dec best a) as [Hlt|Hge].
  - repeat split.
    + intros a' Ha'. apply in_app_or in Ha'.
      destruct Ha' as [Ha'|[<-|[]]]; [specialize (Hle a' Ha'); lra|lra].
    + right. apply in_or_app. right. now left.
    + intros a' Ha'. apply in_app_or in Ha'.
      destruct Ha' as [Ha'|[<-|[]]]; [now apply Hpos|exact Ha].
  - repeat split.
    + intros a' Ha'. apply in_app_or in Ha'.
      destruct Ha' as [Ha'|[<-|[]]]; [now apply Hle|lra].
    + destruct Hin as [Hin|Hin]; [now left|].
      right. apply in_or_app. now left.
    + intros a' Ha'. apply in_app_or in Ha'.
      destruct Ha' as [Ha'|[<-|[]]]; [now apply Hpos|exact Ha].
Qed.

Lemma saved_write (fs : Files F) w path : saved (write fs w path) <> saved fs.
Proof.
  cbn [write saved]. intros H.
  apply (f_equal (@length _)) in H. simpl in H. lia.
Qed.

(** What a turn has done to the files, given the accuracies of the turns
    before it. *)
Definition turn_ok (out_pars : dict) (prior : list R) (before : Files F)
    (e : Epoch F) : Prop :=
  (saved (files (after e)) <> saved before <-> exceeds prior (ts_acc e))
  /\ (exceeds prior (ts_acc e) -> checkpoint_written out_pars before e)
  /\ (~ exceeds prior (ts_acc e) -> files (after e) = before).

Fixpoint history_ok (out_pars : dict) (prior : list R) (before : Files F)
    (es : list (Epoch F)) : Prop :=
  match es with
  | [] => True
  | e :: es' =>
      turn_ok out_pars prior before e
      /\ history_ok out_pars (prior ++ [ts_acc e]) (files (after e)) es'
  end.

Lemma one_epoch_turn device out_pars max_epoch (st : FitState F) n e prior :
  best_of prior (best_test_acc st) ->
  one_epoch device out_pars max_epoch st n = Ok e ->
  turn_ok out_pars prior (files st) e
  /\ best_of (prior ++ [ts_acc e]) (best_test_acc (after e)).
Proof.
  intros Hbest H.
  destruct (one_epoch_spec _ _ _ _ _ _ H)
    as (_ & _ & Hacc & Hcase).
  pose proof (exceeds_best _ _ _ Hbest Hacc) as Hiff.
  pose proof (best_of_step _ _ _ Hbest Hacc) as Hnext.
  destruct Hcase as [(Hlt & Hw & Hb)|(Hge & Hf & Hb)].
  - destruct (Rlt_dec (best_test_acc st) (ts_acc e)); [|contradiction].
    rewrite Hb. split; [|exact Hnext].
    pose proof Hw as (dir & _ & _ & Hfiles).
    repeat split.
    + intros _. now apply Hiff.
    + intros _. rewrite Hfiles. apply saved_write.
    + intros _. exact Hw.
    + intros Hno. exfalso. apply Hno. now apply Hiff.
  - destruct (Rlt_dec (best_test_acc st) (ts_acc e)); [contradiction|].
    rewrite Hb. split; [|exact Hnext].
    repeat split.
    + intros Hne. now rewrite Hf in Hne.
    + intros Hex. exfalso. apply Hge. now apply Hiff.
    + intros Hex. exfalso. apply Hge. now apply Hiff.
    + intros _. exact Hf.
Qed.

Lemma epochs_loop_ok device out_pars max_epoch todo :
  forall (st : FitState F) prior,
    best_of prior (best_test_acc st) ->
    history_ok out_pars prior (files st)
      (history (epochs_loop device out_pars max_epoch todo st)).
Proof.
  induction todo as [|n todo IH]; intros st prior Hbest; [exact I|].
  rewrite loop_step.
  destruct (one_epoch device out_pars max_epoch st n) as [e|x] eqn:E;
    [|exact I].
  destruct (one_epoch_turn _ _ _ _ _ _ _ Hbest E) as [Hturn Hnext].
  cbn [history history_ok]. split; [exact Hturn|]. now apply IH.
Qed.

(** The files at the start of the turn at a position of the history:
    those that the turn before has left, or those given to [fit]. *)
Definition files_before (files0 : Files F) (es : list (Epoch F)) (k : nat)
  : Files F :=
  last (map (fun e => files (after e)) (firstn k es)) files0.

Lemma last_cons {A} (x : A) l d : last (x :: l) d = last l x.
Proof.
  revert x d. induction l as [|y l IH]; intros x d; [reflexivity|].
  change (last (x :: y :: l) d) with (last (y :: l) d).
  now rewrite (IH y d), (IH y x).
Qed.

Lemma files_before_cons files0 (e : Epoch F) es k :
  files_before files0 (e :: es) (S k) = files_before (files (after e)) es k.
Proof. unfold files_before. cbn [firstn map]. apply last_cons. Qed.

Lemma history_ok_nth out_pars : forall es prior before k e,
  history_ok out_pars prior before es ->
  nth_error es k = Some e ->
  turn_ok out_pars (prior ++ map (@ts_acc F) (firstn k es))
    (files_before before es k) e.
Proof.
  induction es as [|e0 es IH]; intros prior before k e Hok Hk.
  - now destruct k.
  - destruct Hok as (Hturn & Hrest). destruct k as [|k].
    + injection Hk as <-. cbn [firstn map]. now rewrite app_nil_r.
    + simpl in Hk. rewrite files_before_cons.
      cbn [firstn map].
      replace (prior ++ ts_acc e0 :: map (@ts_acc F) (firstn k es))
        with ((prior ++ [ts_acc e0]) ++ map (@ts_acc F) (firstn k es))
        by now rewrite <- app_assoc.
      now apply IH.
Qed.

Lemma earlier_epochs (es : list (Epoch F)) k (P : R -> Prop) :
  (forall a, In a (map (@ts_acc F) (firstn k es)) -> P a)
  <-> (forall j e', (j < k)%nat -> nth_error es j = Some e' -> P (ts_acc e')).
Proof.
  split.
  - intros H j e' Hj He'. apply H. apply in_map.
    apply nth_error_In with (n := j).
    now rewrite nth_error_firstn, (proj2 (Nat.ltb_lt j k) Hj).
  - intros H a Ha. apply in_map_iff in Ha. destruct Ha as (e' & <- & He').
    apply In_nth_error in He'. destruct He' as [j Hj].
    rewrite nth_error_firstn in Hj.
    destruct (Nat.ltb_spec j k) as [Hlt|]; [|discriminate].
    now apply (H j).
Qed.

(** The files that a run leaves are those that its last completed turn
    has left. *)
Lemma loop_files_left device out_pars max_epoch todo :
  forall (st : FitState F),
    files_left (epochs_loop device out_pars max_epoch todo st)
    = files_before (files st)
        (history (epochs_loop device out_pars max_epoch todo st))
        (length (history (epochs_loop device out_pars max_epoch todo st))).
Proof.
  induction todo as [|n todo IH]; intros st; [reflexivity|].
  rewrite loop_step.
  destruct (one_epoch device out_pars max_epoch st n) as [e|x];
    [|reflexivity].
  cbn [history files_left length]. rewrite files_before_cons. apply IH.
Qed.

(** The run of [fit] as a run of the loop, when the parameters are
    read and the optimiser is made without an exception. *)
Lemma fit_cases (V : Type) (cuda_is_available : bool) (m : Module F)
    (train_iter valid_iter : Iterator) (vocab : V)
    (compute_pars out_pars : dict) (gen : Rng F) (files0 : Files F) :
  (exists x,
      fit cuda_is_available m train_iter valid_iter vocab compute_pars
        out_pars gen files0
      = {| history := []; files_left := files0; raised := Some x |})
  \/ (exists n optimizer,
        compute_pars "epochs"%string = Some (Int n)
        /\ fit cuda_is_available m train_iter valid_iter vocab compute_pars
             out_pars gen files0
           = epochs_loop None out_pars (Z.to_nat n) (seq 1 (Z.to_nat n))
               {| model := m; optimizer := optimizer;
                  train_iter := train_iter; valid_iter := valid_iter;
                  gen := gen; best_test_acc := -1; files := files0 |}).
Proof.
  unfold fit, getitem.
  destruct (compute_pars "learning_rate"%string) as [lr|]; [|left; now eexists].
  destruct (compute_pars "epochs"%string) as [epochs|]; [|left; now eexists].
  destruct (optim_Adam (state_dict m) lr) as [o|x]; [|left; now eexists].
  destruct epochs as [n| | |]; try (left; now eexists).
  right. now exists n, o.
Qed.

(** The turn at position [k] of a history found an accuracy above those
    of all the turns before it. *)
Definition strictly_better (es : list (Epoch F)) (k : nat) (e : Epoch F)
  : Prop :=
  forall j e', (j < k)%nat -> nth_error es j = Some e' ->
               ts_acc e' < ts_acc e.

(** C4. In a run of [fit], a turn of the loop that reaches its end has
    written the checkpoint exactly when its validation accuracy is above
    that of every turn before it, as for the first turn; the write
    replaces the file [best_accuracy] of the configured directory by the
    parameters of the model, and no other turn changes the files.  A
    turn that raises, be it in the write, ends the run with the files as
    the turn before left them. *)
Theorem checkpoint_iff_strictly_better (V : Type) (cuda_is_available : bool)
    (m : Module F) (train_iter valid_iter : Iterator) (vocab : V)
    (compute_pars out_pars : dict) (gen : Rng F) (files0 : Files F) :
  (forall k e,
      nth_error
        (history (fit cuda_is_available m train_iter valid_iter vocab
                    compute_pars out_pars gen files0)) k = Some e ->
      forall es before,
        es = history (fit cuda_is_available m train_iter valid_iter vocab
                        compute_pars out_pars gen files0) ->
        before = files_before files0 es k ->
        (saved (files (after e)) <> saved before <-> strictly_better es k e)
        /\ (k = O -> strictly_better es k e)
        /\ (strictly_better es k e -> checkpoint_written out_pars before e)
        /\ (~ strictly_better es k e -> files (after e) = before))
  /\ files_left (fit cuda_is_available m train_iter valid_iter vocab
                   compute_pars out_pars gen files0)
     = files_before files0
         (history (fit cuda_is_available m train_iter valid_iter vocab
                     compute_pars out_pars gen files0))
         (length
            (history (fit cuda_is_available m train_iter valid_iter vocab
                        compute_pars out_pars gen files0))).
Proof.
  destruct (fit_cases V cuda_is_available m train_iter valid_iter vocab
              compute_pars out_pars gen files0)
    as [[x ->]|(n & o & _ & ->)].
  - split; [|reflexivity]. intros [|k] e H; discriminate.
  - set (st0 := Build_FitState _ _ _ _ _ _ _).
    split; [|apply (loop_files_left None out_pars _ _ st0)].
    intros k e Hk es before -> ->.
    pose proof (epochs_loop_ok None out_pars (Z.to_nat n)
                  (seq 1 (Z.to_nat n)) st0 [] best_of_nil) as Hok.
    pose proof (history_ok_nth _ _ _ _ _ _ Hok Hk) as (Hiff & Hw & Hno).
    cbn [app] in Hiff, Hw, Hno. unfold exceeds in Hiff, Hw, Hno.
    rewrite earlier_epochs in Hiff, Hw, Hno.
    change (files st0) with files0 in Hiff, Hw, Hno.
    split; [exact Hiff|]. split; [|split; [exact Hw|exact Hno]].
    intros -> j e' Hj. lia.
Qed.

End Evaluation.

(** *** A run on a concrete network

    A classifier with two classes whose scores are zero on every example,
    an optimiser that leaves the parameters where they are, and a dataset
    of two examples that both carry the first label, in one batch. *)

Definition zero_net : Framework := {|
  Params := unit;
  Grads := unit;
  OptState := unit;
  Rng := unit;
  Feat := nat;
  embed := fun _ x => Some (length x);
  convs := fun _ => [fun x => Some x];
  max_pool1d := fun x => Some x;
  cat := fun l => Some (hd O l);
  dropout_train := fun g x => (x, g);
  fc := fun _ n => Some (repeat [0; 0] n);
  zero_grad := fun g => g;
  backward := fun g _ _ _ _ => g;
  Adam := fun _ _ => tt;
  step := fun o w _ => (o, w)
|}.

Definition two_examples : Batch :=
  {| text := tensor cpu [[3; 4]]%nat; label := tensor cpu [1; 1]%nat |}.

Definition two_itr (n : nat) : Iterator :=
  {| dataset_len := 2; pass := fun _ => [two_examples]; passes := n |}.

Definition net (mode : bool) : Module zero_net :=
  @Build_Module zero_net tt tt mode.

Lemma argmax_zeros : argmax [0; 0] = O.
Proof.
  unfold argmax, argmax_from. destruct (Rlt_dec 0 0); [lra|reflexivity].
Qed.

Lemma nll_zeros : nll [0; 0] 0 = Some (ln 2).
Proof.
  unfold nll. simpl. f_equal. rewrite exp_0.
  replace (1 + (1 + 0)) with 2 by lra. lra.
Qed.

Lemma cross_entropy_two :
  cross_entropy [[0; 0]; [0; 0]] [0; 0]%Z = Some (ln 2).
Proof.
  unfold cross_entropy. cbn [nlls]. rewrite nll_zeros. simpl.
  f_equal. lra.
Qed.

Lemma count_two : count_equal (map argmax [[0; 0]; [0; 0]]) [0; 0]%Z = 2%nat.
Proof. cbn [map]. now rewrite argmax_zeros. Qed.

Lemma valid_batch_two (mode : bool) device c l :
  valid_batch (net mode) device (c, l, tt) two_examples
  = Some (c + 2, l + ln 2, tt).
Proof.
  unfold valid_batch. rewrite !data_to.
  assert (Hf : forward (net mode) tt (data (transpose (text two_examples)))
               = Some ([[0; 0]; [0; 0]], tt)).
  { unfold forward, dropout. now destruct mode. }
  rewrite Hf. cbn [obind].
  change (data (sub_ (label two_examples) 1)) with [0; 0]%Z.
  rewrite cross_entropy_two. cbn [obind]. rewrite count_two.
  replace (INR 2) with 2 by (simpl; lra). reflexivity.
Qed.

Lemma _valid_two (mode : bool) device n :
  _valid (net mode) device (two_itr n) tt
  = Some (ln 2 / 2, 100, (net false, two_itr (S n), tt)).
Proof.
  unfold _valid. cbn [iterate two_itr pass dataset_len passes foldM].
  change (eval (net mode)) with (net false).
  rewrite valid_batch_two. cbn [obind Nat.eqb].
  repeat f_equal; simpl; lra.
Qed.

Lemma train_batch_two device c l :
  train_batch (F := zero_net) device (c, l, (net true, tt, tt)) two_examples
  = Some (c + 2, l + ln 2, (net true, tt, tt)).
Proof.
  unfold train_batch. rewrite !data_to.
  assert (Hf : forward (set_grad (net true) (zero_grad zero_net tt)) tt
                 (data (transpose (text two_examples)))
               = Some ([[0; 0]; [0; 0]], tt)) by reflexivity.
  cbn [grad net]. rewrite Hf. cbn [obind].
  change (data (sub_ (label two_examples) 1)) with [0; 0]%Z.
  rewrite cross_entropy_two. cbn [obind]. rewrite count_two.
  replace (INR 2) with 2 by (simpl; lra). reflexivity.
Qed.

Lemma _train_two (mode : bool) device n epoch max_epoch :
  _train (net mode) device (two_itr n) tt epoch max_epoch tt
  = Some (ln 2 / 2, 100, (net true, tt, two_itr (S n), tt)).
Proof.
  unfold _train. cbn [iterate two_itr pass dataset_len passes foldM].
  change (train (net mode)) with (net true).
  rewrite train_batch_two. cbn [obind Nat.eqb].
  repeat f_equal; simpl; lra.
Qed.

(** C2. One epoch of [_train] over a dataset of two examples in one
    batch, each example with the loss [ln 2]: the loss reported is
    [ln 2 / 2], the mean of the batch divided by the number of examples,
    where the average loss of the examples is [ln 2]; the accuracy
    reported is 100. *)
Theorem _train_reports_batch_means :
  _train (net true) None (two_itr 0) tt 1 1 tt
  = Some (ln 2 / 2, 100, (net true, tt, two_itr 1, tt))
  /\ nlls [[0; 0]; [0; 0]] [0; 0]%Z = Some [ln 2; ln 2]
  /\ mean_example_loss [ln 2; ln 2] = ln 2
  /\ ln 2 / 2 <> ln 2.
Proof.
  split; [apply _train_two|]. split; [|split].
  - cbn [nlls]. now rewrite nll_zeros.
  - unfold mean_example_loss. simpl. lra.
  - pose proof ln_lt_2. lra.
Qed.

Lemma _valid_keeps_parameters_witness :
  state_dict (net false) = state_dict (net true)
  /\ grad (net false) = grad (net true)
  /\ training (net false) = false.
Proof.
  exact (_valid_keeps_parameters (net true) None (two_itr 0) tt
           _ _ _ _ _ (_valid_two true None 0)).
Defined.

Lemma _valid_deterministic_witness :
  option_map fst (_valid (net true) None (two_itr 0) tt)
  = option_map fst (_valid (net false) None (two_itr 5) tt)
  /\ option_map fst (metric true (net true) (two_itr 0) tt tt)
     = option_map fst (metric false (net false) (two_itr 5) tt tt).
Proof.
  exact (_valid_deterministic unit (net true) (net false) None
           (two_itr 0) (two_itr 5) tt tt true false tt
           eq_refl eq_refl eq_refl).
Defined.

(** Two epochs at the learning rate 0.001, with the checkpoint directory
    [ckpt]. *)
Definition two_epochs : dict :=
  fun k =>
    if String.eqb k "learning_rate" then Some (Float (1 / 1000))
    else if String.eqb k "epochs" then Some (Int 2)
    else None.

Definition out_dir : dict :=
  fun k => if String.eqb k "checkpointdir" then Some (Str "ckpt") else None.

(** No file yet; the directory [ckpt] is there, or it is missing. *)
Definition with_directory : Files zero_net :=
  {| can_open := fun _ => true; file := fun _ => None; saved := [] |}.

Definition no_directory : Files zero_net :=
  {| can_open := fun _ => false; file := fun _ => None; saved := [] |}.

Definition state_at (mode : bool) (n : nat) (best : R) (fs : Files zero_net)
  : FitState zero_net :=
  {| model := net mode; optimizer := tt; train_iter := two_itr n;
     valid_iter := two_itr n; gen := tt; best_test_acc := best;
     files := fs |}.

Definition turn (k n : nat) (fs : Files zero_net) : Epoch zero_net :=
  {| epoch := k; tr_loss := ln 2 / 2; tr_acc := 100; ts_loss := ln 2 / 2;
     ts_acc := 100; after := state_at false n 100 fs |}.

Lemma one_epoch_better mode n best fs k :
  best < 100 ->
  one_epoch None out_dir 2 (state_at mode n best fs) k
  = if can_open fs "ckpt/best_accuracy"
    then Ok (turn k (S n) (write fs tt "ckpt/best_accuracy"))
    else Raise OSError.
Proof.
  intros Hlt. unfold one_epoch.
  cbn [state_at model train_iter optimizer gen valid_iter best_test_acc files].
  rewrite _train_two. cbn [raising rbind]. rewrite _valid_two.
  cbn [raising rbind].
  destruct (Rlt_dec best 100) as [_|H]; [|contradiction].
  change (getitem out_dir "checkpointdir") with (Ok (Str "ckpt")).
  cbn [rbind join].
  change (os_path_join "ckpt" "best_accuracy") with "ckpt/best_accuracy"%string.
  cbn [rbind]. unfold torch_save.
  now destruct (can_open fs "ckpt/best_accuracy").
Qed.

Lemma one_epoch_not_better mode n fs k :
  one_epoch None out_dir 2 (state_at mode n 100 fs) k
  = Ok (turn k (S n) fs).
Proof.
  unfold one_epoch.
  cbn [state_at model train_iter optimizer gen valid_iter best_test_acc files].
  rewrite _train_two. cbn [raising rbind]. rewrite _valid_two.
  cbn [raising rbind].
  destruct (Rlt_dec 100 100) as [H|_]; [exfalso; lra|reflexivity].
Qed.

Lemma fit_setup (fs : Files zero_net) :
  fit true (net true) (two_itr 0) (two_itr 0) tt two_epochs out_dir tt fs
  = epochs_loop None out_dir 2 [1; 2]%nat (state_at true 0 (-1) fs).
Proof.
  unfold fit.
  change (getitem two_epochs "learning_rate") with (Ok (Float (1 / 1000))).
  change (getitem two_epochs "epochs") with (Ok (Int 2)).
  cbv iota beta. unfold optim_Adam.
  destruct (Rlt_dec (1 / 1000) 0) as [H|_]; [exfalso; lra|].
  reflexivity.
Qed.

(** The run with the directory in place: the first turn writes the
    checkpoint, the second finds the same accuracy and does not. *)
Lemma fit_two_epochs :
  fit true (net true) (two_itr 0) (two_itr 0) tt two_epochs out_dir tt
    with_directory
  = {| history :=
         [turn 1 1 (write with_directory tt "ckpt/best_accuracy");
          turn 2 2 (write with_directory tt "ckpt/best_accuracy")];
       files_left := write with_directory tt "ckpt/best_accuracy";
       raised := None |}.
Proof.
  rewrite fit_setup, loop_step, one_epoch_better by lra.
  cbn [with_directory can_open].
  change (after (turn 1 1 ?fs)) with (state_at false 1 100 fs).
  rewrite loop_step, one_epoch_not_better. reflexivity.
Qed.

(** C4, a first epoch that does not write.  With the checkpoint
    directory missing, the first turn of the loop trains and validates
    (validation accuracy 100, above the -1 that [best_test_acc] starts
    from), and the write raises: the run ends in its first epoch and no
    checkpoint is written. *)
Lemma first_epoch_without_checkpoint :
  _train (net true) None (two_itr 0) tt 1 2 tt
  = Some (ln 2 / 2, 100, (net true, tt, two_itr 1, tt))
  /\ _valid (net true) None (two_itr 0) tt
     = Some (ln 2 / 2, 100, (net false, two_itr 1, tt))
  /\ -1 < 100
  /\ fit true (net true) (two_itr 0) (two_itr 0) tt two_epochs out_dir tt
       no_directory
     = {| history := []; files_left := no_directory; raised := Some OSError |}
  /\ file no_directory (os_path_join "ckpt" "best_accuracy") = None
  /\ saved no_directory = [].
Proof.
  split; [apply _train_two|]. split; [apply _valid_two|]. split; [lra|].
  split; [|now split].
  rewrite fit_setup, loop_step, one_epoch_better by lra. reflexivity.
Qed.

Lemma checkpoint_iff_strictly_better_witness :
  (saved (files (after (turn 2 2 (write with_directory tt "ckpt/best_accuracy"))))
   <> saved (write with_directory tt "ckpt/best_accuracy")
   <-> strictly_better
         [turn 1 1 (write with_directory tt "ckpt/best_accuracy");
          turn 2 2 (write with_directory tt "ckpt/best_accuracy")] 1
         (turn 2 2 (write with_directory tt "ckpt/best_accuracy")))
  /\ checkpoint_written out_dir with_directory
       (turn 1 1 (write with_directory tt "ckpt/best_accuracy")).
Proof.
  pose proof (proj1 (checkpoint_iff_strictly_better unit true (net true)
                       (two_itr 0) (two_itr 0) tt two_epochs out_dir tt
                       with_directory)) as H.
  rewrite fit_two_epochs in H. cbn [history] in H. split.
  - exact (proj1 (H 1%nat _ eq_refl _ _ eq_refl eq_refl)).
  - destruct (H 0%nat _ eq_refl _ _ eq_refl eq_refl) as (_ & H0 & Hw & _).
    exact (Hw (H0 eq_refl)).
Defined.

End TorchFacts.

(* ====================================================================== *)
(** * Properties of the arithmetic of the machine *)
(* ====================================================================== *)

Module MachineFacts.
Import Split Machine.
Import Lqa.
Local Open Scope Q_scope.

(** *** Powers of two and the binary logarithm *)

Lemma pow2_pos e : 0 < pow2 e.
Proof. apply Qpower_0_lt. reflexivity. Qed.

Lemma pow2_add a b : pow2 (a + b) == pow2 a * pow2 b.
Proof. apply Qpower_plus. discriminate. Qed.

Lemma pow2_nonneg e : (0 <= e)%Z -> pow2 e == inject_Z (2 ^ e).
Proof. intros H. unfold pow2. now rewrite Zpower_Qpower. Qed.

Lemma pow2_ge_1 e : (0 <= e)%Z -> 1 <= pow2 e.
Proof.
  intros H. rewrite pow2_nonneg by exact H.
  change 1 with (inject_Z 1). rewrite <- Zle_Qle.
  pose proof (Z.pow_pos_nonneg 2 e ltac:(lia) H). lia.
Qed.

Lemma pow2_le a b : (a <= b)%Z -> pow2 a <= pow2 b.
Proof.
  intros H. replace b with (a + (b - a))%Z by lia.
  rewrite pow2_add.
  pose proof (pow2_pos a). pose proof (pow2_ge_1 (b - a) ltac:(lia)).
  nra.
Qed.

Lemma pow2_lt_inv a b : pow2 a < pow2 b -> (a < b)%Z.
Proof.
  intros H. destruct (Z_lt_le_dec a b) as [|Hle]; [assumption|].
  apply pow2_le in Hle. lra.
Qed.

Lemma pow2_inv e : pow2 e * pow2 (- e) == 1.
Proof. rewrite <- pow2_add, Z.add_opp_diag_r. reflexivity. Qed.

(** [ilog2] *)
Lemma ilog2_le q : 0 < q -> pow2 (ilog2 q) <= q.
Proof.
  intros Hq. unfold ilog2.
  set (l := (Z.log2 (Qnum q) - Z.log2 (Z.pos (Qden q)))%Z).
  destruct (Qle_bool (pow2 l) q) eqn:E; [now apply Qle_bool_iff|].
  destruct q as [n d]. cbn [Qnum Qden] in *.
  assert (Hn : (0 < n)%Z) by (unfold Qlt in Hq; simpl in Hq; lia).
  pose proof (Z.log2_spec n Hn) as [Hn1 _].
  pose proof (Z.log2_spec (Z.pos d) ltac:(lia)) as [_ Hd2].
  pose proof (Z.log2_nonneg n). pose proof (Z.log2_nonneg (Z.pos d)).
  replace (l - 1)%Z with (Z.log2 n + - (Z.succ (Z.log2 (Z.pos d))))%Z
    by (subst l; lia).
  rewrite pow2_add.
  pose proof (pow2_inv (Z.succ (Z.log2 (Z.pos d)))) as Hinv.
  pose proof (pow2_pos (- Z.succ (Z.log2 (Z.pos d)))) as Hp.
  rewrite (pow2_nonneg (Z.succ _)) in Hinv by lia.
  rewrite (pow2_nonneg (Z.log2 n)) by lia.
  assert (H1 : inject_Z (2 ^ Z.log2 n) <= inject_Z n) by now rewrite <- Zle_Qle.
  assert (H2 : inject_Z (Z.pos d) <= inject_Z (2 ^ Z.succ (Z.log2 (Z.pos d))))
    by (rewrite <- Zle_Qle; lia).
  assert (H3 : n # d == inject_Z n / inject_Z (Z.pos d)).
  { rewrite Qmake_Qdiv. reflexivity. }
  rewrite H3.
  assert (Hd : 0 < inject_Z (Z.pos d)) by reflexivity.
  apply Qle_shift_div_l; [exact Hd|].
  set (P := pow2 (- Z.succ (Z.log2 (Z.pos d)))) in *.
  set (A := inject_Z (2 ^ Z.log2 n)) in *.
  set (B := inject_Z (2 ^ Z.succ (Z.log2 (Z.pos d)))) in *.
  set (D := inject_Z (Z.pos d)) in *.
  set (N := inject_Z n) in *.
  assert (0 <= A) by (subst A; change 0 with (inject_Z 0); rewrite <- Zle_Qle; lia).
  assert (HPD : P * D <= 1) by nra.
  nra.
Qed.

Lemma round_half_even_cases q :
  round_half_even q = (Qnum q / Z.pos (Qden q))%Z
  \/ (round_half_even q = (Qnum q / Z.pos (Qden q) + 1)%Z
      /\ (0 < Qnum q mod Z.pos (Qden q))%Z).
Proof.
  unfold round_half_even.
  pose proof (Z.mod_pos_bound (Qnum q) (Z.pos (Qden q)) ltac:(lia)) as Hm.
  destruct (2 * (Qnum q mod Z.pos (Qden q)) <? Z.pos (Qden q))%Z eqn:E1;
    [now left|].
  apply Z.ltb_ge in E1.
  destruct (Z.pos (Qden q) <? 2 * (Qnum q mod Z.pos (Qden q)))%Z;
    [right; split; [reflexivity|lia]|].
  destruct (Z.even _); [now left|right; split; [reflexivity|lia]].
Qed.

Lemma round_half_even_nonneg q : 0 <= q -> (0 <= round_half_even q)%Z.
Proof.
  intros Hq.
  assert (Hn : (0 <= Qnum q)%Z) by (unfold Qle in Hq; simpl in Hq; lia).
  pose proof (Z.div_pos (Qnum q) (Z.pos (Qden q)) Hn ltac:(lia)).
  destruct (round_half_even_cases q) as [->|[-> _]]; lia.
Qed.

Lemma round_half_even_int q k : q == inject_Z k -> round_half_even q = k.
Proof.
  intros Hq. unfold Qeq in Hq. simpl in Hq.
  assert (Hn : Qnum q = (k * Z.pos (Qden q))%Z) by lia.
  unfold round_half_even. rewrite Hn, Z.div_mul, Z.mod_mul by lia.
  simpl. reflexivity.
Qed.

Lemma round_half_even_le q K : q <= inject_Z K -> (round_half_even q <= K)%Z.
Proof.
  intros Hq. unfold Qle in Hq. simpl in Hq.
  pose proof (Z.div_mod (Qnum q) (Z.pos (Qden q)) ltac:(lia)) as Hd.
  pose proof (Z.mod_pos_bound (Qnum q) (Z.pos (Qden q)) ltac:(lia)) as Hm.
  destruct (round_half_even_cases q) as [->|[-> Hpos]]; nia.
Qed.

Lemma Qred_inject_Z z : Qred (inject_Z z) = inject_Z z.
Proof. apply Qcanon.Qred_identity. simpl. apply Z.gcd_1_r. Qed.

(** A positive rational whose scaled value is an integer is not changed. *)
Lemma round_pos_exact fmt w j q :
  (0 < w)%Z -> (0 <= j)%Z -> q == inject_Z (w * 2 ^ j) ->
  (w < 2 ^ prec fmt)%Z -> (0 < prec fmt)%Z -> (emin fmt <= j)%Z ->
  (prec fmt + j <= emax fmt)%Z ->
  round_pos fmt q = Num (inject_Z (w * 2 ^ j)).
Proof.
  intros Hw Hj Hq Hlt Hprec Hemin Hemax. unfold round_pos.
  set (e := Z.max (ilog2 q - prec fmt + 1) (emin fmt)).
  assert (Hpj : (0 < 2 ^ j)%Z) by (apply Z.pow_pos_nonneg; lia).
  assert (Hq0 : 0 < q).
  { rewrite Hq. change 0 with (inject_Z 0). rewrite <- Zlt_Qlt. nia. }
  assert (Hqw : q == inject_Z w * pow2 j).
  { rewrite Hq, inject_Z_mult, (pow2_nonneg j) by exact Hj. reflexivity. }
  assert (He : (e <= j)%Z).
  { assert (ilog2 q < prec fmt + j)%Z; [|subst e; lia].
    apply pow2_lt_inv.
    eapply Qle_lt_trans; [apply ilog2_le; exact Hq0|].
    rewrite Hqw, pow2_add, (pow2_nonneg (prec fmt)) by lia.
    pose proof (pow2_pos j).
    assert (inject_Z w < inject_Z (2 ^ prec fmt)) by now rewrite <- Zlt_Qlt.
    nra. }
  assert (Hscaled : q / pow2 e == inject_Z (w * 2 ^ (j - e))).
  { rewrite inject_Z_mult, <- (pow2_nonneg (j - e)) by lia.
    replace (j - e)%Z with (j + - e)%Z by lia. rewrite pow2_add, Hqw.
    pose proof (pow2_inv e) as Hinv. pose proof (pow2_pos e).
    apply Qmult_inj_r with (z := pow2 e); [lra|].
    setoid_replace (inject_Z w * pow2 j / pow2 e * pow2 e)
      with (inject_Z w * pow2 j) by (field; lra).
    setoid_replace (inject_Z w * (pow2 j * pow2 (- e)) * pow2 e)
      with (inject_Z w * pow2 j * (pow2 e * pow2 (- e))) by ring.
    rewrite Hinv. ring. }
  rewrite (round_half_even_int _ _ Hscaled).
  assert (Hr : inject_Z (w * 2 ^ (j - e)) * pow2 e == inject_Z (w * 2 ^ j)).
  { rewrite <- Hscaled, <- Hq. pose proof (pow2_pos e). field. lra. }
  assert (Hov : Qle_bool (pow2 (emax fmt)) (inject_Z (w * 2 ^ (j - e)) * pow2 e)
                = false).
  { destruct (Qle_bool _ _) eqn:E; [|reflexivity]. exfalso.
    apply Qle_bool_iff in E. rewrite Hr, <- Hq, Hqw in E.
    assert (pow2 (prec fmt + j) <= pow2 (emax fmt)) by now apply pow2_le.
    rewrite pow2_add, (pow2_nonneg (prec fmt)) in H by lia.
    pose proof (pow2_pos j).
    assert (inject_Z w < inject_Z (2 ^ prec fmt)) by now rewrite <- Zlt_Qlt.
    nra. }
  rewrite Hov. f_equal.
  transitivity (Qred (inject_Z (w * 2 ^ j)));
    [now apply Qred_complete|apply Qred_inject_Z].
Qed.

(** Rounding does not pass an integer that the format holds. *)
Lemma round_pos_le fmt q B :
  0 < q -> q <= inject_Z B -> (B < 2 ^ prec fmt)%Z -> (0 < prec fmt)%Z ->
  (emin fmt <= 0)%Z -> (prec fmt <= emax fmt)%Z ->
  exists r, round_pos fmt q = Num r /\ 0 <= r <= inject_Z B.
Proof.
  intros Hq HB Hlt Hprec Hemin Hemax. unfold round_pos.
  set (e := Z.max (ilog2 q - prec fmt + 1) (emin fmt)).
  assert (He : (e <= 0)%Z).
  { assert (ilog2 q < prec fmt)%Z; [|subst e; lia].
    apply pow2_lt_inv.
    eapply Qle_lt_trans; [apply ilog2_le; exact Hq|].
    rewrite (pow2_nonneg (prec fmt)) by lia.
    assert (inject_Z B < inject_Z (2 ^ prec fmt)) by now rewrite <- Zlt_Qlt.
    lra. }
  pose proof (pow2_pos e) as Hpe. pose proof (pow2_inv e) as Hinv.
  pose proof (pow2_pos (- e)) as Hpne.
  assert (Hscaled : q / pow2 e <= inject_Z (B * 2 ^ (- e))).
  { rewrite inject_Z_mult, <- (pow2_nonneg (- e)) by lia.
    apply Qle_shift_div_r; [exact Hpe|].
    setoid_replace (inject_Z B * pow2 (- e) * pow2 e)
      with (inject_Z B * (pow2 e * pow2 (- e))) by ring.
    rewrite Hinv. lra. }
  pose proof (round_half_even_le _ _ Hscaled) as Hm.
  assert (Hm0 : (0 <= round_half_even (q / pow2 e))%Z).
  { apply round_half_even_nonneg. apply Qle_shift_div_l; [exact Hpe|lra]. }
  set (m := round_half_even (q / pow2 e)) in *.
  assert (Hr : 0 <= inject_Z m * pow2 e <= inject_Z B).
  { assert (H0 : 0 <= inject_Z m)
      by (change 0 with (inject_Z 0); now rewrite <- Zle_Qle).
    assert (H1 : inject_Z m <= inject_Z B * pow2 (- e)).
    { rewrite (pow2_nonneg (- e)), <- inject_Z_mult by lia.
      now rewrite <- Zle_Qle. }
    split; [nra|].
    apply Qle_trans with (inject_Z B * pow2 (- e) * pow2 e); [nra|].
    setoid_replace (inject_Z B * pow2 (- e) * pow2 e)
      with (inject_Z B * (pow2 e * pow2 (- e))) by ring.
    rewrite Hinv. lra. }
  destruct (Qle_bool (pow2 (emax fmt)) (inject_Z m * pow2 e)) eqn:E.
  - exfalso. apply Qle_bool_iff in E.
    assert (pow2 (prec fmt) <= pow2 (emax fmt)) by now apply pow2_le.
    rewrite (pow2_nonneg (prec fmt)) in H by lia.
    assert (inject_Z B < inject_Z (2 ^ prec fmt)) by now rewrite <- Zlt_Qlt.
    lra.
  - eexists. split; [reflexivity|]. now rewrite Qred_correct.
Qed.

(** *** Signs *)

Lemma nonneg_weaken x : nonneg x -> nan_or_nonneg x.
Proof. now destruct x. Qed.

Lemma round_pos_nonneg fmt q : 0 < q -> nonneg (round_pos fmt q).
Proof.
  intros Hq. unfold round_pos.
  destruct (Qle_bool _ _); [reflexivity|]. cbn [nonneg].
  rewrite Qred_correct.
  pose proof (pow2_pos (Z.max (ilog2 q - prec fmt + 1) (emin fmt))) as Hp.
  assert (H0 : (0 <= round_half_even
                  (q / pow2 (Z.max (ilog2 q - prec fmt + 1) (emin fmt))))%Z).
  { apply round_half_even_nonneg. apply Qle_shift_div_l; [exact Hp|lra]. }
  apply Qmult_le_0_compat; [|lra].
  change 0 with (inject_Z 0). now rewrite <- Zle_Qle.
Qed.

Lemma round_nonneg fmt q : 0 <= q -> nonneg (round fmt q).
Proof.
  intros Hq. unfold round. destruct (Qcompare_spec q 0) as [H|H|H].
  - cbn. lra.
  - lra.
  - now apply round_pos_nonneg.
Qed.

Lemma negative_false q : 0 <= q -> negative q = false.
Proof.
  intros H. unfold negative. apply negb_false_iff. now apply Qle_bool_iff.
Qed.

Lemma add_nonneg fmt x y : nonneg x -> nonneg y -> nonneg (add fmt x y).
Proof.
  destruct x as [|a|a], y as [|b|b]; cbn; try tauto.
  - now intros -> ->.
  - intros Ha Hb. apply round_nonneg. lra.
Qed.

Lemma add_nan_or_nonneg fmt x y :
  nan_or_nonneg x -> nan_or_nonneg y -> nan_or_nonneg (add fmt x y).
Proof.
  destruct x as [|a|a], y as [|b|b]; cbn; try tauto.
  - now intros -> ->.
  - intros Ha Hb. apply nonneg_weaken, round_nonneg. lra.
Qed.

Lemma mul_100_nonneg fmt y : nonneg y -> nonneg (mul fmt (Num 100) y).
Proof.
  destruct y as [|b|b]; cbn; try tauto.
  - now intros ->.
  - intros Hb. apply round_nonneg. nra.
Qed.

Lemma div_nan_or_nonneg fmt x y :
  nan_or_nonneg x -> nonneg y -> nan_or_nonneg (div fmt x y).
Proof.
  destruct x as [|a|a], y as [|b|b]; cbn; try tauto.
  - intros -> Hb. now rewrite negative_false.
  - intros _ _. lra.
  - intros Ha Hb. destruct (Qeq_bool b 0) eqn:E.
    + destruct (Qeq_bool a 0); [exact I|]. cbn. now apply negative_false.
    + apply nonneg_weaken, round_nonneg.
      apply Qeq_bool_neq in E.
      apply Qle_shift_div_l; [|lra].
      destruct (Qlt_le_dec 0 b) as [|Hle]; [assumption|].
      exfalso. apply E. lra.
Qed.

(** *** The totals of the loops *)

Lemma of_Z_nonneg fmt z : (0 <= z)%Z -> nonneg (of_Z fmt z).
Proof.
  intros H. apply round_nonneg. change 0 with (inject_Z 0).
  now rewrite <- Zle_Qle.
Qed.

Lemma fits_binary32 : fits binary32.
Proof. unfold fits, emin. simpl. lia. Qed.

(** An integer below [2 ^ prec] is not changed. *)
Lemma round_Z fmt z q :
  fits fmt -> (0 <= z < 2 ^ prec fmt)%Z -> q == inject_Z z ->
  round fmt q = Num (inject_Z z).
Proof.
  intros (Hp & Hemin & Hemax) [H0 Hlt] Hq. unfold round.
  destruct (Qcompare_spec q 0) as [H|H|H].
  - rewrite Hq in H. unfold Qeq in H. simpl in H.
    assert (z = 0)%Z by lia. now subst z.
  - exfalso. rewrite Hq in H. change 0 with (inject_Z 0) in H.
    rewrite <- Zlt_Qlt in H. lia.
  - assert (Hz : (0 < z)%Z).
    { rewrite Hq in H. change 0 with (inject_Z 0) in H.
      now rewrite <- Zlt_Qlt in H. }
    rewrite (round_pos_exact fmt z 0 q); try lia.
    + now rewrite Z.mul_1_r.
    + now rewrite Z.mul_1_r.
Qed.

Lemma round_exact fmt w j q :
  fits fmt -> (0 < w < 2 ^ prec fmt)%Z -> (0 <= j)%Z ->
  (prec fmt + j <= emax fmt)%Z -> q == inject_Z (w * 2 ^ j) ->
  round fmt q = Num (inject_Z (w * 2 ^ j)).
Proof.
  intros (Hp & Hemin & Hemax) [Hw Hlt] Hj Hmax Hq.
  assert (Hpos : 0 < q).
  { rewrite Hq. change 0 with (inject_Z 0). rewrite <- Zlt_Qlt.
    pose proof (Z.pow_pos_nonneg 2 j ltac:(lia) Hj). nia. }
  unfold round. destruct (Qcompare_spec q 0) as [H|H|H]; try lra.
  apply round_pos_exact; try assumption; lia.
Qed.

(** [100.0 * corrects]: exact up to 671088, and at 671089 and 671090 not
    above the exact product. *)
Lemma mul_100_le c :
  (0 <= c < 671091)%Z ->
  exists r,
    round binary32 (100 * inject_Z c) = Num r
    /\ 0 <= r <= inject_Z (100 * c).
Proof.
  intros [H0 Hc].
  destruct (Z.eq_dec c 0) as [->|Hne].
  { exists 0. split; [reflexivity|]. split; vm_compute; discriminate. }
  destruct (Z_le_gt_dec c 671088) as [Hle|Hgt].
  - exists (inject_Z (25 * c * 2 ^ 2)). split.
    + apply round_exact; [apply fits_binary32| | | |].
      * change (prec binary32) with 24%Z. lia.
      * lia.
      * simpl. lia.
      * change 100 with (inject_Z 100). rewrite <- inject_Z_mult.
        apply inject_Z_injective. lia.
    + replace (25 * c * 2 ^ 2)%Z with (100 * c)%Z by lia.
      split; [|lra]. change 0 with (inject_Z 0). rewrite <- Zle_Qle. lia.
  - assert (Hcases : c = 671089%Z \/ c = 671090%Z) by lia.
    destruct Hcases as [-> | ->]; eexists;
      (split; [vm_compute; reflexivity|split; vm_compute; discriminate]).
Qed.

(** The division by the size: a quotient of at most 100 is rounded to at
    most 100. *)
Lemma div_le_100 r size :
  0 <= r <= inject_Z (100 * size) -> (0 < size < 2 ^ 24)%Z ->
  exists q,
    div binary32 (Num r) (of_Z binary32 size) = Num q /\ 0 <= q <= 100.
Proof.
  intros [Hr0 Hr] [Hs Hlt].
  assert (Hof : of_Z binary32 size = Num (inject_Z size))
    by (apply round_Z; [apply fits_binary32|split; [lia|exact Hlt]|reflexivity]).
  rewrite Hof. cbn [div].
  assert (Hsq : 0 < inject_Z size)
    by (change 0 with (inject_Z 0); now rewrite <- Zlt_Qlt).
  destruct (Qeq_bool (inject_Z size) 0) eqn:E.
  { apply Qeq_bool_iff in E. lra. }
  assert (Hquot : 0 <= r / inject_Z size <= 100).
  { split.
    - apply Qle_shift_div_l; [exact Hsq|lra].
    - apply Qle_shift_div_r; [exact Hsq|].
      rewrite inject_Z_mult in Hr. exact Hr. }
  unfold round. destruct (Qcompare_spec (r / inject_Z size) 0) as [H|H|H].
  - exists 0. split; [reflexivity|lra].
  - lra.
  - destruct (round_pos_le binary32 (r / inject_Z size) 100 H)
      as (q & Hq & Hb); try (simpl; lia).
    + apply Hquot.
    + unfold emin. simpl. lia.
    + exists q. split; [exact Hq|exact Hb].
Qed.

(** What a turn of a loop adds to the two totals: a count of at most the
    size of the batch, and a loss that is not negative or is a NaN. *)
Definition batch_adds (cl cl' : float * float) (b : Torch.Batch) : Prop :=
  exists k l,
    (k <= length (Torch.data (Torch.label b)))%nat
    /\ nan_or_nonneg l
    /\ fst cl' = add binary32 (fst cl) (of_Z binary32 (Z.of_nat k))
    /\ snd cl' = add binary64 (snd cl) l.

Lemma valid_batch_adds (N : Net) device st b st' :
  loss_not_negative N ->
  valid_batch (N := N) device st b = Some st' ->
  batch_adds (fst st) (fst st') b.
Proof.
  intros HN. destruct st as [[c l] m]. unfold valid_batch.
  destruct (forward N m false _) as [[logit m1]|]; [|discriminate].
  destruct (cross_entropy N logit _) as [loss|] eqn:E; [|discriminate].
  destruct (Nat.eqb _ _); [|discriminate]. intros H. injection H as <-.
  eexists. exists loss. repeat split.
  - rewrite <- (TorchFacts.target_length b device).
    apply TorchFacts.count_equal_le.
  - exact (HN _ _ _ E).
Qed.

Lemma train_batch_adds (N : Net) device st b st' :
  loss_not_negative N ->
  train_batch (N := N) device st b = Some st' ->
  batch_adds (fst st) (fst st') b.
Proof.
  intros HN. destruct st as [[c l] m]. unfold train_batch.
  destruct (forward N _ true _) as [[logit m1]|]; [|discriminate].
  destruct (cross_entropy N logit _) as [loss|] eqn:E; [|discriminate].
  destruct (Nat.eqb _ _); [|discriminate]. intros H. injection H as <-.
  eexists. exists loss. repeat split.
  - rewrite <- (TorchFacts.target_length b device).
    apply TorchFacts.count_equal_le.
  - exact (HN _ _ _ E).
Qed.

(** What the turns over [n] examples make of the totals: the signs stay,
    and a count that starts as an integer stays one, exactly, as long as
    the counts stay below 2^24. *)
Definition totals_ok (cl cl' : float * float) (n : nat) : Prop :=
  (nonneg (fst cl) -> nonneg (fst cl'))
  /\ (nan_or_nonneg (snd cl) -> nan_or_nonneg (snd cl'))
  /\ (forall z,
        (0 <= z)%Z -> (z + Z.of_nat n < 2 ^ 24)%Z ->
        fst cl = Num (inject_Z z) ->
        exists z',
          (z <= z' <= z + Z.of_nat n)%Z /\ fst cl' = Num (inject_Z z')).

Lemma step_totals cl cl' b :
  batch_adds cl cl' b ->
  totals_ok cl cl' (length (Torch.data (Torch.label b))).
Proof.
  intros (k & l & Hk & Hl & Hc & Hs). split; [|split].
  - intros H. rewrite Hc. apply add_nonneg; [exact H|].
    apply of_Z_nonneg. lia.
  - intros H. rewrite Hs. now apply add_nan_or_nonneg.
  - intros z Hz Hlt Hcl. exists (z + Z.of_nat k)%Z. split; [lia|].
    rewrite Hc, Hcl.
    assert (Hof : of_Z binary32 (Z.of_nat k) = Num (inject_Z (Z.of_nat k))).
    { apply round_Z; [apply fits_binary32| |reflexivity].
      change (prec binary32) with 24%Z. lia. }
    rewrite Hof. cbn [add]. apply round_Z.
    + apply fits_binary32.
    + change (prec binary32) with 24%Z. lia.
    + now rewrite inject_Z_plus.
Qed.

Lemma totals_refl cl : totals_ok cl cl 0.
Proof.
  split; [auto|split; [auto|]]. intros z Hz _ H. exists z. split; [lia|exact H].
Qed.

Lemma totals_trans a b c n m :
  totals_ok a b n -> totals_ok b c m -> totals_ok a c (n + m).
Proof.
  intros (A1 & A2 & A3) (B1 & B2 & B3). split; [auto|split; [auto|]].
  intros z Hz Hlt Ha.
  destruct (A3 z Hz ltac:(lia) Ha) as (z1 & Hz1 & Hb).
  destruct (B3 z1 ltac:(lia) ltac:(lia) Hb) as (z2 & Hz2 & Hc).
  exists z2. split; [lia|exact Hc].
Qed.

Lemma fold_totals {S} (f : float * float * S -> Torch.Batch ->
                          option (float * float * S)) :
  (forall st b st', f st b = Some st' -> batch_adds (fst st) (fst st') b) ->
  forall bs st st',
    Torch.foldM f bs st = Some st' ->
    totals_ok (fst st) (fst st') (Torch.examples bs).
Proof.
  intros Hf. induction bs as [|b bs IH]; intros st st' H.
  - injection H as <-. apply totals_refl.
  - cbn [Torch.foldM] in H. apply TorchFacts.obind_Some in H.
    destruct H as (st1 & E & H).
    change (Torch.examples (b :: bs))
      with (length (Torch.data (Torch.label b)) + Torch.examples bs)%nat.
    eapply totals_trans; [apply step_totals, (Hf _ _ _ E)|now apply IH].
Qed.

(** The two values reported, from totals that started at zero. *)
Lemma report_bounds c tl size :
  totals_ok (Num 0, Num 0) (c, tl) size -> size <> O ->
  nan_or_nonneg (div binary64 tl (of_Z binary64 (Z.of_nat size)))
  /\ nan_or_nonneg
       (div binary32 (mul binary32 (Num 100) c)
          (of_Z binary32 (Z.of_nat size)))
  /\ ((Z.of_nat size < 671091)%Z ->
      exists q,
        div binary32 (mul binary32 (Num 100) c)
          (of_Z binary32 (Z.of_nat size)) = Num q
        /\ 0 <= q <= 100).
Proof.
  intros (Hc & Htl & Hcount) Hn. cbn [fst snd] in Hc, Htl, Hcount.
  assert (H0 : 0 <= 0) by lra.
  split; [|split].
  - apply div_nan_or_nonneg; [now apply Htl|apply of_Z_nonneg; lia].
  - apply div_nan_or_nonneg; [|apply of_Z_nonneg; lia].
    apply nonneg_weaken, mul_100_nonneg. now apply Hc.
  - intros Hsize.
    destruct (Hcount 0%Z ltac:(lia) ltac:(simpl; lia) eq_refl)
      as (z & Hz & ->).
    cbn [mul].
    destruct (mul_100_le z ltac:(lia)) as (r & -> & Hr0 & Hr).
    apply div_le_100; [|simpl; lia].
    split; [exact Hr0|].
    eapply Qle_trans; [exact Hr|]. rewrite <- Zle_Qle. lia.
Qed.

(** C8, as the machine computes.  With a cross-entropy that is not below
    zero or is a NaN, over an iterator that covers its dataset, the loss
    that [_valid] and [_train] return is a number not below zero, the
    positive infinity or a NaN, and so is the accuracy; over a dataset of
    fewer than 671091 examples the accuracy is a number between 0 and
    100. *)
Theorem loss_accuracy_bounds (N : Net) (m : State N)
    (device : option Torch.Device) (itr : Torch.Iterator)
    (epoch max_epoch : nat) (l a : float) (st : State N * Torch.Iterator) :
  loss_not_negative N -> Torch.covers itr ->
  _valid m device itr = Some (l, a, st)
  \/ _train m device itr epoch max_epoch = Some (l, a, st) ->
  nan_or_nonneg l /\ nan_or_nonneg a
  /\ ((Z.of_nat (Torch.dataset_len itr) < 671091)%Z ->
      exists q, a = Num q /\ 0 <= q <= 100).
Proof.
  intros HN Hcov [H|H].
  - unfold _valid in H. cbn [Torch.iterate Torch.dataset_len] in H.
    destruct (Torch.foldM _ _ _) as [[[c tl] m']|] eqn:E; [|discriminate].
    destruct (Nat.eqb_spec (Torch.dataset_len itr) 0) as [|Hn];
      [discriminate|].
    injection H as <- <- _.
    apply (fold_totals _ (fun st b st' => valid_batch_adds N device st b st' HN))
      in E.
    cbn [fst] in E. unfold Torch.covers in Hcov. rewrite Hcov in E.
    now apply report_bounds.
  - unfold _train in H. cbn [Torch.iterate Torch.dataset_len] in H.
    destruct (Torch.foldM _ _ _) as [[[c tl] m']|] eqn:E; [|discriminate].
    destruct (Nat.eqb_spec (Torch.dataset_len itr) 0) as [|Hn];
      [discriminate|].
    injection H as <- <- _.
    apply (fold_totals _ (fun st b st' => train_batch_adds N device st b st' HN))
      in E.
    cbn [fst] in E. unfold Torch.covers in Hcov. rewrite Hcov in E.
    now apply report_bounds.
Qed.

(** *** A dataset on which every prediction is correct

    A classifier that names the first class for every example, and is so
    sure of it that the cross-entropy rounds to zero; [n] examples of
    the first class, in one batch. *)

Definition sure : Net := {|
  State := unit;
  Logit := list (list nat);
  forward := fun m _ x => Some (x, m);
  cross_entropy := fun logit target =>
    if Nat.eqb (length logit) (length target) then Some (Num 0) else None;
  torch_max := fun logit => map (fun _ => O) logit;
  zero_grad := fun m => m;
  backward := fun m _ _ => m;
  step := fun m => m
|}.

Definition one_batch (n : nat) : Torch.Iterator :=
  {| Torch.dataset_len := n;
     Torch.pass := fun _ =>
       [{| Torch.text := Torch.tensor Torch.cpu [repeat 3%nat n];
           Torch.label := Torch.tensor Torch.cpu (repeat 1%nat n) |}];
     Torch.passes := 0 |}.

Lemma sure_loss : loss_not_negative sure.
Proof.
  intros logit target l. cbn [cross_entropy sure].
  destruct (Nat.eqb _ _); [|discriminate].
  intros H. injection H as <-. cbn. lra.
Qed.

Lemma zip_cons_nil {A} (row : list A) :
  Torch.zip_cons row [] = map (fun x => [x]) row.
Proof. induction row as [|x row IH]; [reflexivity|]. simpl. now rewrite IH. Qed.

Lemma count_all n : Torch.count_equal (repeat O n) (repeat 0%Z n) = n.
Proof.
  unfold Torch.count_equal. induction n as [|n IH]; [reflexivity|].
  simpl. now rewrite IH.
Qed.

Lemma _valid_one_batch n :
  n <> O ->
  _valid (N := sure) tt None (one_batch n)
  = Some (div binary64 (add binary64 (Num 0) (Num 0))
            (of_Z binary64 (Z.of_nat n)),
          div binary32
            (mul binary32 (Num 100)
               (add binary32 (Num 0) (of_Z binary32 (Z.of_nat n))))
            (of_Z binary32 (Z.of_nat n)),
          (tt, snd (Torch.iterate (one_batch n)))).
Proof.
  intros Hn. unfold _valid.
  cbn [Torch.iterate one_batch Torch.pass Torch.passes Torch.dataset_len
       Torch.foldM].
  unfold valid_batch.
  cbn [Torch.text Torch.label Torch.to Torch.transpose Torch.sub_ Torch.data
       Torch.place fold_right forward cross_entropy torch_max sure].
  rewrite zip_cons_nil, !map_repeat, !repeat_length, Nat.eqb_refl.
  change (Z.of_nat 1 - 1)%Z with 0%Z. rewrite count_all.
  cbn [Torch.obind].
  destruct (Nat.eqb_spec n 0); [contradiction|reflexivity].
Qed.

(** C8, an accuracy above 100.  On 671091 examples, all of them
    classified correctly, [100.0 * corrects] is 67109100, which binary32
    rounds to 67109104, and the quotient by 671091 rounds to
    100.00000762939453: the accuracy returned is above 100. *)
Lemma accuracy_above_100 :
  _valid (N := sure) tt None (one_batch (Z.to_nat 671091))
  = Some (Num 0, Num (13107201 # 131072),
          (tt, snd (Torch.iterate (one_batch (Z.to_nat 671091)))))
  /\ mul binary32 (Num 100) (of_Z binary32 671091) = Num 67109104
  /\ 100 < 13107201 # 131072.
Proof.
  split; [|split; [vm_compute; reflexivity|reflexivity]].
  rewrite _valid_one_batch by lia.
  rewrite Z2Nat.id by lia.
  replace (div binary64 (add binary64 (Num 0) (Num 0)) (of_Z binary64 671091))
    with (Num 0) by (vm_compute; reflexivity).
  replace (div binary32
             (mul binary32 (Num 100)
                (add binary32 (Num 0) (of_Z binary32 671091)))
             (of_Z binary32 671091))
    with (Num (13107201 # 131072)) by (vm_compute; reflexivity).
  reflexivity.
Qed.

(** At these operands the arithmetic above is that of the specification
    of IEEE 754 in the Standard Library. *)
Lemma accuracy_above_100_spec :
  of_spec
    (SpecFloat.SFdiv 24 128
       (SpecFloat.SFmul 24 128 (spec_of_Z binary32 100)
          (spec_of_Z binary32 671091))
       (spec_of_Z binary32 671091))
  = div binary32 (mul binary32 (Num 100) (of_Z binary32 671091))
      (of_Z binary32 671091).
Proof. vm_compute. reflexivity. Qed.

(** So it is at other operands: integers beyond 2^24 and 2^53, ties,
    quotients that do not end, subnormal numbers and the overflow. *)
Lemma arithmetic_agrees :
  forallb (fun fmt => forallb (agrees fmt)
    [((100, 0), (671091, 0)); ((67109104, 0), (671091, 0));
     ((671089, 0), (100, 0)); ((16777217, 0), (3, 0));
     ((9007199254740993, 0), (7, 0)); ((1, 0), (3, 0)); ((7, 0), (10, 0));
     ((31, -1), (45, 0)); ((1, -100), (3, 45)); ((3, -149), (2, 0));
     ((1, -1074), (3, 0)); ((16777215, 104), (16777215, 104));
     ((3, 100), (3, 100)); ((1, 1023), (1, 1023)); ((1, 0), (1, -1070))]%Z)
    [binary32; binary64]
  = true.
Proof. vm_compute. reflexivity. Qed.

(** A classifier whose scores are not finite: its cross-entropy is a
    NaN, which [_valid] returns. *)
Definition diverged : Net := {|
  State := unit;
  Logit := list (list nat);
  forward := fun m _ x => Some (x, m);
  cross_entropy := fun _ _ => Some NaN;
  torch_max := fun logit => map (fun _ => O) logit;
  zero_grad := fun m => m;
  backward := fun m _ _ => m;
  step := fun m => m
|}.

Lemma nan_loss_is_returned :
  _valid (N := diverged) tt None (one_batch 1)
  = Some (NaN, Num 100, (tt, snd (Torch.iterate (one_batch 1)))).
Proof. vm_compute. reflexivity. Qed.

Lemma loss_accuracy_bounds_witness :
  nan_or_nonneg (Num 0) /\ nan_or_nonneg (Num 100)
  /\ ((Z.of_nat 2 < 671091)%Z -> exists q, Num 100 = Num q /\ 0 <= q <= 100).
Proof.
  apply (loss_accuracy_bounds sure tt None (one_batch 2) 1 1 (Num 0) (Num 100)
           (tt, snd (Torch.iterate (one_batch 2))) sure_loss eq_refl).
  left. vm_compute. reflexivity.
Defined.

End MachineFacts.

(* ====================================================================== *)
(** * Further properties of the text normaliser *)
(* ====================================================================== *)

Module TextMore.
Import Text TextFacts.
Local Open Scope N_scope.
Local Open Scope list_scope.

(** A word without whitespace. *)
Definition not_blank (w : text) : Prop :=
  w <> [] /\ Forall (fun c => is_space c = false) w.

Definition all_kept (w : text) : Prop := Forall (fun c => kept c = true) w.

(** The quote of the contraction suffixes. *)
Definition quote : char := 39.

(** A word of letters, digits and backquotes: kept characters that are
    neither punctuation marks nor the quote. *)
Definition plain (w : text) : Prop :=
  Forall (fun c => kept c = true /\ is_punct c = false /\ c <> quote) w.

(** *** The words of a result *)

Lemma kept_not_space c : kept c = true -> is_space c = false.
Proof.
  intros K. destruct (is_space c) eqn:E; [|reflexivity].
  apply kept_bound in K. apply is_space_bound in E. lia.
Qed.

Lemma words_of_kinds s v :
  In v (words_of s) ->
  v <> [] /\ no_space v
  /\ (In v punct_tokens \/ (no_punct v /\ all_kept v)).
Proof.
  intros Hv. destruct (tokens_spec _ _ Hv) as [Hne Hsp].
  split; [exact Hne|]. split; [exact Hsp|].
  unfold words_of, spaced in Hv. rewrite punct_flat_map in Hv.
  destruct (tokens_punct (contr (step1 s)) [] v (Forall_nil _) Hv)
    as [H|[Hpu (a & b & E)]]; [now left|right].
  split; [exact Hpu|]. simpl in E.
  apply Forall_forall. intros c Hc.
  assert (Hin : In c (contr (step1 s))).
  { rewrite E. apply in_or_app. right. apply in_or_app. now left. }
  destruct (contr_chars s c Hin) as [K| ->]; [exact K|].
  exfalso. exact (proj1 (Forall_forall _ _) Hsp _ Hc eq_refl).
Qed.

Lemma punct_token_chars v :
  In v punct_tokens ->
  Forall (fun c => is_space c = false) v
  /\ Forall (fun c => kept c = true \/ c = backslash) v
  /\ exists c, In c v /\ kept c = true.
Proof.
  simpl. intros [<-|[<-|[<-|[<-|[<-|[]]]]]];
    (split; [repeat constructor|split;
       [repeat (apply Forall_cons || apply Forall_nil);
        first [left; reflexivity|right; reflexivity]|]]).
  - exists 44. split; [now left|reflexivity].
  - exists 33. split; [now left|reflexivity].
  - exists 40. split; [right; now left|reflexivity].
  - exists 41. split; [right; now left|reflexivity].
  - exists 63. split; [right; now left|reflexivity].
Qed.

Lemma word_not_blank s v : In v (words_of s) -> not_blank v.
Proof.
  intros Hv. destruct (words_of_kinds s v Hv) as (Hne & _ & [H|[_ H]]).
  - split; [exact Hne|]. now apply punct_token_chars.
  - split; [exact Hne|]. eapply Forall_impl; [|exact H].
    intros c. apply kept_not_space.
Qed.

Lemma tokens_clean_str s : tokens (clean_str s) = words_of s.
Proof.
  rewrite clean_str_words, tokens_unwords. apply flat_map_fixed.
  intros v Hv. destruct (tokens_spec _ _ Hv) as [Hne Hsp].
  now apply tokens_word.
Qed.

(** *** Whitespace of a result *)

Lemma unwords_nonnil w ws : w <> [] -> unwords (w :: ws) <> [].
Proof.
  intros Hw. rewrite unwords_cons. destruct w; [congruence|discriminate].
Qed.

Lemma unwords_head ws : Forall not_blank ws ->
  forall c t, unwords ws = c :: t -> is_space c = false.
Proof.
  intros H. destruct H as [|w ws [Hne Hw] _]; intros c t E; [discriminate|].
  rewrite unwords_cons in E. destruct w as [|x w]; [congruence|].
  simpl in E. injection E as <- _. now inversion Hw.
Qed.

Lemma unwords_last ws : Forall not_blank ws ->
  forall a c, unwords ws = a ++ [c] -> is_space c = false.
Proof.
  induction 1 as [|w ws [Hne Hw] Hws IH]; intros a c E.
  - now destruct a.
  - destruct ws as [|w' ws].
    + simpl in E. subst w. apply Forall_app in Hw. destruct Hw as [_ Hw].
      now inversion Hw.
    + change (unwords (w :: w' :: ws))
        with (w ++ space :: unwords (w' :: ws)) in E.
      assert (Hn : unwords (w' :: ws) <> []).
      { apply unwords_nonnil. inversion Hws as [|? ? [H _] _]. exact H. }
      destruct (exists_last Hn) as (u & z & Hu).
      rewrite Hu in E.
      change (w ++ space :: u ++ [z]) with (w ++ (space :: u) ++ [z]) in E.
      rewrite app_assoc in E. apply app_inj_tail in E. destruct E as [_ <-].
      now apply (IH u z).
Qed.

Lemma split_pair {A} (x y : list A) : forall a c d b,
  x ++ y = a ++ c :: d :: b ->
  (exists b', x = a ++ c :: d :: b')
  \/ (x = a ++ [c] /\ y = d :: b)
  \/ (exists a', a = x ++ a' /\ y = a' ++ c :: d :: b).
Proof.
  induction x as [|h x IH]; intros a c d b E.
  - right. right. now exists a.
  - destruct a as [|h' a]; simpl in E; injection E as <- E.
    + destruct x as [|h2 x]; simpl in E.
      * right. left. now split.
      * injection E as <- E. left. now exists x.
    + destruct (IH _ _ _ _ E) as [[b' ->]|[[-> ->]|[a' [-> ->]]]].
      * left. now exists b'.
      * right. left. now split.
      * right. right. now exists a'.
Qed.

Lemma unwords_adjacent ws : Forall not_blank ws ->
  forall a c d b, unwords ws = a ++ c :: d :: b ->
                  is_space c = true -> is_space d = false.
Proof.
  induction 1 as [|w ws [Hne Hw] Hws IH]; intros a c d b E Hc.
  - now destruct a.
  - assert (Hin : forall x y, w = x ++ c :: y -> False).
    { intros x y ->. apply Forall_app in Hw. destruct Hw as [_ Hw].
      inversion Hw; congruence. }
    destruct ws as [|w' ws].
    + simpl in E. exfalso. now apply (Hin a (d :: b)).
    + change (unwords (w :: w' :: ws))
        with (w ++ space :: unwords (w' :: ws)) in E.
      apply split_pair in E.
      destruct E as [[b' E]|[[E _]|[a' [_ E]]]].
      * exfalso. now apply (Hin a (d :: b')).
      * exfalso. now apply (Hin a []).
      * destruct a' as [|h a']; simpl in E; injection E as _ E.
        -- now apply (unwords_head _ Hws d b).
        -- now apply (IH a' c d b).
Qed.

(** X1. The result has no whitespace at its start or at its end, and no two
    whitespace characters in a row. *)
Theorem clean_str_trimmed (s : text) :
  (forall c t, clean_str s = c :: t -> is_space c = false)
  /\ (forall a c, clean_str s = a ++ [c] -> is_space c = false)
  /\ (forall a c d b, clean_str s = a ++ c :: d :: b ->
        is_space c = true -> is_space d = false).
Proof.
  assert (H : Forall not_blank (words_of s)).
  { apply Forall_forall. intros v. apply word_not_blank. }
  rewrite clean_str_words. split; [|split].
  - now apply unwords_head.
  - now apply unwords_last.
  - now apply unwords_adjacent.
Qed.

(** X2. Split at the spaces, the result is made of words each of which is
    one of [,] [!] [\(] [\)] [\?] or holds no punctuation mark at all. *)
Theorem clean_str_punctuation_apart (s : text) :
  Forall (fun w => In w punct_tokens \/ no_punct w) (tokens (clean_str s)).
Proof.
  rewrite tokens_clean_str. apply Forall_forall. intros v Hv.
  destruct (words_of_kinds s v Hv) as (_ & _ & [H|[H _]]); auto.
Qed.

(** *** The kept characters *)

Lemma filter_after_word (f : char -> bool) s :
  f space = false ->
  filter f (after_word s) = filter f (unwords (tokens s)).
Proof.
  intros Hf. unfold after_word. destruct s as [|c s]; [reflexivity|].
  destruct (c =? space); [|reflexivity].
  destruct (unwords (tokens (c :: s))); [reflexivity|].
  simpl. now rewrite Hf.
Qed.

Lemma filter_unwords_tokens (f : char -> bool) x :
  f space = false -> filter f (unwords (tokens x)) = filter f x.
Proof.
  intros Hf. induction x as [|c x IH]; [reflexivity|].
  destruct (N.eqb_spec c space) as [->|Hc].
  - rewrite tokens_space, IH. simpl. now rewrite Hf.
  - rewrite (unwords_tokens_cons c x Hc). simpl.
    now rewrite filter_after_word, IH.
Qed.

Lemma filter_kept_step1 s : filter kept (step1 s) = filter kept s.
Proof.
  rewrite step1_map. induction s as [|c s IH]; [reflexivity|].
  simpl. destruct (kept c) eqn:K.
  - rewrite K. now rewrite IH.
  - change (kept space) with false. exact IH.
Qed.

Lemma filter_kept_Ins s t : Ins s t -> filter kept t = filter kept s.
Proof.
  induction 1 as [|c s t _ IH|s t _ IH]; [reflexivity| |exact IH].
  simpl. now rewrite IH.
Qed.

Lemma filter_kept_punct_char c : filter kept (punct_char c) = filter kept [c].
Proof.
  unfold punct_char.
  repeat match goal with
         | |- context [c =? ?k] =>
             destruct (N.eqb_spec c k) as [->|_]; [reflexivity|]
         end.
  reflexivity.
Qed.

Lemma filter_kept_punct s : filter kept (punct s) = filter kept s.
Proof.
  rewrite punct_flat_map. induction s as [|c s IH]; [reflexivity|].
  cbn [flat_map]. rewrite filter_app, filter_kept_punct_char, IH.
  simpl. now destruct (kept c).
Qed.

Lemma in_unwords ws c :
  In c (unwords ws) -> c = space \/ exists w, In w ws /\ In c w.
Proof.
  induction ws as [|w ws IH]; intros H; [destruct H|].
  rewrite unwords_cons in H. apply in_app_or in H. destruct H as [H|H].
  - right. exists w. split; [now left|exact H].
  - destruct ws as [|w' ws]; [destruct H|].
    destruct H as [<-|H]; [now left|].
    destruct (IH H) as [->|(v & Hv & Hc)]; [now left|].
    right. exists v. split; [now right|exact Hc].
Qed.

Lemma filter_kept_clean_str s : filter kept (clean_str s) = filter kept s.
Proof.
  rewrite clean_str_words. unfold words_of, spaced.
  rewrite filter_unwords_tokens by reflexivity.
  rewrite filter_kept_punct, (filter_kept_Ins _ _ (contr_Ins _)).
  apply filter_kept_step1.
Qed.

(** X3. The characters that the first substitution keeps pass through in
    their order, and nothing is added to them but spaces and
    backslashes. *)
Theorem clean_str_keeps (s : text) :
  filter kept (clean_str s) = filter kept s
  /\ Forall (fun c => kept c = true \/ c = space \/ c = backslash)
       (clean_str s).
Proof.
  split; [apply filter_kept_clean_str|].
  rewrite clean_str_words. apply Forall_forall. intros c Hc.
  destruct (in_unwords _ _ Hc) as [->|(w & Hw & Hcw)]; [auto|].
  destruct (tokens_sub _ _ Hw) as (a & b & E).
  apply (spaced_chars s). rewrite E.
  apply in_or_app. right. apply in_or_app. now left.
Qed.

Lemma filter_nil_Forall (f : char -> bool) s :
  filter f s = [] -> Forall (fun c => f c = false) s.
Proof.
  induction s as [|c s IH]; simpl; [constructor|].
  destruct (f c) eqn:E; [discriminate|]. intros H. constructor; auto.
Qed.

Lemma Forall_filter_nil (f : char -> bool) s :
  Forall (fun c => f c = false) s -> filter f s = [].
Proof.
  induction 1 as [|c s Hc _ IH]; [reflexivity|]. simpl. now rewrite Hc.
Qed.

Lemma word_has_kept s v :
  In v (words_of s) -> exists c, In c v /\ kept c = true.
Proof.
  intros Hv. destruct (words_of_kinds s v Hv) as (Hne & _ & [H|[_ H]]).
  - now apply punct_token_chars.
  - destruct v as [|c v]; [congruence|]. exists c.
    split; [now left|now inversion H].
Qed.

(** X4. The result is empty exactly when the input holds no character that
    the first substitution keeps. *)
Theorem clean_str_empty_iff (s : text) :
  clean_str s = [] <-> Forall (fun c => kept c = false) s.
Proof.
  split.
  - intros H. apply filter_nil_Forall.
    rewrite <- (filter_kept_clean_str s), H. reflexivity.
  - intros H. apply Forall_filter_nil in H.
    rewrite <- (filter_kept_clean_str s) in H.
    rewrite clean_str_words in H |- *.
    destruct (words_of s) as [|w ws] eqn:E; [reflexivity|exfalso].
    destruct (word_has_kept s w) as (c & Hc & K); [rewrite E; now left|].
    assert (Hin : In c (filter kept (unwords (w :: ws)))).
    { apply filter_In. split; [|exact K].
      rewrite unwords_cons. apply in_or_app. now left. }
    rewrite H in Hin. destruct Hin.
Qed.

(** *** Plain words and contractions *)

Lemma plain_no_quote w : plain w -> Forall (fun c => c <> quote) w.
Proof. apply Forall_impl. intros c (_ & _ & H). exact H. Qed.

Lemma contraction_has_quote p : In p contractions -> In quote p.
Proof.
  simpl. intros [<-|[<-|[<-|[<-|[<-|[<-|[]]]]]]]; simpl; auto.
Qed.

Lemma plain_head_only w p : plain w -> In p contractions -> head_only p w.
Proof.
  intros Hw Hp a b E. exfalso.
  apply contraction_has_quote in Hp.
  apply plain_no_quote in Hw. rewrite E in Hw.
  apply Forall_app in Hw. destruct Hw as [_ Hw].
  apply Forall_app in Hw. destruct Hw as [Hw _].
  exact (proj1 (Forall_forall _ _) Hw _ Hp eq_refl).
Qed.

(** X5. A string of letters, digits and backquotes is returned as it is. *)
Theorem clean_str_plain (w : text) : plain w -> clean_str w = w.
Proof.
  intros Hw. destruct w as [|c w]; [reflexivity|].
  rewrite clean_str_words, words_of_plain; [reflexivity|discriminate| | | |].
  - eapply Forall_impl; [|exact Hw]. intros x (K & _ & _) ->. discriminate.
  - eapply Forall_impl; [|exact Hw]. now intros x (_ & H & _).
  - eapply Forall_impl; [|exact Hw]. now intros x (H & _ & _).
  - intros p Hp. now apply plain_head_only.
Qed.

Lemma clean_str_plain_witness :
  plain (str "abc9") /\ clean_str (str "abc9") = str "abc9".
Proof.
  assert (H : plain (str "abc9")).
  { repeat constructor; discriminate. }
  split; [exact H|exact (clean_str_plain (str "abc9") H)].
Defined.

(** The part of a string before its first quote, and the part after. *)
Fixpoint before_quote (t : text) : text :=
  match t with
  | [] => []
  | c :: t' => if c =? quote then [] else c :: before_quote t'
  end.

Fixpoint after_quote (t : text) : text :=
  match t with
  | [] => []
  | c :: t' => if c =? quote then t' else after_quote t'
  end.

Definition no_quote (t : text) : Prop := Forall (fun c => c <> quote) t.

Lemma split_quote t :
  In quote t -> t = before_quote t ++ quote :: after_quote t.
Proof.
  induction t as [|c t IH]; intros H; [destruct H|].
  simpl. destruct (N.eqb_spec c quote) as [->|Hc]; [reflexivity|].
  destruct H as [H|H]; [congruence|]. simpl. f_equal. now apply IH.
Qed.

Lemma no_quote_before t : no_quote (before_quote t).
Proof.
  induction t as [|c t IH]; simpl; [constructor|].
  destruct (N.eqb_spec c quote); [constructor|now constructor].
Qed.

(** A string with one quote splits around a quote in one way only. *)
Lemma one_quote x : forall y u v,
  no_quote x -> no_quote y ->
  x ++ quote :: y = u ++ quote :: v -> x = u /\ y = v.
Proof.
  induction x as [|c x IH]; intros y u v Hx Hy E.
  - destruct u as [|d u]; simpl in E.
    + injection E as E. now split.
    + exfalso. injection E as E1 E2. subst y.
      apply Forall_app in Hy. destruct Hy as [_ Hy].
      inversion Hy; congruence.
  - inversion Hx as [|c' x' Hc Hx']; subst.
    destruct u as [|d u]; simpl in E.
    + exfalso. injection E as E1 E2. congruence.
    + injection E as E1 E2. subst d.
      destruct (IH _ _ _ Hx' Hy E2) as [-> ->]. now split.
Qed.

Lemma occurs_quote q w t a b :
  no_quote w -> In quote q -> In quote t -> no_quote (after_quote t) ->
  w ++ t = a ++ q ++ b ->
  w ++ before_quote t = a ++ before_quote q
  /\ after_quote t = after_quote q ++ b.
Proof.
  intros Hw Hq Ht Hat E.
  rewrite (split_quote t Ht), (split_quote q Hq) in E.
  rewrite app_assoc in E.
  replace (a ++ (before_quote q ++ quote :: after_quote q) ++ b)
    with ((a ++ before_quote q) ++ quote :: (after_quote q ++ b)) in E
    by (now rewrite <- !app_assoc).
  apply one_quote in E; [exact E| |exact Hat].
  apply Forall_app. split; [exact Hw|apply no_quote_before].
Qed.

Lemma absent_next_to q w t :
  no_quote w -> In quote q -> In quote t -> no_quote (after_quote t) ->
  starts_with (after_quote q) (after_quote t) = false ->
  ~ occurs q (w ++ t).
Proof.
  intros Hw Hq Ht Hat Hs (a & b & E).
  destruct (occurs_quote q w t a b Hw Hq Ht Hat E) as [_ E2].
  rewrite E2, starts_with_app in Hs. discriminate.
Qed.

Lemma sub_at_end p r w :
  p <> [] -> (forall a b, w ++ p = a ++ p ++ b -> a = w) ->
  re_sub_lit p r (w ++ p) = w ++ r.
Proof.
  intros Hp. induction w as [|c w IH]; intros Hu.
  - simpl. rewrite <- (app_nil_r p) at 2.
    rewrite re_sub_lit_match by exact Hp. now rewrite app_nil_r.
  - simpl. rewrite re_sub_lit_skip.
    + f_equal. apply IH. intros a b E.
      assert (H : c :: a = c :: w) by (apply (Hu (c :: a) b); simpl; now rewrite E).
      now injection H.
    + destruct (starts_with p (c :: w ++ p)) eqn:E; [|reflexivity].
      destruct (starts_with_inv _ _ E) as [t Ht].
      specialize (Hu [] t Ht). discriminate.
Qed.

Lemma fold_absent pats x :
  Forall (fun q => q <> [] /\ ~ occurs q x) pats ->
  fold_left space_before pats x = x.
Proof.
  induction 1 as [|q pats [Hq Ho] _ IH]; [reflexivity|].
  simpl. unfold space_before at 2.
  now rewrite re_sub_lit_absent.
Qed.

Ltac absent_all :=
  repeat (apply Forall_cons || apply Forall_nil);
  (split; [discriminate|]);
  (apply absent_next_to;
   [assumption|simpl; auto 6|simpl; auto 6
   |repeat constructor; discriminate|reflexivity]).

Lemma contr_suffix w p :
  plain w -> In p contractions -> contr (w ++ p) = w ++ space :: p.
Proof.
  intros Hw Hp. apply plain_no_quote in Hw. fold (no_quote w) in Hw.
  assert (Hm : forall q, In quote q -> no_quote (after_quote q) -> q <> [] ->
                         space_before (w ++ q) q = w ++ space :: q).
  { intros q Hq Haq Hne. unfold space_before. apply sub_at_end; [exact Hne|].
    intros a b E.
    destruct (occurs_quote q w q a b Hw Hq Hq Haq E) as [E1 _].
    now apply app_inv_tail in E1. }
  rewrite contr_fold. unfold contractions in *.
  simpl in Hp. destruct Hp as [<-|[<-|[<-|[<-|[<-|[<-|[]]]]]]].
  - change (fold_left space_before _ (w ++ str "'s"))
      with (fold_left space_before
              [str "'ve"; str "n't"; str "'re"; str "'d"; str "'ll"]
              (space_before (w ++ str "'s") (str "'s"))).
    rewrite Hm; [|simpl; auto|repeat constructor; discriminate|discriminate].
    apply fold_absent. absent_all.
  - change (fold_left space_before _ (w ++ str "'ve"))
      with (fold_left space_before
              [str "n't"; str "'re"; str "'d"; str "'ll"]
              (space_before
                 (fold_left space_before [str "'s"] (w ++ str "'ve"))
                 (str "'ve"))).
    rewrite (fold_absent [str "'s"]) by absent_all.
    rewrite Hm; [|simpl; auto|repeat constructor; discriminate|discriminate].
    apply fold_absent. absent_all.
  - change (fold_left space_before _ (w ++ str "n't"))
      with (fold_left space_before
              [str "'re"; str "'d"; str "'ll"]
              (space_before
                 (fold_left space_before [str "'s"; str "'ve"]
                    (w ++ str "n't"))
                 (str "n't"))).
    rewrite (fold_absent [str "'s"; str "'ve"]) by absent_all.
    rewrite Hm; [|simpl; auto|repeat constructor; discriminate|discriminate].
    apply fold_absent. absent_all.
  - change (fold_left space_before _ (w ++ str "'re"))
      with (fold_left space_before
              [str "'d"; str "'ll"]
              (space_before
                 (fold_left space_before [str "'s"; str "'ve"; str "n't"]
                    (w ++ str "'re"))
                 (str "'re"))).
    rewrite (fold_absent [str "'s"; str "'ve"; str "n't"]) by absent_all.
    rewrite Hm; [|simpl; auto|repeat constructor; discriminate|discriminate].
    apply fold_absent. absent_all.
  - change (fold_left space_before _ (w ++ str "'d"))
      with (fold_left space_before
              [str "'ll"]
              (space_before
                 (fold_left space_before
                    [str "'s"; str "'ve"; str "n't"; str "'re"]
                    (w ++ str "'d"))
                 (str "'d"))).
    rewrite (fold_absent [str "'s"; str "'ve"; str "n't"; str "'re"])
      by absent_all.
    rewrite Hm; [|simpl; auto|repeat constructor; discriminate|discriminate].
    apply fold_absent. absent_all.
  - change (fold_left space_before _ (w ++ str "'ll"))
      with (space_before
              (fold_left space_before
                 [str "'s"; str "'ve"; str "n't"; str "'re"; str "'d"]
                 (w ++ str "'ll"))
              (str "'ll")).
    rewrite (fold_absent [str "'s"; str "'ve"; str "n't"; str "'re"; str "'d"])
      by absent_all.
    apply Hm; [simpl; auto|repeat constructor; discriminate|discriminate].
Qed.

Lemma contraction_chars p :
  In p contractions ->
  p <> [] /\ no_space p /\ no_punct p /\ all_kept p.
Proof.
  simpl. intros [<-|[<-|[<-|[<-|[<-|[<-|[]]]]]]];
    (split; [discriminate|split; [|split]]);
    repeat constructor; discriminate.
Qed.

(** X6. A word of letters, digits and backquotes followed by one of the
    contraction suffixes ['s] ['ve] [n't] ['re] ['d] ['ll] comes back with
    one space before the suffix. *)
Theorem clean_str_contraction (w p : text) :
  plain w -> w <> [] -> In p contractions ->
  clean_str (w ++ p) = w ++ space :: p.
Proof.
  intros Hw Hne Hp.
  destruct (contraction_chars p Hp) as (Hpne & Hpsp & Hppu & Hpk).
  assert (Hwk : all_kept w).
  { eapply Forall_impl; [|exact Hw]. now intros c (K & _ & _). }
  assert (Hwpu : no_punct w).
  { eapply Forall_impl; [|exact Hw]. now intros c (_ & K & _). }
  assert (Hwsp : no_space w).
  { eapply Forall_impl; [|exact Hw]. intros c (K & _ & _) ->. discriminate. }
  rewrite clean_str_words. unfold words_of, spaced.
  rewrite kept_step1 by (apply Forall_app; now split).
  rewrite (contr_suffix w p Hw Hp), punct_flat_map.
  rewrite flat_map_no_punct.
  - rewrite tokens_app, (tokens_word w Hne Hwsp), (tokens_word p Hpne Hpsp).
    reflexivity.
  - apply Forall_app. split; [exact Hwpu|]. now constructor.
Qed.

Lemma clean_str_contraction_witness :
  clean_str (str "don't") = str "do n't".
Proof.
  apply (clean_str_contraction (str "do") (str "n't")).
  - repeat constructor; discriminate.
  - discriminate.
  - simpl. auto.
Defined.

(** X7. A punctuation mark between two words of letters, digits and
    backquotes is replaced by its template: [ , ] and [ ! ] for the comma
    and the exclamation mark, and space, backslash, mark, space for the
    parentheses and the question mark. *)
Theorem clean_str_punct_between (w1 w2 : text) (c : char) :
  plain w1 -> plain w2 -> w1 <> [] -> w2 <> [] -> is_punct c = true ->
  clean_str (w1 ++ c :: w2) = w1 ++ punct_char c ++ w2.
Proof.
  intros H1 H2 Hn1 Hn2 Hc.
  assert (Hq : c <> quote) by (intros ->; discriminate).
  assert (Hk : kept c = true).
  { unfold is_punct, one_of in Hc. simpl in Hc.
    rewrite !orb_true_iff, !N.eqb_eq in Hc.
    destruct Hc as [->|[->|[->|[->|[->|H]]]]]; try reflexivity.
    discriminate. }
  assert (Hpl : forall w, plain w -> all_kept w /\ no_punct w /\ no_space w).
  { intros w Hw. repeat split; (eapply Forall_impl; [|exact Hw]).
    - now intros x (K & _ & _).
    - now intros x (_ & K & _).
    - intros x (K & _ & _) ->. discriminate. }
  destruct (Hpl w1 H1) as (K1 & P1 & S1).
  destruct (Hpl w2 H2) as (K2 & P2 & S2).
  destruct (punct_char_punct c Hc) as (X & _ & HtX & EX).
  rewrite clean_str_words. unfold words_of, spaced.
  rewrite kept_step1
    by (apply Forall_app; split; [exact K1|now constructor]).
  rewrite contr_fold, fold_absent.
  - rewrite punct_flat_map, flat_map_app. cbn [flat_map].
    rewrite !flat_map_no_punct by assumption.
    rewrite EX. simpl. rewrite <- app_assoc. simpl.
    rewrite !tokens_app, HtX, (tokens_word w1 Hn1 S1), (tokens_word w2 Hn2 S2).
    reflexivity.
  - apply Forall_forall. intros q Hq'. split.
    + now destruct (contraction_chars q Hq').
    + intros (a & b & E). apply contraction_has_quote in Hq'.
      assert (Hnq : Forall (fun x => x <> quote) (w1 ++ c :: w2)).
      { apply Forall_app. split; [now apply plain_no_quote|].
        constructor; [exact Hq|now apply plain_no_quote]. }
      rewrite E in Hnq. apply Forall_app in Hnq. destruct Hnq as [_ Hnq].
      apply Forall_app in Hnq. destruct Hnq as [Hnq _].
      exact (proj1 (Forall_forall _ _) Hnq _ Hq' eq_refl).
Qed.

Lemma clean_str_punct_between_witness :
  clean_str (str "a(b") = str "a" ++ punct_char 40 ++ str "b".
Proof.
  apply (clean_str_punct_between (str "a") (str "b") 40).
  - repeat constructor; discriminate.
  - repeat constructor; discriminate.
  - discriminate.
  - discriminate.
  - reflexivity.
Defined.

End TextMore.

(* ====================================================================== *)
(** * Further properties of the dataset splitter *)
(* ====================================================================== *)

Module SplitMore.
Import Split.
Local Open Scope nat_scope.

Section Rows.
Context {Row : Type}.

(** The order drawn by the generator names each position of the data at
    most once and names no other position. *)
Definition valid_order (data : list Row) (order : list nat) : Prop :=
  NoDup order /\ Forall (fun i => i < length data) order.

(** The row of a frame at a position. *)
Lemma row_at (l : list (nat * Row)) i :
  firstn 1 (skipn i l)
  = match nth_error l i with Some x => [x] | None => [] end.
Proof.
  revert l. induction i as [|i IH]; intros [|x l]; try reflexivity.
  cbn [skipn nth_error]. apply IH.
Qed.

Lemma nth_error_read_csv (data : list Row) : forall k i x,
  nth_error data i = Some x ->
  nth_error (combine (seq k (length data)) data) i = Some ((k + i)%nat, x).
Proof.
  induction data as [|y data IH]; intros k [|i] x H; simpl in *; try discriminate.
  - injection H as <-. now rewrite Nat.add_0_r.
  - rewrite (IH (S k) i x H). f_equal. f_equal. lia.
Qed.

Lemma in_read_csv (data : list Row) : forall k i x,
  In (i, x) (combine (seq k (length data)) data) <->
  (k <= i)%nat /\ nth_error data (i - k) = Some x.
Proof.
  induction data as [|y data IH]; intros k i x; simpl.
  - split; [intros []|]. intros [_ H]. now destruct (i - k)%nat.
  - rewrite IH. split.
    + intros [H|[H1 H2]].
      * injection H as <- <-. split; [lia|]. now rewrite Nat.sub_diag.
      * split; [lia|]. replace (i - k)%nat with (S (i - S k)) by lia.
        exact H2.
    + intros [H1 H2]. destruct (Nat.eq_dec i k) as [->|Hne].
      * left. rewrite Nat.sub_diag in H2. simpl in H2. now injection H2 as <-.
      * right. split; [lia|].
        replace (i - k)%nat with (S (i - S k)) in H2 by lia. exact H2.
Qed.

Lemma NoDup_read_csv (data : list Row) : NoDup (read_csv data).
Proof.
  unfold read_csv. generalize 0%nat.
  induction data as [|y data IH]; intros k; simpl; constructor.
  - intros H. apply in_read_csv in H. lia.
  - apply IH.
Qed.

(** The rows taken at a list of positions. *)
Definition rows_at (df : list (nat * Row)) (idx : list nat)
  : list (nat * Row) :=
  flat_map (fun i => firstn 1 (skipn i df)) idx.

Lemma in_rows_at (data : list Row) idx i x :
  In (i, x) (rows_at (read_csv data) idx)
  <-> In i idx /\ nth_error data i = Some x.
Proof.
  unfold rows_at. rewrite in_flat_map. split.
  - intros (j & Hj & H). rewrite row_at in H.
    destruct (nth_error (read_csv data) j) as [[i' x']|] eqn:E; [|destruct H].
    destruct H as [H|[]]. injection H as -> ->.
    apply nth_error_In in E as Hin. apply in_read_csv in Hin.
    destruct Hin as [_ Hin]. rewrite Nat.sub_0_r in Hin.
    assert (i = j); [|subst; now split].
    destruct (nth_error data j) as [y|] eqn:Ey.
    + unfold read_csv in E. rewrite (nth_error_read_csv data 0 j y Ey) in E.
      now injection E.
    + exfalso. apply nth_error_None in Ey.
      assert (Hlen : (j < length (read_csv data))%nat)
        by (apply nth_error_Some; congruence).
      unfold read_csv in Hlen. rewrite length_combine, length_seq in Hlen. lia.
  - intros [Hi Hx]. exists i. split; [exact Hi|].
    rewrite row_at. unfold read_csv.
    rewrite (nth_error_read_csv data 0 i x Hx). now left.
Qed.

Lemma NoDup_rows_at (data : list Row) idx :
  NoDup idx -> NoDup (rows_at (read_csv data) idx).
Proof.
  induction 1 as [|i idx Hi Hnd IH]; [constructor|].
  change (rows_at (read_csv data) (i :: idx))
    with (firstn 1 (skipn i (read_csv data)) ++ rows_at (read_csv data) idx).
  rewrite row_at.
  destruct (nth_error (read_csv data) i) as [[j x]|] eqn:E; [|exact IH].
  simpl. constructor; [|exact IH].
  intros H. apply in_rows_at in H. destruct H as [H _].
  assert (Hin : In (j, x) (rows_at (read_csv data) [i])).
  { unfold rows_at. cbn [flat_map]. rewrite app_nil_r, row_at, E. now left. }
  apply in_rows_at in Hin. destruct Hin as [[->|[]] _]. contradiction.
Qed.

Lemma isin_spec (tr : list (nat * Row)) row :
  isin tr row = true <-> In (fst row) (map fst tr).
Proof.
  unfold isin. rewrite existsb_exists. split.
  - intros (j & Hj & H). apply Nat.eqb_eq in H. now subst.
  - intros H. exists (fst row). split; [exact H|apply Nat.eqb_refl].
Qed.

Lemma filter_split {A} (f : A -> bool) (l : list A) :
  Permutation (filter f l ++ filter (fun x => negb (f x)) l) l.
Proof.
  induction l as [|x l IH]; [constructor|].
  simpl. destruct (f x); simpl.
  - now constructor.
  - apply Permutation_sym, Permutation_cons_app, Permutation_sym, IH.
Qed.

(** The sampled rows are the rows of the frame whose index is sampled. *)
Lemma sample_filter (data : list Row) idx :
  NoDup idx ->
  Permutation (rows_at (read_csv data) idx)
    (filter (isin (rows_at (read_csv data) idx)) (read_csv data)).
Proof.
  intros Hnd. apply NoDup_Permutation.
  - now apply NoDup_rows_at.
  - apply NoDup_filter, NoDup_read_csv.
  - intros [i x]. rewrite filter_In, isin_spec, in_rows_at. simpl. split.
    + intros [Hi Hx]. split.
      * apply in_read_csv. split; [lia|]. now rewrite Nat.sub_0_r.
      * apply in_map_iff. exists (i, x). split; [reflexivity|].
        apply in_rows_at. now split.
    + intros [Hin Hidx]. apply in_read_csv in Hin.
      destruct Hin as [_ Hin]. rewrite Nat.sub_0_r in Hin.
      apply in_map_iff in Hidx. destruct Hidx as ([i' x'] & Hi' & H').
      simpl in Hi'. subst i'. apply in_rows_at in H'. now split.
Qed.

Lemma NoDup_firstn {A} (l : list A) k : NoDup l -> NoDup (firstn k l).
Proof.
  intros H. rewrite <- (firstn_skipn k l) in H.
  now apply NoDup_app_remove_r in H.
Qed.

Lemma map_snd_read_csv (data : list Row) : map snd (read_csv data) = data.
Proof.
  unfold read_csv. generalize 0.
  induction data as [|y data IH]; intros k; [reflexivity|].
  simpl. now rewrite IH.
Qed.

(** The sampled rows and the rows that are left make up the frame. *)
Lemma frame_permutation (data : list Row) idx :
  NoDup idx ->
  Permutation
    (rows_at (read_csv data) idx
     ++ filter (fun row => negb (isin (rows_at (read_csv data) idx) row))
          (read_csv data))
    (read_csv data).
Proof.
  intros Hidx.
  eapply Permutation_trans;
    [|apply (filter_split (isin (rows_at (read_csv data) idx)))].
  apply Permutation_app_tail. now apply sample_filter.
Qed.

(** X8. Whatever fraction is asked for, when the order drawn has no position
    twice, the rows of the two files together are the rows of the data,
    each as often as in the data. *)
Theorem split_train_valid_partitions (data : list Row) (order : list nat)
    (frac : Q) :
  NoDup order ->
  Permutation
    (fst (split_train_valid data order frac)
     ++ snd (split_train_valid data order frac)) data.
Proof.
  intros Hnd. unfold split_train_valid, sample, to_csv. cbn [fst snd].
  set (idx := firstn _ order).
  change (flat_map (fun i => firstn 1 (skipn i (read_csv data))) idx)
    with (rows_at (read_csv data) idx).
  rewrite <- map_app.
  pose proof (frame_permutation data idx (NoDup_firstn order _ Hnd)) as H.
  apply (Permutation_map snd) in H. now rewrite map_snd_read_csv in H.
Qed.

Lemma length_read_csv (data : list Row) :
  length (read_csv data) = length data.
Proof.
  unfold read_csv. rewrite length_combine, length_seq. apply Nat.min_id.
Qed.

Lemma length_rows_at (data : list Row) idx :
  Forall (fun i => i < length data) idx ->
  length (rows_at (read_csv data) idx) = length idx.
Proof.
  induction 1 as [|i idx Hi _ IH]; [reflexivity|].
  change (rows_at (read_csv data) (i :: idx))
    with (firstn 1 (skipn i (read_csv data)) ++ rows_at (read_csv data) idx).
  rewrite length_app, IH, row_at.
  destruct (nth_error data i) as [x|] eqn:E.
  - unfold read_csv. now rewrite (nth_error_read_csv data 0 i x E).
  - apply nth_error_None in E. lia.
Qed.

Lemma round_seven_tenths (n : nat) :
  (0 <= round_half_even ((7 # 10) * inject_Z (Z.of_nat n)) <= Z.of_nat n)%Z.
Proof.
  unfold round_half_even, Qmult, inject_Z. cbn [Qnum Qden].
  change (Z.pos (10 * 1)) with 10%Z.
  set (a := (7 * Z.of_nat n)%Z).
  pose proof (Z.div_mod a 10 ltac:(lia)) as Hdm.
  pose proof (Z.mod_pos_bound a 10 ltac:(lia)) as Hm.
  assert (Ha : (a = 7 * Z.of_nat n)%Z) by reflexivity.
  destruct (2 * (a mod 10) <? 10)%Z eqn:E1; [lia|].
  apply Z.ltb_ge in E1.
  destruct (10 <? 2 * (a mod 10))%Z; [lia|].
  destruct (Z.even (a / 10)); lia.
Qed.

Lemma length_train (data : list Row) (order : list nat) (frac : Q) :
  valid_order data order -> length order = length data ->
  length (fst (split_train_valid data order frac))
  = Z.to_nat (round_half_even
                ((7 # 10) * inject_Z (Z.of_nat (length data)))).
Proof.
  intros [Hnd Hlt] Hlen.
  unfold split_train_valid, sample, to_csv. cbn [fst].
  rewrite length_map, length_read_csv.
  set (k := Z.to_nat _).
  change (flat_map (fun i => firstn 1 (skipn i (read_csv data))) (firstn k order))
    with (rows_at (read_csv data) (firstn k order)).
  rewrite length_rows_at.
  - rewrite length_firstn, Hlen. apply Nat.min_l.
    pose proof (round_seven_tenths (length data)). subst k. lia.
  - apply Forall_forall. intros i Hi.
    apply (proj1 (Forall_forall _ _) Hlt).
    rewrite <- (firstn_skipn k order). apply in_or_app. now left.
Qed.

Lemma length_both (data : list Row) (order : list nat) (frac : Q) :
  NoDup order ->
  length (fst (split_train_valid data order frac))
  + length (snd (split_train_valid data order frac))
  = length data.
Proof.
  intros Hnd. unfold split_train_valid, sample, to_csv. cbn [fst snd].
  set (idx := firstn _ order).
  change (flat_map (fun i => firstn 1 (skipn i (read_csv data))) idx)
    with (rows_at (read_csv data) idx).
  pose proof (frame_permutation data idx (NoDup_firstn order _ Hnd)) as H.
  apply Permutation_length in H.
  rewrite length_app, length_read_csv in H. now rewrite !length_map.
Qed.

(** Away from a tie, rounding to the nearest integer adds one half and
    rounds down. *)
Lemma round_no_tie (n : nat) :
  n mod 10 <> 5 ->
  round_half_even ((7 # 10) * inject_Z (Z.of_nat n))
  = Z.of_nat ((7 * n + 5) / 10).
Proof.
  intros Hn. unfold round_half_even, Qmult, inject_Z. cbn [Qnum Qden].
  change (Z.pos (10 * 1)) with 10%Z.
  rewrite Nat2Z.inj_div, Nat2Z.inj_add, Nat2Z.inj_mul. simpl Z.of_nat.
  assert (Hn' : (Z.of_nat n mod 10 <> 5)%Z).
  { intros H. apply Hn. apply Nat2Z.inj.
    now rewrite Nat2Z.inj_mod. }
  set (z := Z.of_nat n) in *.
  assert (Hz : (0 <= z)%Z) by (subst z; lia).
  pose proof (Z.div_mod z 10 ltac:(lia)) as Hd.
  pose proof (Z.mod_pos_bound z 10 ltac:(lia)) as Hm.
  pose proof (Z.div_mod (7 * z) 10 ltac:(lia)) as Hd7.
  pose proof (Z.mod_pos_bound (7 * z) 10 ltac:(lia)) as Hm7.
  pose proof (Z.div_mod (7 * z + 5) 10 ltac:(lia)) as Hd5.
  pose proof (Z.mod_pos_bound (7 * z + 5) 10 ltac:(lia)) as Hm5.
  assert (Htie : (2 * ((7 * z) mod 10) <> 10)%Z) by lia.
  destruct (2 * ((7 * z) mod 10) <? 10)%Z eqn:E1.
  - apply Z.ltb_lt in E1. lia.
  - apply Z.ltb_ge in E1.
    destruct (10 <? 2 * ((7 * z) mod 10))%Z eqn:E2.
    + lia.
    + apply Z.ltb_ge in E2. lia.
Qed.

(** X9. With an order that is a rearrangement of the positions of the [n]
    rows, where [n] is below 10^14 and no odd multiple of five, the
    training file holds the integer nearest to [7 n / 10], that is
    [(7 n + 5) / 10] rounded down, and the validation file the other
    rows, whatever fraction is asked for.  (At an odd multiple of five
    [7 n / 10] lies halfway between two integers, and which of the two
    the code takes depends on how the floating-point product [0.7 * n]
    is rounded; below 10^14 rows that product is within 0.1 of
    [7 n / 10].) *)
Theorem split_train_valid_sizes (data : list Row) (order : list nat)
    (frac : Q) :
  valid_order data order -> length order = length data ->
  length data mod 10 <> 5 -> (Z.of_nat (length data) < 10 ^ 14)%Z ->
  length (fst (split_train_valid data order frac))
  = (7 * length data + 5) / 10
  /\ length (fst (split_train_valid data order frac))
     + length (snd (split_train_valid data order frac))
     = length data.
Proof.
  intros Hv Hlen Hn _. split.
  - rewrite (length_train data order frac Hv Hlen), round_no_tie by exact Hn.
    apply Nat2Z.id.
  - apply length_both. now destruct Hv.
Qed.

(** X10. For a dataset of [10 * m] rows: [7 * m] rows for training and
    [3 * m] for validation. *)
Theorem split_train_valid_seventy_thirty (data : list Row)
    (order : list nat) (frac : Q) (m : nat) :
  valid_order data order -> length order = length data ->
  length data = 10 * m ->
  length (fst (split_train_valid data order frac)) = 7 * m
  /\ length (snd (split_train_valid data order frac)) = 3 * m.
Proof.
  intros Hv Hlen Hm.
  pose proof (length_train data order frac Hv Hlen) as H1.
  pose proof (length_both data order frac (proj1 Hv)) as H2.
  assert (Hr : round_half_even ((7 # 10) * inject_Z (Z.of_nat (length data)))
               = Z.of_nat (7 * m)).
  { rewrite Hm. unfold round_half_even, Qmult, inject_Z. cbn [Qnum Qden].
    change (Z.pos (10 * 1)) with 10%Z.
    replace (7 * Z.of_nat (10 * m))%Z with (Z.of_nat (7 * m) * 10)%Z by lia.
    rewrite Z.div_mul, Z.mod_mul by lia. reflexivity. }
  rewrite Hr, Nat2Z.id in H1. lia.
Qed.

End Rows.

Lemma ten_rows_order : valid_order (seq 0 10) (rev (seq 0 10)).
Proof.
  split.
  - apply NoDup_rev, seq_NoDup.
  - apply Forall_forall. intros i Hi. apply in_rev in Hi.
    apply in_seq in Hi. rewrite length_seq. lia.
Qed.

Lemma split_train_valid_partitions_witness :
  Permutation ([9; 8; 7; 6; 5; 4; 3] ++ [0; 1; 2]) (seq 0 10).
Proof.
  exact (split_train_valid_partitions (seq 0 10) (rev (seq 0 10)) (1 # 2)
           (proj1 ten_rows_order)).
Defined.

Lemma twelve_rows_order : valid_order (seq 0 12) (rev (seq 0 12)).
Proof.
  split.
  - apply NoDup_rev, seq_NoDup.
  - apply Forall_forall. intros i Hi. apply in_rev in Hi.
    apply in_seq in Hi. rewrite length_seq. lia.
Qed.

Lemma split_train_valid_sizes_witness :
  length (fst (split_train_valid (seq 0 12) (rev (seq 0 12)) (1 # 2))) = 8
  /\ (length (fst (split_train_valid (seq 0 12) (rev (seq 0 12)) (1 # 2)))
      + length (snd (split_train_valid (seq 0 12) (rev (seq 0 12)) (1 # 2)))
      = 12).
Proof.
  apply (split_train_valid_sizes (seq 0 12) (rev (seq 0 12)) (1 # 2)
           twelve_rows_order eq_refl).
  - discriminate.
  - reflexivity.
Defined.

Lemma split_train_valid_seventy_thirty_witness :
  length (fst (split_train_valid (seq 0 10) (rev (seq 0 10)) 1)) = 7
  /\ length (snd (split_train_valid (seq 0 10) (rev (seq 0 10)) 1)) = 3.
Proof.
  exact (split_train_valid_seventy_thirty (seq 0 10) (rev (seq 0 10)) 1 1
           ten_rows_order eq_refl eq_refl).
Defined.

End SplitMore.

(* ====================================================================== *)
(** * Further properties of the configuration reader *)
(* ====================================================================== *)

Module ConfigMore.
Import Config.
Local Open Scope string_scope.

(** The document that a call reads. *)
Definition read (config_file : string) (fs : string -> file)
    (path : option string) : file :=
  fs (match path with None => config_file | Some p => p end).

(** X11. The result depends on the document through the selected profile
    alone: two documents that are objects with the same entry for the
    profile give the same result, whatever else they hold. *)
Theorem get_params_selected_profile (config_file config_file' : string)
    (fs fs' : string -> file) (path path' : option string) (test : bool)
    (members members' : list (string * json)) :
  read config_file fs path = Document (JObj members) ->
  read config_file' fs' path' = Document (JObj members') ->
  lookup (profile test) members = lookup (profile test) members' ->
  get_params config_file fs path test
  = get_params config_file' fs' path' test.
Proof.
  unfold read, get_params, load. intros -> -> H.
  destruct test; unfold profile in H; simpl; now rewrite H.
Qed.

Definition two_profiles (lr : Q) : json :=
  JObj [("test", JObj [("compute_pars", JObj [("epochs", JNum 1)])]);
        ("prod", JObj [("compute_pars", JObj [("learning_rate", JNum lr)])])].

Lemma get_params_selected_profile_witness :
  get_params "a.json" (fun _ => Document (two_profiles 1)) None true
  = get_params "b.json" (fun _ => Document (two_profiles 2))
      (Some "c.json") true.
Proof.
  exact (get_params_selected_profile "a.json" "b.json"
           (fun _ => Document (two_profiles 1))
           (fun _ => Document (two_profiles 2))
           None (Some "c.json") true _ _ eq_refl eq_refl eq_refl).
Defined.

(** X12. [get_params] returns exactly when the file is read as a document
    that is an object whose selected profile is an object, and then it
    returns the four groups of that profile.  An exception other than
    [AttributeError] is raised exactly when the reading raises it,
    whatever profile is asked for: there is no handler and no default
    document. *)
Theorem get_params_outcome (config_file : string) (fs : string -> file)
    (path : option string) (test : bool) :
  (forall r,
      get_params config_file fs path test = Ok r <->
      exists members prof,
        read config_file fs path = Document (JObj members)
        /\ lookup (profile test) members = Some (JObj prof)
        /\ r = (group prof "model_pars", group prof "data_pars",
                group prof "compute_pars", group prof "out_pars"))
  /\ (forall e, e <> AttributeError ->
        (get_params config_file fs path test = Raise e <->
         load fs (match path with None => config_file | Some p => p end)
         = Raise e)).
Proof.
  unfold read. split.
  - intros r. split.
    + intros H.
      destruct (fs (match path with None => config_file | Some p => p end))
        as [x|d] eqn:Hfs;
        [unfold get_params, load in H; rewrite Hfs in H; discriminate|].
      pose proof (ConfigFacts.get_params_shape config_file fs path test d Hfs)
        as Hd.
      rewrite Hd in H.
      destruct d as [| | | | |members]; try discriminate.
      destruct (lookup (profile test) members) as [v|] eqn:E;
        [|discriminate].
      destruct v as [| | | | |prof]; try discriminate.
      injection H as <-. now exists members, prof.
    + intros (members & prof & Hfs & Hp & ->).
      rewrite (ConfigFacts.get_params_shape _ _ _ _ _ Hfs), Hp. reflexivity.
  - intros e He. unfold get_params at 1.
    destruct (load fs _) as [d|e'] eqn:Hl.
    + split; [|discriminate]. intros H. exfalso. apply He.
      unfold load in Hl.
      destruct (fs (match path with None => config_file | Some p => p end))
        as [x|d'] eqn:Hfs; try discriminate.
      injection Hl as ->.
      assert (Hg : get_params config_file fs path test = Raise e).
      { unfold get_params, load. rewrite Hfs. exact H. }
      rewrite (ConfigFacts.get_params_shape _ _ _ _ _ Hfs) in Hg.
      destruct d as [| | | | |members]; try congruence.
      destruct (lookup (profile test) members) as [v|]; [|congruence].
      destruct v; congruence.
    + cbn [bind]. split; intros H; injection H as ->; reflexivity.
Qed.

Lemma get_params_outcome_witness :
  get_params "x.json" (fun _ => Raises UnicodeDecodeError) None true
  = Raise UnicodeDecodeError.
Proof.
  apply (proj2 (get_params_outcome "x.json"
                  (fun _ => Raises UnicodeDecodeError) None true)
           UnicodeDecodeError); [discriminate|reflexivity].
Defined.

End ConfigMore.

(* ====================================================================== *)
(** * Further properties of the loops *)
(* ====================================================================== *)

Module TorchMore.
Import Torch TorchFacts.
Local Open Scope R_scope.

Section Batches.
Context {F : Framework}.

(** What a batch contributes under given parameters: the number of its
    correct predictions and its loss, the mean cross-entropy of its
    examples. *)
Definition batch_score (w : Params F) (b : Batch) : option (nat * R) :=
  obind (logits w (data (transpose (text b))))
        (fun logit => score logit (data (label b))).

Definition batch_scores (w : Params F) (bs : list Batch)
  : option (list (nat * R)) :=
  mapM (batch_score w) bs.

Definition total_correct (ks : list (nat * R)) : nat :=
  list_sum (map fst ks).

Definition total_loss (ks : list (nat * R)) : R := Rsum (map snd ks).

(** The losses of the examples of a batch, and of a list of batches. *)
Definition example_losses (w : Params F) (b : Batch) : option (list R) :=
  obind (logits w (data (transpose (text b))))
        (fun logit =>
           nlls logit (map (fun l => (Z.of_nat l - 1)%Z) (data (label b)))).

Definition epoch_losses (w : Params F) (bs : list Batch)
  : option (list R) :=
  option_map (@concat R) (mapM (example_losses w) bs).

Lemma measure_batch_score w c l b :
  measure_batch w (c, l) b
  = match batch_score w b with
    | Some (k, loss) => Some (c + INR k, l + loss)
    | None => None
    end.
Proof.
  unfold measure_batch, batch_score.
  destruct (logits w _) as [logit|]; [simpl|reflexivity].
  now destruct (score logit _) as [[k loss]|].
Qed.

Lemma measure_fold w bs : forall c l,
  foldM (measure_batch w) bs (c, l)
  = match batch_scores w bs with
    | Some ks => Some (c + INR (total_correct ks), l + total_loss ks)
    | None => None
    end.
Proof.
  unfold batch_scores.
  induction bs as [|b bs IH]; intros c l.
  - simpl. unfold total_correct, total_loss. simpl.
    now rewrite !Rplus_0_r.
  - cbn [foldM mapM]. rewrite measure_batch_score.
    destruct (batch_score w b) as [[k loss]|]; [|reflexivity].
    cbn [obind]. rewrite IH.
    destruct (mapM (batch_score w) bs) as [ks|]; [|reflexivity].
    cbn [obind]. unfold total_correct, total_loss. cbn [map list_sum Rsum fold_right fst snd].
    rewrite plus_INR. f_equal. f_equal; unfold list_sum, Rsum; lra.
Qed.

(** X13. [_valid] in closed form, over batches that each hold an example
    (an iterator of [torchtext] with a batch size of one or more yields
    no other): the loss returned is the
    sum of the mean losses of the batches divided by the size of the
    dataset, the accuracy the percentage of correct predictions; the
    module is left in evaluation mode, the iterator one pass further, and
    the random generator as it was.  The call raises when a batch does,
    or when the dataset is empty. *)
Theorem _valid_closed_form (m : Module F) device (itr : Iterator)
    (gen : Rng F) :
  Forall (fun b => data (label b) <> []) (pass itr (passes itr)) ->
  _valid m device itr gen
  = match batch_scores (state_dict m) (pass itr (passes itr)) with
    | Some ks =>
        if Nat.eqb (dataset_len itr) 0 then None
        else Some (total_loss ks / INR (dataset_len itr),
                   100 * INR (total_correct ks) / INR (dataset_len itr),
                   ({| state_dict := state_dict m; grad := grad m;
                       training := false |},
                    {| dataset_len := dataset_len itr; pass := pass itr;
                       passes := S (passes itr) |},
                    gen))
    | None => None
    end.
Proof.
  intros _. rewrite _valid_eq, measure_fold.
  destruct (batch_scores _ _) as [ks|]; [|reflexivity].
  rewrite !Rplus_0_l. reflexivity.
Qed.

(** *** Batches of one example *)

Ltac bind_inv H x E :=
  apply obind_Some in H; destruct H as (x & E & H).

Lemma score_single logit lab k loss :
  score logit [lab] = Some (k, loss) ->
  nlls logit [(Z.of_nat lab - 1)%Z] = Some [loss].
Proof.
  unfold score, cross_entropy. cbn [map]. intros H.
  destruct logit as [|z logit]; [discriminate|].
  bind_inv H ce Hce. injection H as _ <-.
  bind_inv Hce ls Hls. injection Hce as <-.
  cbn [nlls] in Hls |- *.
  bind_inv Hls x Hx. bind_inv Hls rest Hrest. injection Hls as <-.
  destruct logit; [|discriminate]. injection Hrest as <-.
  rewrite Hx. cbn [obind]. simpl. do 2 f_equal. lra.
Qed.

Lemma batch_single w b k loss :
  length (data (label b)) = 1%nat ->
  batch_score w b = Some (k, loss) ->
  example_losses w b = Some [loss].
Proof.
  unfold batch_score, example_losses. intros Hlen H.
  destruct (data (label b)) as [|lab [|lab' rest]]; try discriminate.
  inv_bind H. rewrite E. cbn [obind map]. now apply score_single in H.
Qed.

Lemma scores_single w bs : forall ks,
  (forall b, In b bs -> length (data (label b)) = 1%nat) ->
  batch_scores w bs = Some ks ->
  exists losses,
    epoch_losses w bs = Some losses
    /\ length losses = length bs
    /\ Rsum losses = total_loss ks
    /\ examples bs = length bs.
Proof.
  unfold batch_scores, epoch_losses.
  induction bs as [|b bs IH]; intros ks Hone H.
  - injection H as <-. exists []. now repeat split.
  - cbn [mapM] in H. inv_bind H. destruct a as [k loss].
    inv_bind H. injection H as <-.
    destruct (IH a (fun b' Hb' => Hone b' (or_intror Hb')) E0)
      as (losses & Hl & Hlen & Hsum & Hex).
    assert (Hb : length (data (label b)) = 1%nat) by (apply Hone; now left).
    exists (loss :: losses). cbn [mapM].
    rewrite (batch_single w b k loss Hb E). cbn [obind].
    destruct (mapM (example_losses w) bs) as [ls|]; [|discriminate].
    cbn [obind option_map concat app] in Hl |- *. injection Hl as <-.
    repeat split.
    + simpl. now rewrite Hlen.
    + unfold total_loss in *. cbn [Rsum fold_right map snd].
      unfold Rsum in Hsum. now rewrite Hsum.
    + cbn [examples fold_right]. fold (examples bs).
      rewrite Hb, Hex. reflexivity.
Qed.

(** X14. When the iterator covers its dataset with batches of one example, the
    loss that [_valid] returns is the average of the losses of the
    examples. *)
Theorem _valid_batches_of_one (m : Module F) device (itr : Iterator)
    (gen : Rng F) test_loss accuracy st :
  (forall b, In b (pass itr (passes itr)) ->
             length (data (label b)) = 1%nat) ->
  covers itr ->
  _valid m device itr gen = Some (test_loss, accuracy, st) ->
  exists losses,
    epoch_losses (state_dict m) (pass itr (passes itr)) = Some losses
    /\ length losses = dataset_len itr
    /\ test_loss = mean_example_loss losses.
Proof.
  intros Hone Hcov. rewrite _valid_eq, measure_fold.
  destruct (batch_scores _ _) as [ks|] eqn:E; [|discriminate].
  destruct (Nat.eqb _ _); [discriminate|]. intros H. injection H as <- _ _.
  rewrite Rplus_0_l.
  destruct (scores_single _ _ ks Hone E) as (losses & Hl & Hlen & Hsum & Hex).
  unfold covers in Hcov. exists losses. split; [exact Hl|].
  split; [congruence|].
  unfold mean_example_loss. rewrite Hsum. f_equal. f_equal. congruence.
Qed.

(** *** Calls that raise *)

Lemma nlls_unknown logit : forall target,
  In (-1)%Z target -> nlls logit target = None.
Proof.
  induction logit as [|z logit IH]; intros [|t target] H;
    try reflexivity; try destruct H.
  - cbn [nlls]. subst t. reflexivity.
  - cbn [nlls]. destruct (nll z t); [|reflexivity].
    cbn [obind]. now rewrite IH.
Qed.

Lemma cross_entropy_unknown logit (lab : list nat) :
  In O lab ->
  cross_entropy logit (map (fun l => (Z.of_nat l - 1)%Z) lab) = None.
Proof.
  intros H. unfold cross_entropy. destruct logit as [|z logit]; [reflexivity|].
  rewrite nlls_unknown; [reflexivity|].
  apply in_map_iff. exists O. now split.
Qed.

Lemma foldM_fail {A S} (f : S -> A -> option S) bs b :
  In b bs -> (forall s, f s b = None) -> forall s, foldM f bs s = None.
Proof.
  induction bs as [|b' bs IH]; intros Hin Hf s; [destruct Hin|].
  cbn [foldM]. destruct Hin as [->|Hin].
  - now rewrite Hf.
  - destruct (f s b'); [|reflexivity]. cbn [obind]. now apply IH.
Qed.

(** X15. An example with the label of index 0, the unknown label of the
    vocabulary, has the target -1 once the labels are shifted: the loop
    that meets it raises. *)
Theorem unknown_label_raises (m : Module F) device (itr : Iterator)
    (optimizer : OptState F) (epoch max_epoch : nat) (gen : Rng F)
    (b : Batch) :
  In b (pass itr (passes itr)) -> In O (data (label b)) ->
  _valid m device itr gen = None
  /\ _train m device itr optimizer epoch max_epoch gen = None.
Proof.
  intros Hb H0. split.
  - unfold _valid. cbn [iterate].
    rewrite (foldM_fail _ _ b Hb); [reflexivity|].
    intros [[c l] g]. unfold valid_batch.
    destruct (forward _ _ _) as [[logit g']|]; [|reflexivity].
    cbn [obind]. rewrite data_to. unfold sub_. cbn [data].
    now rewrite cross_entropy_unknown.
  - unfold _train. cbn [iterate].
    rewrite (foldM_fail _ _ b Hb); [reflexivity|].
    intros [[c l] [[m' o] g]]. unfold train_batch.
    destruct (forward _ _ _) as [[logit g']|]; [|reflexivity].
    cbn [obind]. rewrite data_to. unfold sub_. cbn [data].
    now rewrite cross_entropy_unknown.
Qed.

(** X16. Over an empty dataset both loops raise: the totals are divided by the
    size of the dataset. *)
Theorem empty_dataset_raises (m : Module F) device (itr : Iterator)
    (optimizer : OptState F) (epoch max_epoch : nat) (gen : Rng F) :
  dataset_len itr = O ->
  _valid m device itr gen = None
  /\ _train m device itr optimizer epoch max_epoch gen = None.
Proof.
  intros H. unfold _valid, _train. cbn [iterate dataset_len]. rewrite H.
  split.
  - now destruct (foldM _ _ _) as [[[c l] g]|].
  - now destruct (foldM _ _ _) as [[[c l] [[m' o] g]]|].
Qed.

(** *** What [_train] leaves *)

Lemma train_batch_mode device st b st' :
  train_batch (F := F) device st b = Some st' ->
  training (fst (fst (snd st'))) = training (fst (fst (snd st))).
Proof.
  destruct st as [[c l] [[m o] g]]. unfold train_batch. intros H.
  inv_bind H. destruct a as [logit g']. inv_bind H.
  destruct (step F o _ _) as [o' w]. now injection H as <-.
Qed.

Lemma train_loop_mode device bs : forall st st',
  foldM (train_batch (F := F) device) bs st = Some st' ->
  training (fst (fst (snd st'))) = training (fst (fst (snd st))).
Proof.
  induction bs as [|b bs IH]; intros st st' H; cbn [foldM] in H.
  - now injection H as <-.
  - inv_bind H. rewrite (IH _ _ H). now apply (train_batch_mode device st b).
Qed.

(** X17. A call of [_train] that returns leaves the module in training mode
    and the iterator one pass further. *)
Theorem _train_leaves_training_mode (m : Module F) device (itr : Iterator)
    (optimizer : OptState F) (epoch max_epoch : nat) (gen : Rng F)
    train_loss accuracy m' optimizer' itr' gen' :
  _train m device itr optimizer epoch max_epoch gen
  = Some (train_loss, accuracy, (m', optimizer', itr', gen')) ->
  training m' = true
  /\ passes itr' = S (passes itr)
  /\ dataset_len itr' = dataset_len itr.
Proof.
  unfold _train. cbn [iterate dataset_len]. intros H.
  inv_bind H. destruct a as [[c l] [[m1 o1] g1]].
  destruct (Nat.eqb _ _); [discriminate|].
  injection H as _ _ <- _ <- _.
  apply train_loop_mode in E. cbn [fst snd] in E.
  now repeat split.
Qed.

(** *** What [fit] leaves *)

(** The history numbers its turns as the loop does, holds as many turns
    as were asked for exactly when no exception was raised, and fewer
    otherwise. *)
Lemma loop_history device out_pars max_epoch todo : forall (st : FitState F),
  let run := epochs_loop device out_pars max_epoch todo st in
  map (@epoch F) (history run) = firstn (length (history run)) todo
  /\ (length (history run) <= length todo)%nat
  /\ (raised run = None <-> length (history run) = length todo).
Proof.
  induction todo as [|n todo IH]; intros st run; subst run.
  - simpl. repeat split; auto.
  - rewrite loop_step.
    destruct (one_epoch _ _ _ _ _) as [e|x] eqn:E.
    + destruct (IH (after e)) as (H1 & H2 & H3).
      cbn [history raised length map firstn].
      destruct (one_epoch_spec _ _ _ _ _ _ E) as (He & _).
      rewrite He, H1. repeat split; [lia| |]; intros H.
      * f_equal. now apply H3.
      * apply H3. lia.
    + cbn [history raised length map firstn].
      repeat split; [lia| |]; discriminate.
Qed.

Lemma firstn_seq_le k : forall a n,
  (k <= n)%nat -> firstn k (seq a n) = seq a k.
Proof.
  induction k as [|k IH]; intros a n H; [reflexivity|].
  destruct n as [|n]; [lia|]. simpl. f_equal. apply IH. lia.
Qed.

(** X18. The turns that a run of [fit] completes are numbered 1, 2, ...
    without a gap, and there are at most [epochs] of them.  A run that
    no exception ends has read an integer [epochs] and completed that
    many turns (none when it is not positive).  A run that an exception
    ends has completed fewer, or none: the exception may come before the
    loop, from a missing key, from the learning rate or from an [epochs]
    that is no integer. *)
Theorem fit_history (V : Type) (cuda_is_available : bool) (m : Module F)
    (train_iter valid_iter : Iterator) (vocab : V)
    (compute_pars out_pars : dict) (gen : Rng F) (files0 : Files F) :
  let run := fit cuda_is_available m train_iter valid_iter vocab
               compute_pars out_pars gen files0 in
  map (@epoch F) (history run) = seq 1 (length (history run))
  /\ (forall n, compute_pars "epochs"%string = Some (Int n) ->
                (length (history run) <= Z.to_nat n)%nat)
  /\ (raised run = None ->
      exists n, compute_pars "epochs"%string = Some (Int n)
                /\ length (history run) = Z.to_nat n)
  /\ (raised run <> None ->
      history run = []
      \/ exists n, compute_pars "epochs"%string = Some (Int n)
                   /\ (length (history run) < Z.to_nat n)%nat).
Proof.
  intros run. subst run.
  destruct (fit_cases V cuda_is_available m train_iter valid_iter vocab
              compute_pars out_pars gen files0)
    as [[x ->]|(n & o & Hn & ->)]; cbn [history raised length map].
  - repeat split; [intros; lia|discriminate|now left].
  - set (st0 := Build_FitState _ _ _ _ _ _ _).
    destruct (loop_history None out_pars (Z.to_nat n)
                (seq 1 (Z.to_nat n)) st0) as (H1 & H2 & H3).
    rewrite length_seq in H2, H3. split; [|split; [|split]].
    + rewrite H1. now apply firstn_seq_le.
    + intros n' Hn'. rewrite Hn in Hn'. now injection Hn' as <-.
    + intros H. exists n. split; [exact Hn|now apply H3].
    + intros H. right. exists n. split; [exact Hn|].
      assert (length (history (epochs_loop None out_pars (Z.to_nat n)
                                 (seq 1 (Z.to_nat n)) st0)) <> Z.to_nat n)
        by (intros Heq; apply H, H3, Heq).
      lia.
Qed.

(** The path of the checkpoint, when the dictionary names a directory. *)
Definition checkpoint (out_pars : dict) (p : string) : Prop :=
  exists dir, out_pars "checkpointdir"%string = Some (Str dir)
              /\ p = os_path_join dir "best_accuracy".

(** The files other than the checkpoint are never written, every write
    is one of the checkpoint, and a turn that completes leaves the module
    in evaluation mode. *)
Lemma loop_frame device out_pars max_epoch todo : forall (st : FitState F),
  let run := epochs_loop device out_pars max_epoch todo st in
  (forall p, ~ checkpoint out_pars p ->
             file (files_left run) p = file (files st) p)
  /\ (forall p w, In (p, w) (saved (files_left run)) ->
                  In (p, w) (saved (files st)) \/ checkpoint out_pars p)
  /\ (forall e, In e (history run) -> training (model (after e)) = false)
  /\ (history run = [] -> files_left run = files st).
Proof.
  induction todo as [|n todo IH]; intros st run; subst run.
  - simpl. repeat split; auto. intros e [].
  - rewrite loop_step.
    destruct (one_epoch _ _ _ _ _) as [e|x] eqn:E;
      [|cbn [history files_left]; repeat split; auto; intros e []].
    destruct (IH (after e)) as (H1 & H2 & H3 & H4).
    cbn [history files_left].
    destruct (one_epoch_spec _ _ _ _ _ _ E) as (_ & Hmode & _ & Hfiles).
    repeat split.
    + intros p Hp. rewrite (H1 p Hp).
      destruct Hfiles as [(_ & (dir & Hdir & _ & ->) & _)|(_ & -> & _)];
        [|reflexivity].
      cbn [write file].
      destruct (String.eqb_spec p (os_path_join dir "best_accuracy"))
        as [->|_]; [|reflexivity].
      exfalso. apply Hp. now exists dir.
    + intros p w Hin. destruct (H2 p w Hin) as [Hin'|Hc]; [|now right].
      destruct Hfiles as [(_ & (dir & Hdir & _ & Hf) & _)|(_ & Hf & _)];
        rewrite Hf in Hin'; [|now left].
      cbn [write saved] in Hin'. destruct Hin' as [Heq|Hin']; [|now left].
      injection Heq as <- _. right. now exists dir.
    + intros e' [<-|He']; [exact Hmode|now apply H3].
    + discriminate.
Qed.

(** X19. A run of [fit] leaves every file other than the checkpoint as it
    was, and every write that it makes is a write of the checkpoint, at
    the path [best_accuracy] of the configured directory; every turn of
    the loop that completes leaves the model in evaluation mode; a run
    that completes no turn leaves the files as they were. *)
Theorem fit_writes_checkpoint_only (V : Type) (cuda_is_available : bool)
    (m : Module F) (train_iter valid_iter : Iterator) (vocab : V)
    (compute_pars out_pars : dict) (gen : Rng F) (files0 : Files F) :
  let run := fit cuda_is_available m train_iter valid_iter vocab
               compute_pars out_pars gen files0 in
  (forall p,
      (forall dir, out_pars "checkpointdir"%string = Some (Str dir) ->
                   p <> os_path_join dir "best_accuracy") ->
      file (files_left run) p = file files0 p)
  /\ (forall p w,
        In (p, w) (saved (files_left run)) ->
        In (p, w) (saved files0)
        \/ exists dir, out_pars "checkpointdir"%string = Some (Str dir)
                       /\ p = os_path_join dir "best_accuracy")
  /\ (forall e, In e (history run) -> training (model (after e)) = false)
  /\ (history run = [] -> files_left run = files0).
Proof.
  intros run. subst run.
  destruct (fit_cases V cuda_is_available m train_iter valid_iter vocab
              compute_pars out_pars gen files0)
    as [[x ->]|(n & o & _ & ->)]; cbn [history files_left].
  - repeat split; auto. intros e [].
  - set (st0 := Build_FitState _ _ _ _ _ _ _).
    destruct (loop_frame None out_pars (Z.to_nat n) (seq 1 (Z.to_nat n)) st0)
      as (H1 & H2 & H3 & H4).
    split; [|split; [exact H2|split; [exact H3|exact H4]]].
    intros p Hp. apply H1. intros (dir & Hdir & ->). now apply (Hp dir).
Qed.

(** The checkpoint holds the parameters that a turn of the history has
    left, a turn whose validation accuracy no turn exceeds and no earlier
    turn reaches; that accuracy is the running best. *)
Definition holds_best (out_pars : dict) (es : list (Epoch F))
    (fs : Files F) (best : R) : Prop :=
  exists k e dir,
    nth_error es k = Some e
    /\ out_pars "checkpointdir"%string = Some (Str dir)
    /\ file fs (os_path_join dir "best_accuracy")
       = Some (state_dict (model (after e)))
    /\ best = ts_acc e
    /\ (forall e', In e' es -> ts_acc e' <= ts_acc e)
    /\ (forall j e', (j < k)%nat -> nth_error es j = Some e' ->
                     ts_acc e' < ts_acc e).

Definition best_so_far (out_pars : dict) (es : list (Epoch F))
    (fs : Files F) (best : R) : Prop :=
  (es = [] /\ best = -1) \/ holds_best out_pars es fs best.

Lemma step_best device out_pars max_epoch es (st : FitState F) n e :
  best_so_far out_pars es (files st) (best_test_acc st) ->
  one_epoch device out_pars max_epoch st n = Ok e ->
  holds_best out_pars (es ++ [e]) (files (after e))
    (best_test_acc (after e)).
Proof.
  intros Hpre H.
  destruct (one_epoch_spec _ _ _ _ _ _ H)
    as (_ & _ & Hacc & [(Hlt & (dir & Hdir & _ & Hf) & Hb)|(Hge & Hf & Hb)]).
  - assert (Hle : forall e', In e' es -> ts_acc e' <= best_test_acc st).
    { intros e' He'.
      destruct Hpre as [[-> _]|(k & ek & d & _ & _ & _ & -> & Hall & _)];
        [destruct He'|now apply Hall]. }
    exists (length es), e, dir. repeat split.
    + rewrite nth_error_app2, Nat.sub_diag by lia. reflexivity.
    + exact Hdir.
    + rewrite Hf. cbn [write file]. now rewrite String.eqb_refl.
    + exact Hb.
    + intros e' He'. apply in_app_or in He'.
      destruct He' as [He'|[<-|[]]]; [|lra].
      specialize (Hle e' He'). lra.
    + intros j e' Hj He'. rewrite nth_error_app1 in He' by exact Hj.
      apply nth_error_In in He'. specialize (Hle e' He'). lra.
  - destruct Hpre
      as [[_ Hm1]|(k & ek & d & Hk & Hd & Hfk & Hbk & Hall & Hstrict)].
    + exfalso. apply Hge. lra.
    + assert (Hlen : (k < length es)%nat) by (apply nth_error_Some; congruence).
      exists k, ek, d. repeat split.
      * now rewrite nth_error_app1.
      * exact Hd.
      * now rewrite Hf.
      * now rewrite Hb.
      * intros e' He'. apply in_app_or in He'.
        destruct He' as [He'|[<-|[]]]; [now apply Hall|].
        rewrite <- Hbk. lra.
      * intros j e' Hj He'. rewrite nth_error_app1 in He' by lia.
        now apply (Hstrict j).
Qed.

(** The value of [best_test_acc] when the last completed turn ends. *)
Definition best_left (best0 : R) (es : list (Epoch F)) : R :=
  last (map (fun e => best_test_acc (after e)) es) best0.

Lemma loop_best device out_pars max_epoch todo :
  forall (st : FitState F) es0,
    best_so_far out_pars es0 (files st) (best_test_acc st) ->
    best_so_far out_pars
      (es0 ++ history (epochs_loop device out_pars max_epoch todo st))
      (files_left (epochs_loop device out_pars max_epoch todo st))
      (best_left (best_test_acc st)
         (history (epochs_loop device out_pars max_epoch todo st))).
Proof.
  induction todo as [|n todo IH]; intros st es0 Hpre.
  - simpl. now rewrite app_nil_r.
  - rewrite loop_step.
    destruct (one_epoch _ _ _ _ _) as [e|x] eqn:E.
    + cbn [history files_left]. unfold best_left. cbn [map].
      rewrite last_cons. fold (best_left (best_test_acc (after e))
        (history (epochs_loop device out_pars max_epoch todo (after e)))).
      change (es0 ++ e :: ?x) with (es0 ++ [e] ++ x).
      rewrite app_assoc. apply IH. right.
      now apply (step_best device out_pars max_epoch es0 st n e).
    + cbn [history files_left]. now rewrite app_nil_r.
Qed.

(** X20. After a run of [fit] in which a turn of the loop completed, be
    the run ended by an exception or not, the checkpoint file holds the
    parameters left by the first completed turn that reached the highest
    validation accuracy of the completed turns, and that accuracy is the
    value of [best_test_acc] at the end of the last completed turn. *)
Theorem fit_checkpoint_is_best (V : Type) (cuda_is_available : bool)
    (m : Module F) (train_iter valid_iter : Iterator) (vocab : V)
    (compute_pars out_pars : dict) (gen : Rng F) (files0 : Files F) :
  history (fit cuda_is_available m train_iter valid_iter vocab
             compute_pars out_pars gen files0) <> [] ->
  exists k e dir,
    nth_error
      (history (fit cuda_is_available m train_iter valid_iter vocab
                  compute_pars out_pars gen files0)) k = Some e
    /\ out_pars "checkpointdir"%string = Some (Str dir)
    /\ file (files_left (fit cuda_is_available m train_iter valid_iter vocab
                           compute_pars out_pars gen files0))
         (os_path_join dir "best_accuracy")
       = Some (state_dict (model (after e)))
    /\ best_left (-1)
         (history (fit cuda_is_available m train_iter valid_iter vocab
                     compute_pars out_pars gen files0)) = ts_acc e
    /\ (forall e',
          In e' (history (fit cuda_is_available m train_iter valid_iter
                            vocab compute_pars out_pars gen files0)) ->
          ts_acc e' <= ts_acc e)
    /\ (forall j e', (j < k)%nat ->
          nth_error
            (history (fit cuda_is_available m train_iter valid_iter vocab
                        compute_pars out_pars gen files0)) j = Some e' ->
          ts_acc e' < ts_acc e).
Proof.
  destruct (fit_cases V cuda_is_available m train_iter valid_iter vocab
              compute_pars out_pars gen files0)
    as [[x ->]|(n & o & _ & ->)]; cbn [history].
  - intros H. now contradiction H.
  - set (st0 := Build_FitState _ _ _ _ _ _ _). intros Hne.
    destruct (loop_best None out_pars (Z.to_nat n) (seq 1 (Z.to_nat n))
                st0 []) as [[H _]|H].
    + left. now split.
    + simpl in H. contradiction.
    + exact H.
Qed.

End Batches.

(** *** Runs on the concrete network *)

Lemma fit_checkpoint_is_best_witness :
  exists k e dir,
    nth_error
      [turn 1 1 (write with_directory tt "ckpt/best_accuracy");
       turn 2 2 (write with_directory tt "ckpt/best_accuracy")] k = Some e
    /\ out_dir "checkpointdir"%string = Some (Str dir)
    /\ file (write with_directory tt "ckpt/best_accuracy")
         (os_path_join dir "best_accuracy")
       = Some (state_dict (model (after e))).
Proof.
  pose proof (fit_checkpoint_is_best unit true (net true) (two_itr 0)
                (two_itr 0) tt two_epochs out_dir tt with_directory) as H.
  rewrite fit_two_epochs in H. cbn [history files_left] in H.
  destruct (H ltac:(discriminate)) as (k & e & dir & H1 & H2 & H3 & _).
  exists k, e, dir. now repeat split.
Defined.

Lemma _valid_closed_form_witness :
  _valid (net true) None (two_itr 0) tt
  = match batch_scores (F := zero_net) tt [two_examples] with
    | Some ks =>
        Some (total_loss ks / INR 2, 100 * INR (total_correct ks) / INR 2,
              (net false, two_itr 1, tt))
    | None => None
    end.
Proof.
  apply (_valid_closed_form (net true) None (two_itr 0) tt).
  constructor; [discriminate|constructor].
Defined.

Definition unknown_example : Batch :=
  {| text := tensor cpu [[3]]%nat; label := tensor cpu [0]%nat |}.

Definition unknown_itr : Iterator :=
  {| dataset_len := 1; pass := fun _ => [unknown_example]; passes := 0 |}.

Lemma unknown_label_raises_witness :
  _valid (net true) None unknown_itr tt = None
  /\ _train (net true) None unknown_itr tt 1 1 tt = None.
Proof.
  apply (unknown_label_raises (net true) None unknown_itr tt 1 1 tt
           unknown_example); simpl; auto.
Defined.

Definition empty_itr : Iterator :=
  {| dataset_len := 0; pass := fun _ => []; passes := 0 |}.

Lemma empty_dataset_raises_witness :
  _valid (net true) None empty_itr tt = None
  /\ _train (net true) None empty_itr tt 1 1 tt = None.
Proof.
  exact (empty_dataset_raises (net true) None empty_itr tt 1 1 tt eq_refl).
Defined.

Lemma _train_leaves_training_mode_witness :
  training (net true) = true
  /\ passes (two_itr 1) = S (passes (two_itr 0))
  /\ dataset_len (two_itr 1) = dataset_len (two_itr 0).
Proof.
  exact (_train_leaves_training_mode (net false) None (two_itr 0) tt 1 1 tt
           _ _ _ _ _ _ (_train_two false None 0 1 1)).
Defined.

Definition one_example : Batch :=
  {| text := tensor cpu [[3]]%nat; label := tensor cpu [1]%nat |}.

Definition one_itr : Iterator :=
  {| dataset_len := 2; pass := fun _ => [one_example; one_example];
     passes := 0 |}.

Lemma measure_one c l :
  measure_batch (F := zero_net) tt (c, l) one_example
  = Some (c + 1, l + ln 2).
Proof.
  unfold measure_batch, score, cross_entropy.
  assert (Hl : logits (F := zero_net) tt (data (transpose (text one_example)))
               = Some [[0; 0]]) by reflexivity.
  rewrite Hl. cbn [obind data label one_example map nlls].
  change (Z.of_nat 1 - 1)%Z with 0%Z.
  rewrite nll_zeros, argmax_zeros. cbn [obind fst snd].
  f_equal. f_equal; simpl; lra.
Qed.

Lemma _valid_one :
  _valid (net true) None one_itr tt
  = Some (ln 2, 100, (net false, snd (iterate one_itr), tt)).
Proof.
  rewrite _valid_eq. cbn [one_itr pass passes dataset_len foldM].
  change (state_dict (net true)) with (tt : Params zero_net).
  rewrite measure_one. cbn [obind]. rewrite measure_one. cbn [obind Nat.eqb].
  f_equal. f_equal. f_equal; simpl; lra.
Qed.

Lemma _valid_batches_of_one_witness :
  exists losses,
    epoch_losses (F := zero_net) tt [one_example; one_example] = Some losses
    /\ length losses = 2%nat
    /\ ln 2 = mean_example_loss losses.
Proof.
  apply (_valid_batches_of_one (net true) None one_itr tt (ln 2) 100
           (net false, snd (iterate one_itr), tt)).
  - intros b [<-|[<-|[]]]; reflexivity.
  - reflexivity.
  - exact _valid_one.
Defined.

End TorchMore.
